(** * dulwich.patch: git-am style patches

    A shallow embedding of [dulwich/patch.py] and of the two Python
    library services it calls ([difflib.SequenceMatcher] and the header /
    payload split of [email.parser]), followed by the properties of the
    diff formatter, the object-diff writer and the patch-mail reader and
    writer.

    Python byte strings are lists of 8-bit characters; Python exceptions
    are values of [exn], and a function that may raise returns a sum. *)

From Stdlib Require Import String Ascii List Arith NArith Bool Lia.
From Stdlib Require Import DecimalString DecimalNat Sorted.
Import ListNotations.
Open Scope list_scope.

(** * Byte strings *)

Definition bytes := list ascii.

Definition B (s : string) : bytes := list_ascii_of_string s.
Arguments B _%_string.

Definition nl : ascii := "010"%char.
Definition cr : ascii := "013"%char.

Inductive exn := Raise (cls : string).

Definition AttributeError := Raise "AttributeError".
Definition ValueError := Raise "ValueError".
Definition IndexError := Raise "IndexError".
Definition KeyError := Raise "KeyError".
Definition TypeError := Raise "TypeError".
Definition UnicodeEncodeError := Raise "UnicodeEncodeError".

Fixpoint bytes_eqb (x y : bytes) : bool :=
  match x, y with
  | [], [] => true
  | c :: x', d :: y' => Ascii.eqb c d && bytes_eqb x' y'
  | _, _ => false
  end.

(** [s.startswith(p)] *)
Fixpoint startswith (p s : bytes) : bool :=
  match p with
  | [] => true
  | c :: p' =>
      match s with
      | d :: s' => Ascii.eqb c d && startswith p' s'
      | [] => false
      end
  end.

(** [line[-1:] == b'\n'] *)
Fixpoint ends_with_newline (l : bytes) : bool :=
  match l with
  | [] => false
  | [c] => Ascii.eqb c nl
  | _ :: l' => ends_with_newline l'
  end.

(** [s.replace(old, new)] for a one-byte [old]. *)
Definition replace1 (old : ascii) (new : bytes) (s : bytes) : bytes :=
  flat_map (fun c => if Ascii.eqb c old then new else [c]) s.

(** Bytes that [bytes.rstrip()] removes: space, tab, LF, VT, FF, CR. *)
Definition is_space (c : ascii) : bool :=
  Ascii.eqb c " " || Ascii.eqb c "009" || Ascii.eqb c nl
  || Ascii.eqb c "011" || Ascii.eqb c "012" || Ascii.eqb c cr.

(** [s.rstrip(chars)], with [chars] given as a predicate. *)
Fixpoint rstrip_by (p : ascii -> bool) (s : bytes) : bytes :=
  match s with
  | [] => []
  | c :: s' =>
      match rstrip_by p s' with
      | [] => if p c then [] else [c]
      | r => c :: r
      end
  end.

Definition rstrip : bytes -> bytes := rstrip_by is_space.
Definition rstrip_nl : bytes -> bytes := rstrip_by (Ascii.eqb nl).

(** Iterating a [BytesIO]: the lines of [s], each with its ["\n"]. *)
Fixpoint readlines (s : bytes) : list bytes :=
  match s with
  | [] => []
  | c :: s' =>
      if Ascii.eqb c nl then [c] :: readlines s'
      else match readlines s' with
           | [] => [[c]]
           | l :: ls => (c :: l) :: ls
           end
  end.

(** [bytes.splitlines(keepends)]: a line ends at LF, CR or CR LF. *)
Fixpoint splitlines (keepends : bool) (s : bytes) : list bytes :=
  match s with
  | [] => []
  | c :: s' =>
      if Ascii.eqb c nl then
        (if keepends then [c] else []) :: splitlines keepends s'
      else if Ascii.eqb c cr then
        match s' with
        | d :: s'' =>
            if Ascii.eqb d nl
            then (if keepends then [c; d] else []) :: splitlines keepends s''
            else (if keepends then [c] else []) :: splitlines keepends s'
        | [] => [if keepends then [c] else []]
        end
      else match splitlines keepends s' with
           | [] => [[c]]
           | l :: ls => (c :: l) :: ls
           end
  end.

(** [s.index(sub, start)]: position of the first occurrence of [sub] at or
    after [start]; [None] stands for the [ValueError] Python raises. *)
Fixpoint find_from (sub s : bytes) (pos : nat) : option nat :=
  match s with
  | [] => if startswith sub [] then Some pos else None
  | _ :: s' => if startswith sub s then Some pos else find_from sub s' (S pos)
  end.

Definition index (sub s : bytes) (start : nat) : option nat :=
  if start <=? length s then find_from sub (skipn start s) start else None.

(** ["%d" % n] for a non-negative [n]. *)
Definition fmt_d (n : nat) : bytes :=
  B (NilEmpty.string_of_uint (Nat.to_uint n)).

Definition oct_digit (n : N) : ascii :=
  ascii_of_N (48 + n mod 8).

Fixpoint oct_digits (fuel : nat) (n : N) (acc : bytes) : bytes :=
  match fuel with
  | O => acc
  | S f =>
      let acc' := oct_digit n :: acc in
      if (n / 8 =? 0)%N then acc' else oct_digits f (n / 8)%N acc'
  end.

(** ["%o" % n] for a non-negative [n]. *)
Definition fmt_o (n : N) : bytes :=
  oct_digits (S (N.to_nat (N.log2 n))) n [].

(** [l[i1:i2]] for non-negative indices. *)
Definition slice {A : Type} (l : list A) (i1 i2 : nat) : list A :=
  firstn (i2 - i1) (skipn i1 l).

(** * difflib.SequenceMatcher *)

Module Difflib.

Inductive tag := equal | replace | delete | insert.

Definition match_t : Type := nat * nat * nat.
Definition opcode : Type := tag * nat * nat * nat * nat.

Definition is_equal (t : tag) : bool :=
  match t with equal => true | _ => false end.

Section SequenceMatcher.

Context {A : Type} (eqb : A -> A -> bool).
Variables a b : list A.

(** Modelled from the spec: the SequenceDiffer of section 4.1, which the
    source obtains as [SequenceMatcher(None, a, b)] from Python's difflib;
    that module is not among the repository's sources.  The definitions
    below follow difflib: no junk predicate, and the automatic heuristic
    that drops from the index of [b] every element occurring more than
    1% + 1 times once [b] has 200 elements. *)
Definition popular (x : A) : bool :=
  (200 <=? length b) && (length b / 100 + 1 <? length (filter (eqb x) b)).

Fixpoint indices_from (j : nat) (l : list A) (x : A) : list nat :=
  match l with
  | [] => []
  | y :: l' =>
      if eqb y x then j :: indices_from (S j) l' x
      else indices_from (S j) l' x
  end.

(** [b2j.get(x, [])]: where [x] occurs in [b], in increasing order. *)
Definition b2j (x : A) : list nat :=
  if popular x then [] else indices_from 0 b x.

(** [a[i] == b[j]] *)
Definition same_at (i j : nat) : bool :=
  match nth_error a i, nth_error b j with
  | Some x, Some y => eqb x y
  | _, _ => false
  end.

(** The dictionary [j2len] maps [j] to the length of the longest match
    ending with [a[i-1]] and [b[j]]; every stored length is positive, so a
    missing key reads as [0]. *)
Definition j2len_get (j2len : nat -> nat) (j : nat) : nat :=
  match j with
  | O => 0
  | S j' => j2len j'
  end.

Definition j2len_set (j2len : nat -> nat) (j k : nat) : nat -> nat :=
  fun j' => if j' =? j then k else j2len j'.

(** The inner loop of [find_longest_match] over [b2j[a[i]]]. *)
Fixpoint scan_row (i blo bhi : nat) (j2len : nat -> nat) (js : list nat)
    (newj2len : nat -> nat) (best : match_t) : (nat -> nat) * match_t :=
  match js with
  | [] => (newj2len, best)
  | j :: js' =>
      if j <? blo then scan_row i blo bhi j2len js' newj2len best
      else if bhi <=? j then (newj2len, best)
      else
        let k := S (j2len_get j2len j) in
        let '(_, _, bestsize) := best in
        scan_row i blo bhi j2len js' (j2len_set newj2len j k)
          (if bestsize <? k then (S i - k, S j - k, k) else best)
  end.

(** The outer loop, [for i in range(alo, ahi)]. *)
Fixpoint scan_rows (rows : list nat) (blo bhi : nat) (j2len : nat -> nat)
    (best : match_t) : match_t :=
  match rows with
  | [] => best
  | i :: rows' =>
      let js := match nth_error a i with Some x => b2j x | None => [] end in
      let '(newj2len, best') :=
        scan_row i blo bhi j2len js (fun _ => 0) best in
      scan_rows rows' blo bhi newj2len best'
  end.

(** [while besti > alo and bestj > blo and a[besti-1] == b[bestj-1]] *)
Fixpoint extend_left (alo blo besti bestj bestsize : nat) {struct besti}
    : match_t :=
  match besti, bestj with
  | S i', S j' =>
      if (alo <? besti) && (blo <? bestj) && same_at i' j'
      then extend_left alo blo i' j' (S bestsize)
      else (besti, bestj, bestsize)
  | _, _ => (besti, bestj, bestsize)
  end.

(** [while besti+bestsize < ahi and bestj+bestsize < bhi and
    a[besti+bestsize] == b[bestj+bestsize]]; [room] is
    [ahi - (besti+bestsize)]. *)
Fixpoint extend_right (room bhi besti bestj bestsize : nat) : nat :=
  match room with
  | O => bestsize
  | S room' =>
      if (bestj + bestsize <? bhi)
         && same_at (besti + bestsize) (bestj + bestsize)
      then extend_right room' bhi besti bestj (S bestsize)
      else bestsize
  end.

(** Modelled from the spec: [find_longest_match] of difflib, the longest
    run common to [a[alo:ahi]] and [b[blo:bhi]].  With no junk, the two
    loops that extend a match over junk elements never run. *)
Definition find_longest_match (alo ahi blo bhi : nat) : match_t :=
  let '(besti, bestj, bestsize) :=
    scan_rows (seq alo (ahi - alo)) blo bhi (fun _ => 0) (alo, blo, 0) in
  let '(besti, bestj, bestsize) :=
    extend_left alo blo besti bestj bestsize in
  (besti, bestj,
   extend_right (ahi - (besti + bestsize)) bhi besti bestj bestsize).

(** Modelled from the spec: the matching blocks of [a[alo:ahi]] and
    [b[blo:bhi]], in increasing order: the longest match, and recursively
    those of the pieces to its left and to its right.  difflib runs this recursion on an explicit
    work list and sorts the blocks afterwards; [depth] bounds the nesting
    and [S (ahi - alo)] is always enough. *)
Fixpoint matching_blocks_rec (depth alo ahi blo bhi : nat) : list match_t :=
  match depth with
  | O => []
  | S depth' =>
      let '(i, j, k) := find_longest_match alo ahi blo bhi in
      if k =? 0 then []
      else
        (if (alo <? i) && (blo <? j)
         then matching_blocks_rec depth' alo i blo j else [])
        ++ (i, j, k)
        :: (if (i + k <? ahi) && (j + k <? bhi)
            then matching_blocks_rec depth' (i + k) ahi (j + k) bhi else [])
  end.

(** Adjacent blocks are merged into one. *)
Fixpoint collapse (i1 j1 k1 : nat) (blocks : list match_t) : list match_t :=
  match blocks with
  | [] => if k1 =? 0 then [] else [(i1, j1, k1)]
  | (i2, j2, k2) :: rest =>
      if (i1 + k1 =? i2) && (j1 + k1 =? j2)
      then collapse i1 j1 (k1 + k2) rest
      else (if k1 =? 0 then [] else [(i1, j1, k1)]) ++ collapse i2 j2 k2 rest
  end.

(** Modelled from the spec: [get_matching_blocks] of difflib, with the
    closing block of size [0]. *)
Definition get_matching_blocks : list match_t :=
  collapse 0 0 0
    (matching_blocks_rec (S (length a)) 0 (length a) 0 (length b))
  ++ [(length a, length b, 0)].

Fixpoint opcodes_from (i j : nat) (blocks : list match_t) : list opcode :=
  match blocks with
  | [] => []
  | (ai, bj, size) :: rest =>
      (if (i <? ai) && (j <? bj) then [(replace, i, ai, j, bj)]
       else if i <? ai then [(delete, i, ai, j, bj)]
       else if j <? bj then [(insert, i, ai, j, bj)]
       else [])
      ++ (if size =? 0 then [] else [(equal, ai, ai + size, bj, bj + size)])
      ++ opcodes_from (ai + size) (bj + size) rest
  end.

(** Modelled from the spec: [get_opcodes] of difflib. *)
Definition get_opcodes : list opcode := opcodes_from 0 0 get_matching_blocks.

End SequenceMatcher.

(** [codes[0] = tag, max(i1, i2-n), i2, max(j1, j2-n), j2] *)
Definition context_before (n : nat) (c : opcode) : opcode :=
  let '(t, i1, i2, j1, j2) := c in
  (t, Nat.max i1 (i2 - n), i2, Nat.max j1 (j2 - n), j2).

(** [codes[-1] = tag, i1, min(i2, i1+n), j1, min(j2, j1+n)] *)
Definition context_after (n : nat) (c : opcode) : opcode :=
  let '(t, i1, i2, j1, j2) := c in
  (t, i1, Nat.min i2 (i1 + n), j1, Nat.min j2 (j1 + n)).

Definition tag_of (c : opcode) : tag :=
  let '(t, _, _, _, _) := c in t.

Definition fixup_leading (n : nat) (codes : list opcode) : list opcode :=
  match codes with
  | c :: rest => if is_equal (tag_of c) then context_before n c :: rest else codes
  | [] => []
  end.

Fixpoint fixup_trailing (n : nat) (codes : list opcode) : list opcode :=
  match codes with
  | [] => []
  | [c] => if is_equal (tag_of c) then [context_after n c] else [c]
  | c :: rest => c :: fixup_trailing n rest
  end.

(** The grouping loop; [group] is the group being built. *)
Fixpoint group_codes (n : nat) (codes group : list opcode)
    : list (list opcode) :=
  match codes with
  | [] =>
      match group with
      | [] => []
      | [c] => if is_equal (tag_of c) then [] else [group]
      | _ => [group]
      end
  | (t, i1, i2, j1, j2) :: rest =>
      if is_equal t && (n + n <? i2 - i1)
      then (group ++ [context_after n (t, i1, i2, j1, j2)])
           :: group_codes n rest [context_before n (t, i1, i2, j1, j2)]
      else group_codes n rest (group ++ [(t, i1, i2, j1, j2)])
  end.

(** Modelled from the spec: [get_grouped_opcodes(n)] of difflib, the
    change groups with [n] lines of context. *)
Definition get_grouped_opcodes {A : Type} (eqb : A -> A -> bool)
    (a b : list A) (n : nat) : list (list opcode) :=
  let codes :=
    match get_opcodes eqb a b with
    | [] => [(equal, 0, 1, 0, 1)]
    | codes => codes
    end in
  group_codes n (fixup_trailing n (fixup_leading n codes)) [].

End Difflib.

(** * Results and file objects *)

(** A computation that may raise. *)
Definition bind_exn {A R : Type} (m : exn + A) (k : A -> exn + R) : exn + R :=
  match m with
  | inl e => inl e
  | inr x => k x
  end.

(** A computation on a file object [f] opened for writing: the byte
    strings passed to [f.write], in order, and the value returned or the
    exception raised.  What was written before an exception stays
    written. *)
Definition writer (A : Type) : Type := list bytes * (exn + A).

Definition ret {A : Type} (x : A) : writer A := ([], inr x).

Definition bind {A R : Type} (m : writer A) (k : A -> writer R) : writer R :=
  match m with
  | (w, inl e) => (w, inl e)
  | (w, inr x) => let '(w', r) := k x in (w ++ w', r)
  end.

Definition write (x : bytes) : writer unit := ([x], inr tt).

Definition writelines (xs : list bytes) : writer unit := (xs, inr tt).

Definition lift {A : Type} (m : exn + A) : writer A := ([], m).

Declare Scope writer_scope.
Delimit Scope writer_scope with writer.

Notation "x <- m ;; k" := (bind m (fun x => k))
  (at level 61, m at next level, right associativity) : writer_scope.
Notation "m ;; k" := (bind m (fun _ => k))
  (at level 61, right associativity) : writer_scope.

(** The bytes a computation left in the file. *)
Definition written {A : Type} (m : writer A) : bytes := concat (fst m).

(** * dulwich.patch *)

Record Commit := mkCommit {
  author : bytes;
  committer : bytes;
  message : bytes
}.

Definition FIRST_FEW_BYTES : nat := 8000.

Section Environment.

(** What [write_commit_patch] reads from its surroundings: [commit.id],
    [time.ctime(commit.commit_time)], the formatted current time, the
    [diffstat] program ([None] when starting it fails) and
    [dulwich.__version__]. *)
Variable commit_id : Commit -> bytes.
Variable ctime : Commit -> bytes.
Variable strftime_now : bytes.
Variable diffstat : option (bytes -> bytes).
Variable dulwich_version : nat * nat * nat.

(** The file [f] takes bytes: after the output of [diffstat], line 61
    passes the str ["\n"] to [f.write], which raises [TypeError]. *)
Definition write_commit_patch (commit : Commit) (contents : bytes)
    (progress : nat * nat) (version : option bytes) : writer unit :=
  (let '(num, total) := progress in
   write (B "From " ++ commit_id commit ++ B " " ++ ctime commit ++ [nl]) ;;
   write (B "From: " ++ author commit ++ [nl]) ;;
   write (B "Date: " ++ strftime_now ++ [nl]) ;;
   write (B "Subject: [PATCH " ++ fmt_d num ++ B "/" ++ fmt_d total ++ B "] "
          ++ message commit ++ [nl]) ;;
   write [nl] ;;
   write (B "---" ++ [nl]) ;;
   match diffstat with
   | None => ret tt
   | Some run => write (run contents) ;; lift (inl TypeError)
   end ;;
   write contents ;;
   write (B "-- " ++ [nl]) ;;
   match version with
   | None =>
       let '(major, minor, micro) := dulwich_version in
       write (B "Dulwich " ++ fmt_d major ++ B "." ++ fmt_d minor ++ B "."
              ++ fmt_d micro ++ [nl])
   | Some v => write (v ++ [nl])
   end)%writer.

End Environment.

Definition get_summary (commit : Commit) : exn + bytes :=
  match splitlines false (message commit) with
  | [] => inl IndexError
  | line :: _ => inr (replace1 " " (B "-") line)
  end.

Definition no_newline_marker : bytes :=
  nl :: B "\ No newline at end of file" ++ [nl].

(** [if not line[-1:] == b'\n': line += b'\n\\ No newline at end of file\n'] *)
Definition terminate (line : bytes) : bytes :=
  if ends_with_newline line then line else line ++ no_newline_marker.

Definition format_opcode (a b : list bytes) (op : Difflib.opcode)
    : list bytes :=
  let '(tag, i1, i2, j1, j2) := op in
  match tag with
  | Difflib.equal => map (fun line => B " " ++ line) (slice a i1 i2)
  | _ =>
      (match tag with
       | Difflib.replace | Difflib.delete =>
           map (fun line => B "-" ++ terminate line) (slice a i1 i2)
       | _ => []
       end)
      ++
      (match tag with
       | Difflib.replace | Difflib.insert =>
           map (fun line => B "+" ++ terminate line) (slice b j1 j2)
       | _ => []
       end)
  end.

(** [group[0]] and [group[-1]]; difflib yields no empty group. *)
Definition group_range (group : list Difflib.opcode)
    : nat * nat * nat * nat :=
  let d := (Difflib.equal, 0, 0, 0, 0) in
  let '(_, i1, _, j1, _) := hd d group in
  let '(_, _, i2, _, j2) := last group d in
  (i1, i2, j1, j2).

Definition hunk_header (group : list Difflib.opcode) : bytes :=
  let '(i1, i2, j1, j2) := group_range group in
  B "@@ -" ++ fmt_d (i1 + 1) ++ B "," ++ fmt_d (i2 - i1)
  ++ B " +" ++ fmt_d (j1 + 1) ++ B "," ++ fmt_d (j2 - j1) ++ B " @@" ++ [nl].

Definition format_group (a b : list bytes) (group : list Difflib.opcode)
    : list bytes :=
  hunk_header group :: flat_map (format_opcode a b) group.

(** The body of the generator, with its flag [started]. *)
Fixpoint format_groups (a b : list bytes) (fromfile tofile : bytes)
    (started : bool) (groups : list (list Difflib.opcode)) : list bytes :=
  match groups with
  | [] => []
  | group :: rest =>
      (if started then []
       else [B "--- " ++ fromfile ++ [nl]; B "+++ " ++ tofile ++ [nl]])
      ++ format_group a b group
      ++ format_groups a b fromfile tofile true rest
  end.

(** The byte strings the generator yields, in order; [n] is the number of
    context lines. *)
Definition unified_diff (a b : list bytes) (fromfile tofile : bytes)
    (n : nat) : list bytes :=
  format_groups a b fromfile tofile false
    (Difflib.get_grouped_opcodes bytes_eqb a b n).

Definition is_binary (content : bytes) : bool :=
  existsb (Ascii.eqb zero) (firstn FIRST_FEW_BYTES content).

(** A file as [write_object_diff] takes it: path, mode and hexsha, each
    [None] for a file that does not exist. *)
Definition file_entry : Type := option bytes * option N * option bytes.

Definition shortid (hexsha : option bytes) : bytes :=
  match hexsha with
  | None => repeat "0"%char 7
  | Some h => firstn 7 h
  end.

(** Modelled from the spec: the test for a submodule (gitlink) mode,
    [S_ISGITLINK] of [dulwich.objects], which is not among the sources:
    the file-type bits of the mode are [0o160000]. *)
Definition S_ISGITLINK (m : N) : bool :=
  (N.land m 61440 =? 57344)%N.

Definition mode_eqb (x y : option N) : bool :=
  match x, y with
  | None, None => true
  | Some m, Some m' => (m =? m')%N
  | _, _ => false
  end.

Definition display_path (prefix : bytes) (path : option bytes) : bytes :=
  match path with
  | None => B "/dev/null"
  | Some p => prefix ++ p
  end.

Section Store.

(** The object store: [store[hexsha].data], or [None] where the lookup
    raises [KeyError]. *)
Variable store : bytes -> option bytes.

Definition content (mode : option N) (hexsha : option bytes) : exn + bytes :=
  match hexsha with
  | None => inr []
  | Some h =>
      match mode with
      | None => inl TypeError
      | Some m =>
          if S_ISGITLINK m then inr (B "Submodule commit " ++ h ++ [nl])
          else match store h with
               | Some data => inr data
               | None => inl KeyError
               end
      end
  end.

Definition lines (content : bytes) : list bytes :=
  match content with
  | [] => []
  | _ => splitlines true content
  end.

Definition write_mode_lines (old_mode new_mode : option N) : writer unit :=
  (if mode_eqb old_mode new_mode then ret tt
   else
     match new_mode with
     | Some new =>
         match old_mode with
         | Some old => write (B "old mode " ++ fmt_o old ++ [nl])
         | None => ret tt
         end ;;
         write (B "new mode " ++ fmt_o new ++ [nl])
     | None =>
         match old_mode with
         | Some old => write (B "deleted mode " ++ fmt_o old ++ [nl])
         | None => lift (inl TypeError)
         end
     end)%writer.

Definition write_index_line (old_id new_id : option bytes)
    (new_mode : option N) : writer unit :=
  (write (B "index " ++ shortid old_id ++ B ".." ++ shortid new_id) ;;
   match new_mode with
   | Some new => write (B " " ++ fmt_o new)
   | None => ret tt
   end ;;
   write [nl])%writer.

Definition write_body (old_path new_path : bytes) (old_mode new_mode : option N)
    (old_id new_id : option bytes) (diff_binary : bool) : writer unit :=
  (old_content <- lift (content old_mode old_id) ;;
   new_content <- lift (content new_mode new_id) ;;
   if negb diff_binary && (is_binary old_content || is_binary new_content)
   then write (B "Binary files " ++ old_path ++ B " and " ++ new_path
               ++ B " differ" ++ [nl])
   else writelines (unified_diff (lines old_content) (lines new_content)
                      old_path new_path 3))%writer.

Definition write_object_diff (old_file new_file : file_entry)
    (diff_binary : bool) : writer unit :=
  (let '(old_path, old_mode, old_id) := old_file in
   let '(new_path, new_mode, new_id) := new_file in
   let old_path := display_path (B "a/") old_path in
   let new_path := display_path (B "b/") new_path in
   write (B "diff --git " ++ old_path ++ B " " ++ new_path ++ [nl]) ;;
   write_mode_lines old_mode new_mode ;;
   write_index_line old_id new_id new_mode ;;
   write_body old_path new_path old_mode new_mode old_id new_id
     diff_binary)%writer.

End Store.

(** A blob object, as [write_blob_diff] reads it. *)
Module Blob.

Record t := mk {
  id : bytes;
  data : bytes
}.

End Blob.

Definition blob_id (blob : option Blob.t) : bytes :=
  match blob with
  | None => repeat "0"%char 7
  | Some blob => firstn 7 (Blob.id blob)
  end.

(** The inner [lines] of [write_blob_diff]. *)
Definition blob_lines (blob : option Blob.t) : list bytes :=
  match blob with
  | Some blob => splitlines true (Blob.data blob)
  | None => []
  end.

Definition write_blob_diff
    (old_file new_file : option bytes * option N * option Blob.t)
    : writer unit :=
  (let '(old_path, old_mode, old_blob) := old_file in
   let '(new_path, new_mode, new_blob) := new_file in
   let old_path := display_path (B "a/") old_path in
   let new_path := display_path (B "b/") new_path in
   write (B "diff --git " ++ old_path ++ B " " ++ new_path ++ [nl]) ;;
   write_mode_lines old_mode new_mode ;;
   write (B "index " ++ blob_id old_blob ++ B ".." ++ blob_id new_blob) ;;
   match new_mode with
   | Some new => write (B " " ++ fmt_o new)
   | None => ret tt
   end ;;
   write [nl] ;;
   writelines (unified_diff (blob_lines old_blob) (blob_lines new_blob)
                 old_path new_path 3))%writer.

(** One change between two trees, as [store.tree_changes] yields it:
    the two paths, the two modes and the two hexshas. *)
Definition tree_change : Type :=
  (option bytes * option bytes) * (option N * option N)
  * (option bytes * option bytes).

Section TreeDiff.

Variable store : bytes -> option bytes.

(** [store.tree_changes(old_tree, new_tree)] *)
Variable tree_changes : bytes -> bytes -> list tree_change.

(** The loop of [write_tree_diff]. *)
Fixpoint write_changes (changes : list tree_change) (diff_binary : bool)
    : writer unit :=
  match changes with
  | [] => ret tt
  | ((oldpath, newpath), (oldmode, newmode), (oldsha, newsha)) :: rest =>
      (write_object_diff store (oldpath, oldmode, oldsha)
         (newpath, newmode, newsha) diff_binary ;;
       write_changes rest diff_binary)%writer
  end.

Definition write_tree_diff (old_tree new_tree : bytes) (diff_binary : bool)
    : writer unit :=
  write_changes (tree_changes old_tree new_tree) diff_binary.

End TreeDiff.

(** * email.parser *)

(** A parsed message, as far as [git_am_patch_split] looks at it: the
    header fields in order, and the payload that
    [msg.get_payload(decode=True)] returns. *)
Record Message := mkMessage {
  headers : list (bytes * bytes);
  payload : bytes
}.

Definition lower_char (c : ascii) : ascii :=
  let n := nat_of_ascii c in
  if (65 <=? n) && (n <=? 90) then ascii_of_nat (n + 32) else c.

Definition lower (s : bytes) : bytes := map lower_char s.

(** [msg[name]]: the first field of that name, whatever its case. *)
Definition get_header (msg : Message) (name : bytes) : option bytes :=
  match find (fun h => bytes_eqb (lower (fst h)) (lower name)) (headers msg) with
  | Some h => Some (snd h)
  | None => None
  end.

Definition is_ascii (c : ascii) : bool := nat_of_ascii c <? 128.

(** [s.encode('ascii')] *)
Definition encode_ascii (s : bytes) : exn + bytes :=
  if forallb is_ascii s then inr s else inl UnicodeEncodeError.

(** What [msg[name]] is for the code: a str when the value of the field
    is 7-bit, and a [Header] object when it has 8-bit bytes. *)
Inductive field :=
| Str (s : bytes)
| Header (raw : bytes).

Definition get_field (msg : Message) (name : bytes) : option field :=
  match get_header msg name with
  | Some v => Some (if forallb is_ascii v then Str v else Header v)
  | None => None
  end.

Module Email.

(** Modelled from the spec: the reading of an RFC-822-style message of
    section 4.6, which the source leaves to [email.parser.BytesParser] of
    the Python library.  The model covers single-part messages in 7-bit
    headers: the text is read with universal newlines, the header block
    ends at the first line that is no header line, the first line may be a
    [From ] envelope line, a header may continue on lines that start with a
    blank, and the rest is the payload.  [parse] gives [None] for what the
    model does not cover. *)
Fixpoint universal_newlines (s : bytes) : bytes :=
  match s with
  | [] => []
  | c :: s' =>
      if Ascii.eqb c cr then
        nl :: match s' with
              | d :: s'' =>
                  if Ascii.eqb d nl then universal_newlines s''
                  else universal_newlines s'
              | [] => []
              end
      else c :: universal_newlines s'
  end.

(** A character of a field name: printable, not a blank, not a colon. *)
Definition ftext (c : ascii) : bool :=
  let n := nat_of_ascii c in
  (33 <=? n) && (n <=? 126) && negb (n =? 58).

Fixpoint field_name_colon (l : bytes) : bool :=
  match l with
  | [] => false
  | c :: l' => Ascii.eqb c ":" || (ftext c && field_name_colon l')
  end.

Definition is_blank (c : ascii) : bool :=
  Ascii.eqb c " " || Ascii.eqb c "009".

Definition starts_blank (l : bytes) : bool :=
  match l with
  | c :: _ => is_blank c
  | [] => false
  end.

(** A line that belongs to the header block. *)
Definition is_header_line (l : bytes) : bool :=
  startswith (B "From ") l || field_name_colon l || starts_blank l.

Fixpoint span_headers (ls : list bytes) : list bytes * list bytes :=
  match ls with
  | [] => ([], [])
  | l :: ls' =>
      if is_header_line l
      then let '(hs, rest) := span_headers ls' in (l :: hs, rest)
      else ([], if bytes_eqb l [nl] then ls' else ls)
  end.

Fixpoint lstrip_blank (s : bytes) : bytes :=
  match s with
  | c :: s' => if is_blank c then lstrip_blank s' else s
  | [] => []
  end.

(** [line.split(':', 1)] *)
Fixpoint split_colon (l : bytes) : bytes * bytes :=
  match l with
  | [] => ([], [])
  | c :: l' =>
      if Ascii.eqb c ":" then ([], l')
      else let '(name, value) := split_colon l' in (c :: name, value)
  end.

(** The name and value of a field given by its source lines. *)
Definition header_source_parse (sourcelines : list bytes) : bytes * bytes :=
  match sourcelines with
  | [] => ([], [])
  | first :: more =>
      let '(name, value) := split_colon first in
      (name,
       rstrip_by (fun c => Ascii.eqb c cr || Ascii.eqb c nl)
         (lstrip_blank value ++ concat more))
  end.

Definition flush (lastvalue : list bytes) (acc : list (bytes * bytes))
    : list (bytes * bytes) :=
  match lastvalue with
  | [] => acc
  | _ => acc ++ [header_source_parse lastvalue]
  end.

(** The fields of a header block, and the line pushed back to the body
    when the block ends in something that looks like an envelope line. *)
Fixpoint parse_headers (lineno : nat) (ls : list bytes)
    (lastvalue : list bytes) (acc : list (bytes * bytes))
    : list (bytes * bytes) * list bytes :=
  match ls with
  | [] => (flush lastvalue acc, [])
  | line :: ls' =>
      if starts_blank line then
        match lastvalue with
        | [] => parse_headers (S lineno) ls' [] acc
        | _ => parse_headers (S lineno) ls' (lastvalue ++ [line]) acc
        end
      else
        let acc := flush lastvalue acc in
        if startswith (B "From ") line then
          if lineno =? 0 then parse_headers (S lineno) ls' [] acc
          else match ls' with
               | [] => (acc, [line])
               | _ => parse_headers (S lineno) ls' [] acc
               end
        else if startswith (B ":") line then parse_headers (S lineno) ls' [] acc
        else parse_headers (S lineno) ls' [line] acc
  end.

Definition mime_header (h : bytes * bytes) : bool :=
  bytes_eqb (lower (fst h)) (B "content-type")
  || bytes_eqb (lower (fst h)) (B "content-transfer-encoding").

(** Modelled from the spec: [email.parser.BytesParser().parse(f)] on the
    messages described above. *)
Definition parse (f : bytes) : option Message :=
  let '(hs, body) := span_headers (readlines (universal_newlines f)) in
  let '(fields, pushed) := parse_headers 0 hs [] [] in
  if forallb is_ascii (concat hs) && negb (existsb mime_header fields)
  then Some (mkMessage fields (concat (pushed ++ body)))
  else None.

End Email.

(** * Reading a patch mail *)

(** Lines 260-266: the subject without its [[PATCH ...]] tag. *)
Definition strip_patch_tag (subject : bytes) : exn + bytes :=
  match index (B "[PATCH") subject 0 with
  | None => inr subject
  | Some patch_tag_start =>
      match index (B "] ") subject patch_tag_start with
      | None => inl ValueError
      | Some close => inr (skipn (close + 2) subject)
      end
  end.

(** Lines 260-267: the commit message the subject gives. *)
Definition subject_message (subject : bytes) : exn + bytes :=
  bind_exn (strip_patch_tag subject) (fun subject =>
  bind_exn (encode_ascii subject) (fun s =>
  inr (replace1 nl [] s ++ [nl]))).

(** The first loop over the body; it returns the commit and the lines the
    iterator has left. *)
Fixpoint scan_message (body : list bytes) (first : bool) (c : Commit)
    : Commit * list bytes :=
  match body with
  | [] => (c, [])
  | l :: body' =>
      if bytes_eqb l (B "---" ++ [nl]) then (c, body')
      else if first then
        if startswith (B "From: ") l
        then scan_message body' false
               (mkCommit (rstrip (skipn (length (B "From: ")) l))
                  (committer c) (message c))
        else scan_message body' false
               (mkCommit (author c) (committer c) (message c ++ [nl] ++ l))
      else scan_message body' false
             (mkCommit (author c) (committer c) (message c ++ l))
  end.

(** The second loop, on the same iterator. *)
Fixpoint scan_diff (body : list bytes) (diff : bytes) : bytes * list bytes :=
  match body with
  | [] => (diff, [])
  | l :: body' =>
      if bytes_eqb l (B "-- " ++ [nl]) then (diff, body')
      else scan_diff body' (diff ++ l)
  end.

(** Lines 257-292 of [git_am_patch_split], on the parsed message.  A
    missing field is [None], which has no [encode] and no [index]; a
    [Header] object has no [index] either, and its [encode] takes
    ['ascii'] for its [splitchars] and returns a str without raising: the
    commit then has a str for author and committer, which a [Commit] of
    this model cannot hold, and the result is [None]. *)
Definition split_message (msg : Message)
    : option (exn + (Commit * bytes * option bytes)) :=
  match get_field msg (B "from") with
  | None => Some (inl AttributeError)
  | Some from =>
      let author :=
        match from with
        | Str s => Some s
        | Header _ => None
        end in
      match get_field msg (B "subject") with
      | None => Some (inl AttributeError)
      | Some (Header _) => Some (inl AttributeError)
      | Some (Str subject) =>
          match subject_message subject with
          | inl e => Some (inl e)
          | inr message =>
              match author with
              | None => None
              | Some author =>
                  let c := mkCommit author author message in
                  let '(c, body) :=
                    scan_message (readlines (payload msg)) true c in
                  let '(diff, body) := scan_diff body [] in
                  let version :=
                    match body with
                    | [] => None
                    | l :: _ => Some (rstrip_nl l)
                    end in
                  Some (inr (c, diff, version))
              end
          end
      end
  end.

(** [None] where the message is outside what [Email.parse] and
    [split_message] model. *)
Definition git_am_patch_split (f : bytes)
    : option (exn + (Commit * bytes * option bytes)) :=
  match Email.parse f with
  | Some msg => split_message msg
  | None => None
  end.

(** * Vocabulary of the statements *)

(** [sub] occurs in [s] at position [i]. *)
Definition occurs_at (sub s : bytes) (i : nat) : Prop :=
  i + length sub <= length s /\ firstn (length sub) (skipn i s) = sub.

(** [i] is the first position at or after [start] where [sub] occurs. *)
Definition first_at (sub s : bytes) (start i : nat) : Prop :=
  start <= i /\ occurs_at sub s i
  /\ forall i', start <= i' -> i' < i -> ~ occurs_at sub s i'.

Definition no_newline (s : bytes) : bool :=
  forallb (fun c => negb (Ascii.eqb c nl)) s.

(** Text that fits in a header line: ASCII, with no line end. *)
Definition header_text (s : bytes) : bool :=
  forallb (fun c => is_ascii c && negb (Ascii.eqb c nl)
                    && negb (Ascii.eqb c cr)) s.

(** A line with its terminator: one LF, at the end. *)
Definition full_line (l : bytes) : bool :=
  ends_with_newline l && no_newline (removelast l).

(** A sequence of lines as section 3 of the specification has it: every
    line ends with its only LF, except that the last one may have none. *)
Fixpoint line_sequence (ls : list bytes) : bool :=
  match ls with
  | [] => true
  | [l] => no_newline (removelast l)
  | l :: ls' => full_line l && line_sequence ls'
  end.

(** The number that a string of octal digits stands for. *)
Definition oct_value (s : bytes) : N :=
  fold_left (fun acc c => (8 * acc + (N_of_ascii c - 48))%N) s 0%N.

Definition is_oct_digit (c : ascii) : bool :=
  ((48 <=? N_of_ascii c) && (N_of_ascii c <=? 55))%N.

(** [s] is the octal numeral of [m]: octal digits, at least one, with no
    leading zero, that stand for [m]. *)
Definition octal_numeral (s : bytes) (m : N) : Prop :=
  forallb is_oct_digit s = true /\ oct_value s = m
  /\ match s with
     | [] => False
     | d :: rest => d = "0"%char -> rest = []
     end.

(** * A reference for applying a unified diff *)

(** The reference reads a unified diff as [diff] and [patch] have it.
    The text is made of lines, each with its newline; a line followed by
    the marker [\ No newline at end of file] stands for the line without
    its newline.  A hunk header gives, for the old and for the new file,
    the number of the first line of the range, or of the line before it
    when the range is empty, and the number of lines of the range, and
    the hunk has that many lines of each file. *)
Module PatchApply.

Definition parse_nat (s : bytes) : option nat :=
  match s with
  | [] => None
  | _ =>
      option_map Nat.of_uint
        (NilEmpty.uint_of_string (string_of_list_ascii s))
  end.

(** [s] cut at the first [c]. *)
Fixpoint split_at (c : ascii) (s : bytes) : option (bytes * bytes) :=
  match s with
  | [] => None
  | d :: s' =>
      if Ascii.eqb d c then Some ([], s')
      else match split_at c s' with
           | Some (x, y) => Some (d :: x, y)
           | None => None
           end
  end.

(** The four numbers of [@@ -s1,c1 +s2,c2 @@]. *)
Definition parse_hunk_header (l : bytes) : option (nat * nat * nat * nat) :=
  if startswith (B "@@ -") l then
    match split_at "," (skipn 4 l) with
    | Some (s1, r1) =>
        match split_at " " r1 with
        | Some (c1, "+"%char :: r2) =>
            match split_at "," r2 with
            | Some (s2, r3) =>
                match split_at " " r3 with
                | Some (c2, r4) =>
                    if bytes_eqb r4 (B "@@" ++ [nl]) then
                      match parse_nat s1, parse_nat c1,
                            parse_nat s2, parse_nat c2 with
                      | Some n1, Some m1, Some n2, Some m2 =>
                          Some (n1, m1, n2, m2)
                      | _, _, _, _ => None
                      end
                    else None
                | None => None
                end
            | None => None
            end
        | _ => None
        end
    | None => None
    end
  else None.

(** The lines of a patch text; a text whose last line has no newline is
    refused. *)
Definition text_lines (patch : bytes) : option (list bytes) :=
  if forallb ends_with_newline (readlines patch)
  then Some (readlines patch) else None.

Definition is_marker (l : bytes) : bool := startswith (B "\") l.

Definition chomp (l : bytes) : bytes :=
  if ends_with_newline l then removelast l else l.

(** A line followed by a [\ No newline at end of file] line stands for
    the line without its LF. *)
Fixpoint join_markers (ls : list bytes) : list bytes :=
  match ls with
  | [] => []
  | l :: rest =>
      match rest with
      | m :: rest' =>
          if is_marker m then chomp l :: join_markers rest'
          else l :: join_markers rest
      | [] => [l]
      end
  end.

(** Where a range of [c] lines that the header gives as [s] begins,
    counted from [0]: [s] is the number of the first line of the range,
    and for an empty range the number of the line before it. *)
Definition range_start (s c : nat) : option nat :=
  match c with
  | O => Some s
  | S _ =>
      match s with
      | O => None
      | S s' => Some s'
      end
  end.

(** The hunks, line by line: [pos] lines of the old file are consumed,
    [old] is what is left of it and [new] what is built of the new file;
    [c1] and [c2] are the numbers of lines of the old and of the new file
    that the current hunk still has to give.  A hunk header is read when
    the hunk before it is complete, and it copies the unchanged lines
    before the hunk; a context line and a deleted line must be the next
    old line; the ranges of the header must agree with the position
    reached in both files. *)
Fixpoint apply_hunks (ls : list bytes) (pos : nat) (old new : list bytes)
    (c1 c2 : nat) : option (list bytes) :=
  match ls with
  | [] => if (c1 =? 0) && (c2 =? 0) then Some (new ++ old) else None
  | l :: ls' =>
      match l with
      | [] => None
      | t :: text =>
          if Ascii.eqb t "@" then
            if (c1 =? 0) && (c2 =? 0) then
              match parse_hunk_header l with
              | Some (s1, n1, s2, n2) =>
                  match range_start s1 n1, range_start s2 n2 with
                  | Some p1, Some p2 =>
                      let skip := p1 - pos in
                      if (pos <=? p1) && (skip <=? length old)
                         && (length new + skip =? p2)
                      then apply_hunks ls' p1 (skipn skip old)
                             (new ++ firstn skip old) n1 n2
                      else None
                  | _, _ => None
                  end
              | None => None
              end
            else None
          else if Ascii.eqb t " " then
            match old, c1, c2 with
            | x :: old', S c1', S c2' =>
                if bytes_eqb x text
                then apply_hunks ls' (S pos) old' (new ++ [x]) c1' c2'
                else None
            | _, _, _ => None
            end
          else if Ascii.eqb t "-" then
            match old, c1 with
            | x :: old', S c1' =>
                if bytes_eqb x text then apply_hunks ls' (S pos) old' new c1' c2
                else None
            | _, _ => None
            end
          else if Ascii.eqb t "+" then
            match c2 with
            | S c2' => apply_hunks ls' pos old (new ++ [text]) c1 c2'
            | O => None
            end
          else None
      end
  end.

(** Applying the patch text [patch] to the lines [a]. *)
Definition apply_patch (a : list bytes) (patch : bytes)
    : option (list bytes) :=
  match text_lines patch with
  | None => None
  | Some ls =>
      match join_markers ls with
      | [] => Some a
      | h1 :: h2 :: hunks =>
          if startswith (B "--- ") h1 && startswith (B "+++ ") h2
          then apply_hunks hunks 0 a [] 0 0
          else None
      | _ => None
      end
  end.

End PatchApply.

(** * What the matcher guarantees *)

Module DiffSpec.

Import Difflib.

Section Spec.

Context {A : Type}.
Variables a b : list A.

(** [a[i:i+k] == b[j:j+k]], both inside their lists. *)
Definition same (i j k : nat) : Prop :=
  i + k <= length a /\ j + k <= length b
  /\ firstn k (skipn i a) = firstn k (skipn j b).

(** Matching blocks in increasing order between [(i0, j0)] and
    [(ihi, jhi)]. *)
Fixpoint blocks_ok (i0 j0 ihi jhi : nat) (blocks : list match_t) : Prop :=
  match blocks with
  | [] => True
  | (i, j, k) :: rest =>
      i0 <= i /\ j0 <= j /\ i + k <= ihi /\ j + k <= jhi /\ same i j k
      /\ blocks_ok (i + k) (j + k) ihi jhi rest
  end.

(** An opcode means what its tag says. *)
Definition op_ok (op : opcode) : Prop :=
  let '(t, i1, i2, j1, j2) := op in
  i1 <= i2 /\ i2 <= length a /\ j1 <= j2 /\ j2 <= length b
  /\ match t with
     | equal => i2 - i1 = j2 - j1 /\ same i1 j1 (i2 - i1)
     | delete => j1 = j2
     | insert => i1 = i2
     | replace => True
     end.

(** Opcodes that follow each other from [(i, j)] to [(i', j')]. *)
Fixpoint chain (i j : nat) (ops : list opcode) (i' j' : nat) : Prop :=
  match ops with
  | [] => i = i' /\ j = j'
  | (t, i1, i2, j1, j2) :: rest =>
      i1 = i /\ j1 = j /\ op_ok (t, i1, i2, j1, j2)
      /\ chain i2 j2 rest i' j'
  end.

(** Groups from [(i, j)] on: what lies before a group, between two
    groups and after the last one is the same in [a] and in [b], and two
    groups never touch. *)
Fixpoint groups_ok (strict : bool) (i j : nat) (groups : list (list opcode))
    : Prop :=
  match groups with
  | [] => i <= length a /\ j <= length b /\ skipn i a = skipn j b
  | g :: gs =>
      exists i1 i2 j1 j2 : nat,
        g <> [] /\ i <= i1 /\ (strict = true -> i < i1)
        /\ j1 = j + (i1 - i) /\ same i j (i1 - i)
        /\ chain i1 j1 g i2 j2 /\ groups_ok true i2 j2 gs
  end.

End Spec.

End DiffSpec.

(** * The lines of a diff *)

Module PatchLines.

(** The lines of an opcode as a reader of the diff takes them, the tag
    and the line itself, with no marker. *)
Definition plain_opcode (a b : list bytes) (op : Difflib.opcode)
    : list bytes :=
  let '(tag, i1, i2, j1, j2) := op in
  match tag with
  | Difflib.equal => map (fun line => B " " ++ line) (slice a i1 i2)
  | _ =>
      (match tag with
       | Difflib.replace | Difflib.delete =>
           map (fun line => B "-" ++ line) (slice a i1 i2)
       | _ => []
       end)
      ++
      (match tag with
       | Difflib.replace | Difflib.insert =>
           map (fun line => B "+" ++ line) (slice b j1 j2)
       | _ => []
       end)
  end.

Definition plain_group (a b : list bytes) (group : list Difflib.opcode)
    : list bytes :=
  hunk_header group :: flat_map (plain_opcode a b) group.

Definition nl_free (s : bytes) : Prop := ~ In nl s.

(** A line of a diff starts with its tag, never with a backslash. *)
Definition first_ok (s : bytes) : Prop :=
  match s with
  | c :: _ => c <> "\"%char
  | [] => False
  end.

(** [complete c e]: the yielded byte string [c] ends in a newline and
    reads as the line [e]. *)
Inductive complete : bytes -> bytes -> Prop :=
| complete_line (s : bytes) :
    nl_free s -> first_ok s -> complete (s ++ [nl]) (s ++ [nl])
| complete_marked (s : bytes) :
    nl_free s -> first_ok s -> complete (s ++ no_newline_marker) s.

End PatchLines.

(** * Vocabulary of the further properties *)

(** A yielded byte string that stands for a line of the old file: a
    context line or a deleted line. *)
Definition old_side (c : bytes) : bool :=
  match c with
  | t :: _ => Ascii.eqb t " " || Ascii.eqb t "-"
  | [] => false
  end.

(** A line of the new file: a context line or an inserted line. *)
Definition new_side (c : bytes) : bool :=
  match c with
  | t :: _ => Ascii.eqb t " " || Ascii.eqb t "+"
  | [] => false
  end.

(** What [write_object_diff] and [write_blob_diff] write before the body:
    the [diff --git] line, the mode lines and the index line. *)
Definition diff_header (old_path new_path : option bytes)
    (old_mode new_mode : option N) (old_id new_id : option bytes)
    : list bytes :=
  (B "diff --git " ++ display_path (B "a/") old_path ++ B " "
     ++ display_path (B "b/") new_path ++ [nl])
  :: fst (write_mode_lines old_mode new_mode)
  ++ fst (write_index_line old_id new_id new_mode).

(** Text with no line end and no NUL byte, as a hexsha is. *)
Definition plain_text (s : bytes) : bool :=
  forallb (fun c => negb (Ascii.eqb c nl) && negb (Ascii.eqb c cr)
                    && negb (Ascii.eqb c zero)) s.

(** A path that fits in a header line of the diff. *)
Definition path_ok (path : option bytes) : bool :=
  match path with
  | Some p => no_newline p
  | None => true
  end.

(** The body of the loop of [write_tree_diff] for one change. *)
Definition change_diff (store : bytes -> option bytes) (diff_binary : bool)
    (change : tree_change) : writer unit :=
  let '((oldpath, newpath), (oldmode, newmode), (oldsha, newsha)) := change in
  write_object_diff store (oldpath, oldmode, oldsha)
    (newpath, newmode, newsha) diff_binary.

(** The blob [blob] is what [store] holds under its id, and [mode] is the
    mode of a file, not of a submodule; or there is no blob. *)
Definition blob_in (store : bytes -> option bytes) (mode : option N)
    (blob : option Blob.t) : Prop :=
  match blob with
  | None => True
  | Some blob =>
      store (Blob.id blob) = Some (Blob.data blob)
      /\ exists m, mode = Some m /\ S_ISGITLINK m = false
  end.

(** The last line that [write_commit_patch] writes, without its
    newline. *)
Definition version_text (dulwich_version : nat * nat * nat)
    (version : option bytes) : bytes :=
  match version with
  | Some v => v
  | None =>
      let '(major, minor, micro) := dulwich_version in
      B "Dulwich " ++ fmt_d major ++ B "." ++ fmt_d minor ++ B "."
      ++ fmt_d micro
  end.

(** An opcode [equal] spans at least one line. *)
Definition equal_pos (op : Difflib.opcode) : Prop :=
  let '(t, i1, i2, _, _) := op in t = Difflib.equal -> i1 < i2.

(** An opcode that gives a context line. *)
Definition context_op (op : Difflib.opcode) : Prop :=
  let '(t, i1, i2, _, _) := op in t = Difflib.equal /\ i1 < i2.

(** The hunk of the group has a line of the old file and a line of the
    new one. *)
Definition nonempty_range (g : list Difflib.opcode) : Prop :=
  let '(i1, i2, j1, j2) := group_range g in i1 < i2 /\ j1 < j2.

(** [s] is a decimal numeral of [n]. *)
Definition decimal_numeral (s : bytes) (n : nat) : Prop :=
  PatchApply.parse_nat s = Some n.

(** A line as a diff shows it after its tag: as it is when it ends with
    a newline, and otherwise followed by a newline and the marker
    line. *)
Definition shown (line : bytes) : bytes :=
  let marked := line ++ [nl] ++ B "\ No newline at end of file" ++ [nl] in
  match rev line with
  | c :: _ => if Ascii.eqb c nl then line else marked
  | [] => marked
  end.

(** [v] is [l] without the bytes of [p] at its end. *)
Definition stripped (p : ascii -> bool) (l v : bytes) : Prop :=
  exists t : bytes,
    l = v ++ t /\ forallb p t = true
    /\ match rev v with
       | c :: _ => p c = false
       | [] => True
       end.

(** The content that an entry of [write_object_diff] stands for: none for
    an absent id, the [Submodule commit] line for a submodule, and what
    the store holds for a file. *)
Inductive resolves (store : bytes -> option bytes)
    : option N -> option bytes -> bytes -> Prop :=
| resolves_absent (mode : option N) : resolves store mode None []
| resolves_submodule (m : N) (h : bytes) :
    S_ISGITLINK m = true ->
    resolves store (Some m) (Some h) (B "Submodule commit " ++ h ++ [nl])
| resolves_file (m : N) (h data : bytes) :
    S_ISGITLINK m = false -> store h = Some data ->
    resolves store (Some m) (Some h) data.

(** * Properties *)

(** ** Byte strings *)

Lemma ascii_eqb_false (c d : ascii) : c <> d -> Ascii.eqb c d = false.
Proof. intros H. apply Ascii.eqb_neq. exact H. Qed.

Lemma bytes_eqb_eq (x y : bytes) : bytes_eqb x y = true <-> x = y.
Proof.
  revert y; induction x as [|c x IH]; intros [|d y]; simpl; split;
    try congruence; try discriminate.
  - intros H. apply andb_true_iff in H. destruct H as [H1 H2].
    apply Ascii.eqb_eq in H1. apply IH in H2. congruence.
  - intros H. injection H as -> ->. rewrite Ascii.eqb_refl. simpl.
    apply IH. reflexivity.
Qed.

Lemma bytes_eqb_refl (x : bytes) : bytes_eqb x x = true.
Proof. apply bytes_eqb_eq. reflexivity. Qed.

Lemma bytes_eqb_neq (x y : bytes) : bytes_eqb x y = false <-> x <> y.
Proof.
  split.
  - intros H E. apply bytes_eqb_eq in E. congruence.
  - intros H. destruct (bytes_eqb x y) eqn:E; [|reflexivity].
    apply bytes_eqb_eq in E. contradiction.
Qed.

Lemma startswith_app (p s : bytes) : startswith p (p ++ s) = true.
Proof.
  induction p as [|c p IH]; simpl; [reflexivity|].
  rewrite Ascii.eqb_refl. exact IH.
Qed.

Lemma startswith_iff (p s : bytes) :
  startswith p s = true <-> exists r, s = p ++ r.
Proof.
  revert s; induction p as [|c p IH]; intros s; simpl.
  - split; [intros _; exists s; reflexivity | reflexivity].
  - destruct s as [|d s].
    + split; [discriminate | intros [r H]; discriminate].
    + rewrite andb_true_iff, Ascii.eqb_eq, IH. split.
      * intros [-> [r ->]]. exists r. reflexivity.
      * intros [r H]. injection H as -> ->. split; [reflexivity|].
        exists r. reflexivity.
Qed.

Lemma startswith_firstn (p s : bytes) :
  startswith p s = true <->
  (length p <= length s /\ firstn (length p) s = p).
Proof.
  rewrite startswith_iff. split.
  - intros [r ->]. rewrite length_app. split; [lia|].
    rewrite firstn_app, Nat.sub_diag, firstn_all. simpl.
    apply app_nil_r.
  - intros [_ H]. exists (skipn (length p) s).
    rewrite <- H at 1. symmetry. apply firstn_skipn.
Qed.

(** ** The file object *)

Lemma fst_bind {A R : Type} (m : writer A) (k : A -> writer R) :
  fst (bind m k) =
  fst m ++ match snd m with
           | inl _ => []
           | inr x => fst (k x)
           end.
Proof.
  destruct m as [w [e|x]]; simpl.
  - symmetry. apply app_nil_r.
  - destruct (k x) as [w' r]. reflexivity.
Qed.

Lemma snd_bind {A R : Type} (m : writer A) (k : A -> writer R) :
  snd (bind m k) =
  match snd m with
  | inl e => inl e
  | inr x => snd (k x)
  end.
Proof.
  destruct m as [w [e|x]]; simpl; [reflexivity|].
  destruct (k x) as [w' r]. reflexivity.
Qed.

Lemma write_mode_lines_returns (old_mode new_mode : option N) :
  snd (write_mode_lines old_mode new_mode) = inr tt.
Proof.
  unfold write_mode_lines.
  destruct old_mode as [old|], new_mode as [new|]; simpl;
    try destruct (old =? new)%N; reflexivity.
Qed.

Lemma write_index_line_returns (old_id new_id : option bytes)
    (new_mode : option N) :
  snd (write_index_line old_id new_id new_mode) = inr tt.
Proof. destruct new_mode; reflexivity. Qed.

(** The four parts of what [write_object_diff] writes. *)
Lemma write_object_diff_parts (store : bytes -> option bytes)
    (old_path : option bytes) (old_mode : option N) (old_id : option bytes)
    (new_path : option bytes) (new_mode : option N) (new_id : option bytes)
    (diff_binary : bool) :
  fst (write_object_diff store (old_path, old_mode, old_id)
         (new_path, new_mode, new_id) diff_binary) =
  (B "diff --git " ++ display_path (B "a/") old_path ++ B " "
     ++ display_path (B "b/") new_path ++ [nl])
  :: fst (write_mode_lines old_mode new_mode)
  ++ fst (write_index_line old_id new_id new_mode)
  ++ fst (write_body store (display_path (B "a/") old_path)
            (display_path (B "b/") new_path) old_mode new_mode
            old_id new_id diff_binary).
Proof.
  unfold write_object_diff.
  rewrite fst_bind. cbn [write fst snd app].
  rewrite fst_bind, write_mode_lines_returns.
  rewrite fst_bind, write_index_line_returns.
  reflexivity.
Qed.

(** ** Modes in octal *)

Lemma oct_digit_value (n : N) :
  (N_of_ascii (oct_digit n) - 48 = n mod 8)%N
  /\ is_oct_digit (oct_digit n) = true.
Proof.
  unfold oct_digit, is_oct_digit.
  assert (H : (n mod 8 < 8)%N) by (apply N.mod_lt; discriminate).
  generalize dependent (n mod 8)%N. intros k H.
  rewrite N_ascii_embedding by lia. split; [lia|].
  apply andb_true_intro. split; apply N.leb_le; lia.
Qed.

Lemma oct_digits_value (fuel : nat) :
  forall (n : N) (acc : bytes),
    (n < 8 ^ N.of_nat fuel)%N ->
    exists ds,
      oct_digits fuel n acc = ds ++ acc
      /\ forallb is_oct_digit ds = true
      /\ (0 < n -> exists d ds', ds = d :: ds' /\ d <> "0"%char)%N
      /\ forall v,
           fold_left (fun a c => (8 * a + (N_of_ascii c - 48))%N) ds v
           = (v * 8 ^ N.of_nat (length ds) + n)%N.
Proof.
  induction fuel as [|f IH]; intros n acc Hn.
  - exists []. cbn [oct_digits app forallb fold_left length].
    change (N.of_nat 0) with 0%N in *. rewrite N.pow_0_r in *.
    repeat split; [lia | intros v; lia].
  - cbn [oct_digits].
    destruct (oct_digit_value n) as [Dv Dd].
    destruct (n / 8 =? 0)%N eqn:E.
    + apply N.eqb_eq in E.
      assert (Hs : (n < 8)%N) by (apply N.div_small_iff in E; [exact E | discriminate]).
      exists [oct_digit n]. cbn [app forallb fold_left length].
      rewrite Dd, Dv, N.mod_small by exact Hs.
      repeat split.
      * intros Hp. exists (oct_digit n), []. split; [reflexivity|].
        intros Hz. unfold oct_digit in Hz.
        apply (f_equal N_of_ascii) in Hz.
        rewrite N.mod_small in Hz by exact Hs.
        rewrite N_ascii_embedding in Hz by lia.
        change (N_of_ascii "0") with 48%N in Hz. lia.
      * intros v. change (N.of_nat 1) with 1%N. rewrite N.pow_1_r. lia.
    + apply N.eqb_neq in E.
      assert (Hq : (n / 8 < 8 ^ N.of_nat f)%N).
      { apply N.Div0.div_lt_upper_bound.
        rewrite Nat2N.inj_succ, N.pow_succ_r' in Hn. exact Hn. }
      destruct (IH (n / 8)%N (oct_digit n :: acc) Hq)
        as [ds [E1 [E2 [E3 E4]]]].
      exists (ds ++ [oct_digit n]). rewrite <- app_assoc. cbn [app].
      split; [exact E1|]. split; [|split].
      * rewrite forallb_app, E2. cbn [forallb]. rewrite Dd. reflexivity.
      * intros _. destruct E3 as [d [ds' [-> Hd]]];
          [apply N.neq_0_lt_0; exact E|].
        exists d, (ds' ++ [oct_digit n]). split; [reflexivity | exact Hd].
      * intros v. rewrite fold_left_app, E4. cbn [fold_left].
        rewrite Dv, length_app. cbn [length].
        rewrite Nat2N.inj_add. change (N.of_nat 1) with 1%N.
        rewrite N.pow_add_r, N.pow_1_r.
        pose proof (N.div_mod n 8 ltac:(discriminate)) as Hd.
        rewrite Hd at 3.
        generalize (n / 8)%N (n mod 8)%N (8 ^ N.of_nat (length ds))%N.
        intros q r p. lia.
Qed.

Lemma fmt_o_numeral (n : N) : octal_numeral (fmt_o n) n.
Proof.
  unfold fmt_o, octal_numeral, oct_value.
  assert (Hn : (n < 8 ^ N.of_nat (S (N.to_nat (N.log2 n))))%N).
  { rewrite Nat2N.inj_succ, N2Nat.id.
    destruct (N.eq_dec n 0) as [-> | Hz]; [reflexivity|].
    assert (Hp : (0 < n)%N) by lia.
    destruct (N.log2_spec n Hp) as [_ H].
    apply (N.lt_le_trans _ _ _ H).
    apply N.pow_le_mono_l. lia. }
  destruct (oct_digits_value _ n [] Hn) as [ds [E1 [E2 [E3 E4]]]].
  destruct (N.eq_dec n 0) as [-> | Hz]; [repeat split; discriminate|].
  rewrite E1, app_nil_r. split; [exact E2|]. split; [rewrite E4; lia|].
  destruct E3 as [d [ds' [-> Hd]]]; [lia|].
  intros H. contradiction.
Qed.

(** C7: the mode lines written between the [diff --git] line and the
    index line: [old mode] then [new mode] when both modes are present and
    differ, [new mode] alone when there was no old mode, [deleted mode]
    when there is no new mode, and nothing when the modes are equal; a
    mode is shown as its octal numeral. *)
Theorem write_object_diff_mode_lines (store : bytes -> option bytes)
    (old_path : option bytes) (old_mode : option N) (old_id : option bytes)
    (new_path : option bytes) (new_mode : option N) (new_id : option bytes)
    (diff_binary : bool) :
  exists mode_lines : list bytes,
    fst (write_object_diff store (old_path, old_mode, old_id)
           (new_path, new_mode, new_id) diff_binary) =
    (B "diff --git " ++ display_path (B "a/") old_path ++ B " "
       ++ display_path (B "b/") new_path ++ [nl])
    :: mode_lines
    ++ fst (write_index_line old_id new_id new_mode)
    ++ fst (write_body store (display_path (B "a/") old_path)
              (display_path (B "b/") new_path) old_mode new_mode
              old_id new_id diff_binary)
    /\ match old_mode, new_mode with
       | Some old, Some new =>
           if (old =? new)%N then mode_lines = []
           else exists o n : bytes,
                  octal_numeral o old /\ octal_numeral n new
                  /\ mode_lines = [B "old mode " ++ o ++ [nl];
                                   B "new mode " ++ n ++ [nl]]
       | None, Some new =>
           exists n : bytes,
             octal_numeral n new
             /\ mode_lines = [B "new mode " ++ n ++ [nl]]
       | Some old, None =>
           exists o : bytes,
             octal_numeral o old
             /\ mode_lines = [B "deleted mode " ++ o ++ [nl]]
       | None, None => mode_lines = []
       end.
Proof.
  exists (fst (write_mode_lines old_mode new_mode)).
  split; [apply write_object_diff_parts|].
  unfold write_mode_lines.
  destruct old_mode as [old|], new_mode as [new|]; cbn [mode_eqb];
    try destruct (old =? new)%N; try reflexivity.
  - exists (fmt_o old), (fmt_o new).
    split; [apply fmt_o_numeral|]. split; [apply fmt_o_numeral|].
    reflexivity.
  - exists (fmt_o old). split; [apply fmt_o_numeral | reflexivity].
  - exists (fmt_o new). split; [apply fmt_o_numeral | reflexivity].
Qed.

(** C8: after the mode lines comes the index line, [index], the two
    short ids separated by [..], the octal numeral of the new mode after a
    blank if there is a new mode, and a newline; a short id is the first
    seven bytes of the id, or seven zeros when there is no id. *)
Theorem write_object_diff_index_line (store : bytes -> option bytes)
    (old_path : option bytes) (old_mode : option N) (old_id : option bytes)
    (new_path : option bytes) (new_mode : option N) (new_id : option bytes)
    (diff_binary : bool) :
  fst (write_object_diff store (old_path, old_mode, old_id)
         (new_path, new_mode, new_id) diff_binary) =
  (B "diff --git " ++ display_path (B "a/") old_path ++ B " "
     ++ display_path (B "b/") new_path ++ [nl])
  :: fst (write_mode_lines old_mode new_mode)
  ++ fst (write_index_line old_id new_id new_mode)
  ++ fst (write_body store (display_path (B "a/") old_path)
            (display_path (B "b/") new_path) old_mode new_mode
            old_id new_id diff_binary)
  /\ exists suffix : bytes,
       concat (fst (write_index_line old_id new_id new_mode)) =
       B "index "
       ++ match old_id with Some h => firstn 7 h | None => B "0000000" end
       ++ B ".."
       ++ match new_id with Some h => firstn 7 h | None => B "0000000" end
       ++ suffix ++ [nl]
       /\ match new_mode with
          | Some m => exists o : bytes, octal_numeral o m /\ suffix = B " " ++ o
          | None => suffix = []
          end.
Proof.
  split; [apply write_object_diff_parts|].
  exists (match new_mode with Some m => B " " ++ fmt_o m | None => [] end).
  split.
  - unfold write_index_line, shortid.
    destruct old_id, new_id, new_mode; cbn [fst bind write ret concat app];
      rewrite ?app_nil_r, <- ?app_assoc; reflexivity.
  - destruct new_mode as [m|]; [|reflexivity].
    exists (fmt_o m). split; [apply fmt_o_numeral | reflexivity].
Qed.

(** ** [get_summary] *)

Lemma splitlines_first_line (line rest : bytes) :
  Forall (fun ch => ch <> nl /\ ch <> cr) line ->
  match rest with
  | [] => line <> []
  | ch :: _ => ch = nl \/ ch = cr
  end ->
  exists more, splitlines false (line ++ rest) = line :: more.
Proof.
  induction line as [|c line IH]; intros Hl Hr.
  - destruct rest as [|ch rest]; [congruence|]. simpl.
    destruct Hr as [-> | ->].
    + eexists; reflexivity.
    + cbn. destruct rest as [|d rest]; [eexists; reflexivity|].
      destruct (Ascii.eqb d nl); eexists; reflexivity.
  - inversion Hl as [|? ? [Hc1 Hc2] Hl']; subst.
    cbn [app splitlines].
    rewrite (ascii_eqb_false _ _ Hc1), (ascii_eqb_false _ _ Hc2).
    destruct line as [|c' line].
    + destruct rest as [|ch rest].
      * simpl. eexists; reflexivity.
      * destruct (IH Hl' Hr) as [more E]. rewrite E.
        eexists; reflexivity.
    + destruct (IH Hl') as [more E].
      { destruct rest; [discriminate | exact Hr]. }
      rewrite E. eexists; reflexivity.
Qed.

Lemma replace1_map (old new : ascii) (s : bytes) :
  replace1 old [new] s = map (fun ch => if Ascii.eqb ch old then new else ch) s.
Proof.
  unfold replace1. induction s as [|c s IH]; cbn [flat_map map];
    [reflexivity|].
  rewrite IH. destruct (Ascii.eqb c old); reflexivity.
Qed.

(** C10: [get_summary] fails with [IndexError] on an empty message;
    otherwise it gives the first line of the message, the bytes before the
    first line end, with every blank replaced by a hyphen. *)
Theorem get_summary_first_line (commit : Commit) :
  (message commit = [] -> get_summary commit = inl IndexError)
  /\ (forall line rest : bytes,
        message commit = line ++ rest ->
        Forall (fun ch => ch <> nl /\ ch <> cr) line ->
        match rest with
        | [] => line <> []
        | ch :: _ => ch = nl \/ ch = cr
        end ->
        get_summary commit =
        inr (map (fun ch => if Ascii.eqb ch " " then "-"%char else ch) line)).
Proof.
  unfold get_summary. split.
  - intros ->. reflexivity.
  - intros line rest -> Hl Hr.
    destruct (splitlines_first_line line rest Hl Hr) as [more ->].
    f_equal. apply replace1_map.
Qed.

Lemma get_summary_first_line_witness :
  get_summary (mkCommit [] [] []) = inl IndexError
  /\ get_summary
       (mkCommit [] [] (B "Fix the bug" ++ [cr; nl] ++ B "in the parser"))
     = inr (B "Fix-the-bug").
Proof.
  split.
  - apply (proj1 (get_summary_first_line (mkCommit [] [] []))).
    reflexivity.
  - apply (proj2 (get_summary_first_line
                    (mkCommit [] []
                       (B "Fix the bug" ++ [cr; nl] ++ B "in the parser")))
             (B "Fix the bug") ([cr; nl] ++ B "in the parser")).
    + reflexivity.
    + repeat constructor; discriminate.
    + right. reflexivity.
Defined.

(** ** [index] *)

Lemma occurs_at_startswith (sub s : bytes) (i : nat) :
  occurs_at sub s i <-> (i <= length s /\ startswith sub (skipn i s) = true).
Proof.
  unfold occurs_at. rewrite startswith_firstn, length_skipn. split.
  - intros [H1 H2]. repeat split; [lia | lia | exact H2].
  - intros [H1 [H2 H3]]. split; [lia | exact H3].
Qed.

Lemma find_from_spec (sub s : bytes) (pos : nat) :
  match find_from sub s pos with
  | Some r =>
      exists k, r = pos + k /\ k <= length s
                /\ startswith sub (skipn k s) = true
                /\ forall k', k' < k -> startswith sub (skipn k' s) = false
  | None => forall k, k <= length s -> startswith sub (skipn k s) = false
  end.
Proof.
  revert pos; induction s as [|c s IH]; intros pos.
  - cbn [find_from]. destruct (startswith sub []) eqn:E.
    + exists 0. repeat split; [lia | simpl; lia | exact E | intros; lia].
    + intros k Hk. simpl in Hk. replace k with 0 by lia. exact E.
  - cbn [find_from]. destruct (startswith sub (c :: s)) eqn:E.
    + exists 0. repeat split; [lia | simpl; lia | exact E | intros; lia].
    + specialize (IH (S pos)). destruct (find_from sub s (S pos)) as [r|].
      * destruct IH as [k [-> [Hk [Hs Hmin]]]]. exists (S k).
        repeat split; [lia | simpl; lia | exact Hs |].
        intros [|k'] Hk'; [exact E|]. apply Hmin. lia.
      * intros [|k] Hk; [exact E|]. apply IH. simpl in Hk. lia.
Qed.

Lemma skipn_add {A : Type} (k n : nat) (l : list A) :
  skipn k (skipn n l) = skipn (n + k) l.
Proof.
  revert l; induction n as [|n IH]; intros l; [reflexivity|].
  destruct l as [|x l]; [now rewrite !skipn_nil|]. apply IH.
Qed.

Lemma index_first_at (sub s : bytes) (start i : nat) :
  index sub s start = Some i <-> first_at sub s start i.
Proof.
  unfold index, first_at. split.
  - destruct (start <=? length s) eqn:Hs; [|discriminate].
    apply Nat.leb_le in Hs.
    pose proof (find_from_spec sub (skipn start s) start) as H.
    intros E. rewrite E in H.
    destruct H as [k [-> [Hk [Hk1 Hk2]]]].
    rewrite length_skipn in Hk. rewrite skipn_add in Hk1.
    split; [lia|]. split.
    + apply occurs_at_startswith. split; [lia | exact Hk1].
    + intros i' H1 H2 Ho. apply occurs_at_startswith in Ho.
      specialize (Hk2 (i' - start)). rewrite skipn_add in Hk2.
      replace (start + (i' - start)) with i' in Hk2 by lia.
      rewrite Hk2 in Ho by lia. destruct Ho; discriminate.
  - intros [H1 [H2 H3]]. apply occurs_at_startswith in H2.
    destruct H2 as [H2 H4].
    replace (start <=? length s) with true by (symmetry; apply Nat.leb_le; lia).
    pose proof (find_from_spec sub (skipn start s) start) as H.
    destruct (find_from sub (skipn start s) start) as [r|].
    + destruct H as [k [-> [Hk [Hk1 Hk2]]]].
      rewrite length_skipn in Hk. rewrite skipn_add in Hk1.
      f_equal.
      destruct (Nat.lt_trichotomy (start + k) i) as [Hlt | [He | Hgt]];
        [|exact He|].
      * exfalso. apply (H3 (start + k)); [lia | exact Hlt|].
        apply occurs_at_startswith. split; [lia | exact Hk1].
      * exfalso. specialize (Hk2 (i - start)). rewrite skipn_add in Hk2.
        replace (start + (i - start)) with i in Hk2 by lia.
        rewrite Hk2 in H4 by lia. discriminate.
    + exfalso. specialize (H (i - start)). rewrite skipn_add in H.
      replace (start + (i - start)) with i in H by lia.
      rewrite length_skipn in H. rewrite H in H4 by lia. discriminate.
Qed.

Lemma index_none (sub s : bytes) (start : nat) :
  index sub s start = None <->
  (forall i, start <= i -> ~ occurs_at sub s i).
Proof.
  split.
  - intros E i Hi Ho.
    assert (Hex : exists m, first_at sub s start m).
    { clear E. remember (i - start) as d eqn:Hd.
      revert i Hi Ho Hd.
      induction d as [d IHd] using lt_wf_ind. intros i Hi Ho Hd.
      destruct (index sub s start) as [m|] eqn:E.
      - exists m. apply index_first_at. exact E.
      - exists i. split; [exact Hi|]. split; [exact Ho|].
        intros i' H1 H2 Ho'.
        destruct (IHd (i' - start)) with (i := i') as [m Hm];
          [lia | exact H1 | exact Ho' | reflexivity |].
        apply index_first_at in Hm. congruence. }
    destruct Hex as [m Hm]. apply index_first_at in Hm. congruence.
  - intros H. destruct (index sub s start) as [i|] eqn:E; [|reflexivity].
    apply index_first_at in E. destruct E as [H1 [H2 _]].
    exfalso. apply (H i H1 H2).
Qed.

(** ** The subject line *)

Lemma forallb_skipn {A : Type} (p : A -> bool) (n : nat) (l : list A) :
  forallb p l = true -> forallb p (skipn n l) = true.
Proof.
  revert l; induction n as [|n IH]; intros l H; [exact H|].
  destruct l as [|x l]; [reflexivity|].
  simpl in H. apply andb_true_iff in H. apply IH. apply H.
Qed.

Lemma replace1_filter (s : bytes) :
  replace1 nl [] s = filter (fun ch => negb (Ascii.eqb ch nl)) s.
Proof.
  unfold replace1. induction s as [|c s IH]; [reflexivity|].
  cbn [flat_map filter]. rewrite IH.
  destruct (Ascii.eqb c nl); reflexivity.
Qed.

(** C9: a subject without [[PATCH] is taken whole; in a subject with
    [[PATCH], first at position [p], and ["] "] first at position [c] from
    [p] on, the effective subject is what follows these two bytes; the
    commit message starts as the bytes of the effective subject other
    than newlines, in their order, followed by one newline. *)
Theorem subject_message_effective_subject (subject : bytes) :
  forallb is_ascii subject = true ->
  ((forall i, ~ occurs_at (B "[PATCH") subject i) ->
   subject_message subject =
   inr (filter (fun ch => negb (Ascii.eqb ch nl)) subject ++ [nl]))
  /\ (forall p c : nat,
        first_at (B "[PATCH") subject 0 p ->
        first_at (B "] ") subject p c ->
        subject_message subject =
        inr (filter (fun ch => negb (Ascii.eqb ch nl))
               (skipn (c + 2) subject) ++ [nl])).
Proof.
  intros Ha. unfold subject_message, strip_patch_tag. split.
  - intros H.
    replace (index (B "[PATCH") subject 0) with (@None nat).
    + cbn [bind_exn]. unfold encode_ascii. rewrite Ha. cbn [bind_exn].
      rewrite replace1_filter. reflexivity.
    + symmetry. apply index_none. intros i _. apply H.
  - intros p c Hp Hc.
    apply index_first_at in Hp. apply index_first_at in Hc.
    rewrite Hp, Hc. cbn [bind_exn]. unfold encode_ascii.
    rewrite (forallb_skipn _ _ _ Ha). cbn [bind_exn].
    rewrite replace1_filter. reflexivity.
Qed.

Lemma subject_message_effective_subject_witness :
  subject_message (B "[PATCH 3/5] Fix" ++ [nl] ++ B " bug")
  = inr (B "Fix bug" ++ [nl])
  /\ subject_message (B "Fix" ++ [nl] ++ B " bug") = inr (B "Fix bug" ++ [nl]).
Proof.
  split.
  - apply (proj2 (subject_message_effective_subject
                    (B "[PATCH 3/5] Fix" ++ [nl] ++ B " bug") eq_refl) 0 10).
    + apply index_first_at. reflexivity.
    + apply index_first_at. reflexivity.
  - apply (proj1 (subject_message_effective_subject
                    (B "Fix" ++ [nl] ++ B " bug") eq_refl)).
    intros i.
    apply (proj1 (index_none (B "[PATCH") (B "Fix" ++ [nl] ++ B " bug") 0)).
    + reflexivity.
    + lia.
Defined.

(** ** Missing headers *)

Lemma subject_message_errors (subject : bytes) (e : exn) :
  forallb is_ascii subject = true ->
  subject_message subject = inl e -> e = ValueError.
Proof.
  intros Ha. unfold subject_message, strip_patch_tag, encode_ascii.
  destruct (index (B "[PATCH") subject 0) as [p|].
  - destruct (index (B "] ") subject p) as [c|]; cbn [bind_exn].
    + rewrite (forallb_skipn _ _ _ Ha). discriminate.
    + intros H. injection H as <-. reflexivity.
  - cbn [bind_exn]. rewrite Ha. discriminate.
Qed.

Lemma get_field_str (msg : Message) (name v : bytes) :
  get_header msg name = Some v -> forallb is_ascii v = true ->
  get_field msg name = Some (Str v).
Proof. intros H Ha. unfold get_field. rewrite H, Ha. reflexivity. Qed.

Lemma get_field_header (msg : Message) (name v : bytes) :
  get_header msg name = Some v -> forallb is_ascii v = false ->
  get_field msg name = Some (Header v).
Proof. intros H Ha. unfold get_field. rewrite H, Ha. reflexivity. Qed.

(** C5, as the code has it: without a [From] header, without a
    [Subject] header, or with a [Subject] that has 8-bit bytes, reading
    the message fails with [AttributeError]; with a 7-bit subject that has
    [[PATCH] and no ["] "] after it, it fails with [ValueError]; no commit
    is returned; and the only exceptions raised are [AttributeError] and
    [ValueError]. *)
Theorem split_message_header_errors (msg : Message) :
  (get_header msg (B "from") = None ->
   split_message msg = Some (inl AttributeError))
  /\ (get_header msg (B "from") <> None ->
      get_header msg (B "subject") = None ->
      split_message msg = Some (inl AttributeError))
  /\ (forall subject : bytes,
        get_header msg (B "from") <> None ->
        get_header msg (B "subject") = Some subject ->
        forallb is_ascii subject = false ->
        split_message msg = Some (inl AttributeError))
  /\ (forall (subject : bytes) (p : nat),
        get_header msg (B "from") <> None ->
        get_header msg (B "subject") = Some subject ->
        forallb is_ascii subject = true ->
        first_at (B "[PATCH") subject 0 p ->
        (forall c, ~ first_at (B "] ") subject p c) ->
        split_message msg = Some (inl ValueError))
  /\ (forall e : exn,
        split_message msg = Some (inl e) ->
        e = AttributeError \/ e = ValueError).
Proof.
  unfold split_message, get_field.
  split; [|split; [|split; [|split]]].
  - intros ->. reflexivity.
  - intros Hf ->. destruct (get_header msg (B "from")); [reflexivity|].
    contradiction.
  - intros subject Hf -> Ha. rewrite Ha.
    destruct (get_header msg (B "from")); [reflexivity | contradiction].
  - intros subject p Hf -> Ha Hp Hc. rewrite Ha.
    destruct (get_header msg (B "from")); [|contradiction].
    unfold subject_message, strip_patch_tag.
    apply index_first_at in Hp. rewrite Hp.
    destruct (index (B "] ") subject p) as [c|] eqn:E; [|reflexivity].
    apply index_first_at in E. exfalso. apply (Hc c E).
  - intros e. destruct (get_header msg (B "from")) as [from|].
    + destruct (get_header msg (B "subject")) as [subject|].
      * destruct (forallb is_ascii subject) eqn:Ha.
        -- destruct (subject_message subject) as [e'|m] eqn:E.
           ++ intros H. injection H as <-. right.
              apply (subject_message_errors _ _ Ha E).
           ++ destruct (forallb is_ascii from); [|discriminate].
              destruct (scan_message _ _ _) as [c body].
              destruct (scan_diff body []). discriminate.
        -- intros H. injection H as <-. left. reflexivity.
      * intros H. injection H as <-. left. reflexivity.
    + intros H. injection H as <-. left. reflexivity.
Qed.

Lemma split_message_header_errors_witness :
  split_message (mkMessage [(B "Subject", B "s")] [])
  = Some (inl AttributeError)
  /\ split_message (mkMessage [(B "From", B "a")] [])
     = Some (inl AttributeError)
  /\ split_message
       (mkMessage [(B "From", B "a"); (B "Subject", B "caf" ++ ["233"%char])]
          [])
     = Some (inl AttributeError)
  /\ split_message
       (mkMessage [(B "From", B "a"); (B "Subject", B "[PATCH 1/2 s")] [])
     = Some (inl ValueError).
Proof.
  split; [|split; [|split]].
  - apply (proj1 (split_message_header_errors
                    (mkMessage [(B "Subject", B "s")] []))).
    reflexivity.
  - apply (proj1 (proj2 (split_message_header_errors
                           (mkMessage [(B "From", B "a")] []))));
      [discriminate | reflexivity].
  - apply (proj1 (proj2 (proj2 (split_message_header_errors
             (mkMessage
                [(B "From", B "a"); (B "Subject", B "caf" ++ ["233"%char])]
                [])))) (B "caf" ++ ["233"%char]));
      [discriminate | reflexivity | reflexivity].
  - apply (proj1 (proj2 (proj2 (proj2 (split_message_header_errors
             (mkMessage [(B "From", B "a"); (B "Subject", B "[PATCH 1/2 s")]
                []))))) (B "[PATCH 1/2 s") 0);
      try reflexivity.
    + discriminate.
    + apply index_first_at. reflexivity.
    + intros c Hc. apply index_first_at in Hc. discriminate.
Defined.

(** C5 as stated fails: a mail without a [From] header makes
    [git_am_patch_split] raise [AttributeError], which is no
    [FormatError]. *)
Lemma git_am_patch_split_no_format_error :
  git_am_patch_split (B "Subject: s" ++ [nl; nl] ++ B "text" ++ [nl])
  = Some (inl AttributeError)
  /\ AttributeError <> Raise "FormatError".
Proof. split; [reflexivity | discriminate]. Qed.

(** ** The two loops over the body *)

Lemma scan_message_rest (pre tail : list bytes) (c : Commit) :
  ~ In (B "---" ++ [nl]) pre ->
  match tail with
  | [] => True
  | l :: _ => l = B "---" ++ [nl]
  end ->
  scan_message (pre ++ tail) false c =
  (mkCommit (author c) (committer c) (message c ++ concat pre), tl tail).
Proof.
  revert c; induction pre as [|l pre IH]; intros c Hpre Htail.
  - cbn [app concat]. rewrite app_nil_r. destruct tail as [|l tail].
    + destruct c; reflexivity.
    + subst l. cbn [scan_message]. rewrite bytes_eqb_refl.
      destruct c; reflexivity.
  - cbn [app scan_message].
    assert (E : bytes_eqb l (B "---" ++ [nl]) = false).
    { apply bytes_eqb_neq. intros ->. apply Hpre. left. reflexivity. }
    rewrite E, IH; [|intros H; apply Hpre; right; exact H | exact Htail].
    cbn [author committer message concat]. rewrite app_assoc. reflexivity.
Qed.

Lemma scan_message_first (pre tail : list bytes) (c : Commit) :
  ~ In (B "---" ++ [nl]) pre ->
  match tail with
  | [] => True
  | l :: _ => l = B "---" ++ [nl]
  end ->
  scan_message (pre ++ tail) true c =
  (match pre with
   | [] => c
   | l :: ls =>
       if startswith (B "From: ") l
       then mkCommit (rstrip (skipn 6 l)) (committer c)
              (message c ++ concat ls)
       else mkCommit (author c) (committer c)
              (message c ++ [nl] ++ l ++ concat ls)
   end, tl tail).
Proof.
  intros Hpre Htail. destruct pre as [|l pre].
  - cbn [app]. destruct tail as [|l tail]; [reflexivity|].
    subst l. cbn [scan_message]. rewrite bytes_eqb_refl. reflexivity.
  - cbn [app scan_message].
    assert (E : bytes_eqb l (B "---" ++ [nl]) = false).
    { apply bytes_eqb_neq. intros ->. apply Hpre. left. reflexivity. }
    rewrite E.
    assert (Hpre' : ~ In (B "---" ++ [nl]) pre).
    { intros H; apply Hpre; right; exact H. }
    destruct (startswith (B "From: ") l);
      rewrite scan_message_rest by assumption;
      cbn [author committer message]; rewrite <- ?app_assoc; reflexivity.
Qed.

Lemma scan_diff_rest (pre tail : list bytes) (diff : bytes) :
  ~ In (B "-- " ++ [nl]) pre ->
  match tail with
  | [] => True
  | l :: _ => l = B "-- " ++ [nl]
  end ->
  scan_diff (pre ++ tail) diff = (diff ++ concat pre, tl tail).
Proof.
  revert diff; induction pre as [|l pre IH]; intros diff Hpre Htail.
  - cbn [app concat]. rewrite app_nil_r. destruct tail as [|l tail].
    + reflexivity.
    + subst l. cbn [scan_diff]. rewrite bytes_eqb_refl. reflexivity.
  - cbn [app scan_diff].
    assert (E : bytes_eqb l (B "-- " ++ [nl]) = false).
    { apply bytes_eqb_neq. intros ->. apply Hpre. left. reflexivity. }
    rewrite E, IH; [|intros H; apply Hpre; right; exact H | exact Htail].
    cbn [concat]. rewrite app_assoc. reflexivity.
Qed.

(** C6, as the code has it: when the [From] and [Subject] headers are
    there and 7-bit and the body has no [---] line, or has one and no
    [-- ] line after it, no exception is raised and the version is
    [None].  The lines before [---] (all of them, when there is none) go
    to the message, the first one after an empty line, except that a first
    line starting with [From: ] replaces the author instead; the lines
    after [---] are the diff. *)
Theorem split_message_without_markers (msg : Message)
    (from subject m0 : bytes) (pre : list bytes) :
  get_header msg (B "from") = Some from ->
  forallb is_ascii from = true ->
  get_header msg (B "subject") = Some subject ->
  forallb is_ascii subject = true ->
  subject_message subject = inr m0 ->
  ~ In (B "---" ++ [nl]) pre ->
  let c :=
    match pre with
    | [] => mkCommit from from m0
    | l :: ls =>
        if startswith (B "From: ") l
        then mkCommit (rstrip (skipn 6 l)) from (m0 ++ concat ls)
        else mkCommit from from (m0 ++ [nl] ++ l ++ concat ls)
    end in
  (readlines (payload msg) = pre ->
   split_message msg = Some (inr (c, [], None)))
  /\ (forall post : list bytes,
        readlines (payload msg) = pre ++ (B "---" ++ [nl]) :: post ->
        ~ In (B "-- " ++ [nl]) post ->
        split_message msg = Some (inr (c, concat post, None))).
Proof.
  intros Hf Ha Hs Hb Hm Hpre c. unfold split_message.
  rewrite (get_field_str _ _ _ Hf Ha), (get_field_str _ _ _ Hs Hb), Hm.
  split.
  - intros ->.
    pose proof (scan_message_first pre [] (mkCommit from from m0) Hpre I)
      as E.
    rewrite app_nil_r in E. rewrite E. reflexivity.
  - intros post -> Hpost.
    rewrite (scan_message_first pre ((B "---" ++ [nl]) :: post)
               (mkCommit from from m0) Hpre eq_refl).
    cbn [tl].
    pose proof (scan_diff_rest post [] [] Hpost I) as E.
    rewrite app_nil_r in E. rewrite E. reflexivity.
Qed.

Lemma split_message_without_markers_witness :
  split_message
    (mkMessage [(B "From", B "a"); (B "Subject", B "s")]
       (B "one" ++ [nl] ++ B "two" ++ [nl]))
  = Some (inr (mkCommit (B "a") (B "a")
                 (B "s" ++ [nl; nl] ++ B "one" ++ [nl] ++ B "two" ++ [nl]),
               [], None))
  /\ split_message
       (mkMessage [(B "From", B "a"); (B "Subject", B "s")]
          (B "one" ++ [nl] ++ B "---" ++ [nl] ++ B "+x" ++ [nl]))
     = Some (inr (mkCommit (B "a") (B "a")
                    (B "s" ++ [nl; nl] ++ B "one" ++ [nl]),
                  B "+x" ++ [nl], None)).
Proof.
  split.
  - apply (proj1 (split_message_without_markers
             (mkMessage [(B "From", B "a"); (B "Subject", B "s")]
                (B "one" ++ [nl] ++ B "two" ++ [nl]))
             (B "a") (B "s") (B "s" ++ [nl])
             [B "one" ++ [nl]; B "two" ++ [nl]]
             eq_refl eq_refl eq_refl eq_refl eq_refl
             ltac:(simpl; intros [H|[H|[]]]; discriminate))).
    reflexivity.
  - apply (proj2 (split_message_without_markers
             (mkMessage [(B "From", B "a"); (B "Subject", B "s")]
                (B "one" ++ [nl] ++ B "---" ++ [nl] ++ B "+x" ++ [nl]))
             (B "a") (B "s") (B "s" ++ [nl])
             [B "one" ++ [nl]]
             eq_refl eq_refl eq_refl eq_refl eq_refl
             ltac:(simpl; intros [H|[]]; discriminate))
             [B "+x" ++ [nl]]).
    + reflexivity.
    + simpl. intros [H|[]]; discriminate.
Defined.

(** C6 as stated fails: the body below has no [---] line, and its first
    line is not appended to the message; it becomes the author. *)
Lemma split_message_from_line_not_appended :
  let body := B "From: B" ++ [nl] ++ B "text" ++ [nl] in
  ~ In (B "---" ++ [nl]) (readlines body)
  /\ split_message (mkMessage [(B "From", B "a"); (B "Subject", B "s")] body)
     = Some (inr (mkCommit (B "B") (B "a") (B "s" ++ [nl] ++ B "text" ++ [nl]),
                  [], None))
  /\ forall i, ~ occurs_at (B "From: B" ++ [nl])
                   (B "s" ++ [nl] ++ B "text" ++ [nl]) i.
Proof.
  split; [|split].
  - simpl. intros [H|[H|[]]]; discriminate.
  - reflexivity.
  - intros i. apply (proj1 (index_none _ _ 0)); [reflexivity | lia].
Qed.

(** ** The matcher *)

Module DiffFacts.

Import Difflib DiffSpec.

Lemma firstn_succ_nth {A : Type} (l : list A) (k : nat) (x : A) :
  nth_error l k = Some x -> firstn (S k) l = firstn k l ++ [x].
Proof.
  revert k; induction l as [|y l IH]; intros [|k] H; try discriminate.
  - injection H as ->. reflexivity.
  - cbn [firstn app]. f_equal. apply IH. exact H.
Qed.

Lemma skipn_nth_cons {A : Type} (l : list A) (i : nat) (x : A) :
  nth_error l i = Some x -> skipn i l = x :: skipn (S i) l.
Proof.
  revert i; induction l as [|y l IH]; intros [|i] H; try discriminate.
  - injection H as ->. reflexivity.
  - apply IH. exact H.
Qed.

Lemma firstn_add {A : Type} (k k' : nat) (l : list A) :
  firstn (k + k') l = firstn k l ++ firstn k' (skipn k l).
Proof.
  revert l; induction k as [|k IH]; intros l; [reflexivity|].
  destruct l as [|x l]; cbn [Nat.add firstn skipn app].
  - now rewrite firstn_nil.
  - f_equal. apply IH.
Qed.

Section Facts.

Context {A : Type} (eqb : A -> A -> bool).
Hypothesis eqb_eq : forall x y, eqb x y = true <-> x = y.
Variables a b : list A.

Local Abbreviation same := (same a b).

Lemma same_nil (i j : nat) : i <= length a -> j <= length b -> same i j 0.
Proof. intros Hi Hj. repeat split; [lia | lia]. Qed.

Lemma same_snoc (i j k : nat) (x : A) :
  same i j k ->
  nth_error a (i + k) = Some x -> nth_error b (j + k) = Some x ->
  same i j (S k).
Proof.
  intros [H1 [H2 H3]] Ha Hb.
  assert (i + k < length a) by (apply nth_error_Some; congruence).
  assert (j + k < length b) by (apply nth_error_Some; congruence).
  repeat split; [lia | lia |].
  rewrite (firstn_succ_nth (skipn i a) k x)
    by (rewrite nth_error_skipn; exact Ha).
  rewrite (firstn_succ_nth (skipn j b) k x)
    by (rewrite nth_error_skipn; exact Hb).
  rewrite H3. reflexivity.
Qed.

Lemma same_cons (i j k : nat) (x : A) :
  nth_error a i = Some x -> nth_error b j = Some x ->
  same (S i) (S j) k -> same i j (S k).
Proof.
  intros Ha Hb [H1 [H2 H3]].
  repeat split; [lia | lia |].
  rewrite (skipn_nth_cons a i x Ha), (skipn_nth_cons b j x Hb).
  cbn [firstn]. rewrite H3. reflexivity.
Qed.

Lemma same_app (i j k k' : nat) :
  same i j k -> same (i + k) (j + k) k' -> same i j (k + k').
Proof.
  intros [H1 [H2 H3]] [H4 [H5 H6]].
  repeat split; [lia | lia |].
  rewrite !firstn_add, !skipn_add, H3, H6. reflexivity.
Qed.

Lemma same_sub (i j k d k' : nat) :
  same i j k -> d + k' <= k -> same (i + d) (j + d) k'.
Proof.
  intros [H1 [H2 H3]] Hd.
  repeat split; [lia | lia |].
  assert (E : firstn (d + k') (skipn i a) = firstn (d + k') (skipn j b)).
  { apply (f_equal (firstn (d + k'))) in H3.
    rewrite !firstn_firstn in H3.
    replace (Nat.min (d + k') k) with (d + k') in H3 by lia. exact H3. }
  rewrite !firstn_add in E.
  apply (f_equal (skipn d)) in E.
  rewrite !skipn_app in E.
  rewrite !length_firstn, !length_skipn in E.
  replace (d - Nat.min d (length a - i)) with 0 in E by lia.
  replace (d - Nat.min d (length b - j)) with 0 in E by lia.
  rewrite !skipn_add in E.
  rewrite (skipn_all2 (firstn d (skipn i a))) in E
    by (rewrite length_firstn; lia).
  rewrite (skipn_all2 (firstn d (skipn j b))) in E
    by (rewrite length_firstn; lia).
  exact E.
Qed.

Lemma same_tail (i j k : nat) :
  same i j k -> skipn (i + k) a = skipn (j + k) b -> skipn i a = skipn j b.
Proof.
  intros [H1 [H2 H3]] H.
  rewrite <- (firstn_skipn k (skipn i a)), <- (firstn_skipn k (skipn j b)).
  rewrite !skipn_add, H3, H. reflexivity.
Qed.

Lemma same_whole (i j : nat) :
  i <= length a -> j <= length b ->
  skipn i a = skipn j b -> same i j (length a - i).
Proof.
  intros Hi Hj H.
  assert (length a - i = length b - j).
  { rewrite <- (length_skipn i a), <- (length_skipn j b), H. reflexivity. }
  repeat split; [lia | lia |]. rewrite H. reflexivity.
Qed.

Lemma same_length_tail (i j k : nat) :
  same i j k -> i + k = length a -> j + k = length b ->
  skipn i a = skipn j b.
Proof.
  intros Hs Ha Hb. apply (same_tail i j k Hs).
  rewrite !skipn_all2 by lia. reflexivity.
Qed.

Lemma same_at_true (i j : nat) :
  same_at eqb a b i j = true <->
  exists x, nth_error a i = Some x /\ nth_error b j = Some x.
Proof.
  unfold same_at.
  destruct (nth_error a i) as [x|], (nth_error b j) as [y|]; split;
    try discriminate; try (intros [z [H1 H2]]; discriminate).
  - intros H. apply eqb_eq in H. subst y. exists x. split; reflexivity.
  - intros [z [H1 H2]]. apply eqb_eq. congruence.
Qed.

(** *** [find_longest_match] returns a match inside its window *)

Definition run_ok (alo blo bhi i j k : nat) : Prop :=
  alo + k <= i /\ blo + k <= S j /\ j < bhi /\ same (i - k) (S j - k) k.

Definition table_ok (alo blo bhi i : nat) (m : nat -> nat) : Prop :=
  forall j, 0 < m j -> run_ok alo blo bhi i j (m j).

Definition best_ok (alo blo bhi hi : nat) (m : match_t) : Prop :=
  let '(i, j, k) := m in
  alo <= i /\ i + k <= hi /\ blo <= j /\ j + k <= bhi /\ same i j k.

Lemma indices_from_nth (l : list A) (x : A) (j0 j : nat) :
  In j (indices_from eqb j0 l x) ->
  j0 <= j /\ nth_error l (j - j0) = Some x.
Proof.
  revert j0; induction l as [|y l IH]; intros j0 H; [destruct H|].
  cbn [indices_from] in H. destruct (eqb y x) eqn:E.
  - destruct H as [<- | H].
    + split; [lia|]. rewrite Nat.sub_diag. apply eqb_eq in E. subst.
      reflexivity.
    + apply IH in H. destruct H as [H1 H2]. split; [lia|].
      replace (j - j0) with (S (j - S j0)) by lia. exact H2.
  - apply IH in H. destruct H as [H1 H2]. split; [lia|].
    replace (j - j0) with (S (j - S j0)) by lia. exact H2.
Qed.

Lemma b2j_nth (x : A) (j : nat) :
  In j (b2j eqb b x) -> nth_error b j = Some x.
Proof.
  unfold b2j. destruct (popular eqb b x); [intros []|].
  intros H. apply indices_from_nth in H. destruct H as [_ H].
  rewrite Nat.sub_0_r in H. exact H.
Qed.

Lemma scan_row_ok (alo blo bhi hi i : nat) (x : A) (j2len : nat -> nat)
    (js : list nat) (newj2len : nat -> nat) (best : match_t) :
  alo <= i -> i < hi ->
  nth_error a i = Some x ->
  (forall j, In j js -> nth_error b j = Some x) ->
  table_ok alo blo bhi i j2len ->
  table_ok alo blo bhi (S i) newj2len ->
  best_ok alo blo bhi hi best ->
  table_ok alo blo bhi (S i) (fst (scan_row i blo bhi j2len js newj2len best))
  /\ best_ok alo blo bhi hi (snd (scan_row i blo bhi j2len js newj2len best)).
Proof.
  intros Hlo Hhi Ha. revert newj2len best.
  induction js as [|j js IH]; intros newj2len best Hjs Hold Hnew Hbest.
  - split; assumption.
  - cbn [scan_row].
    assert (Hjs' : forall j', In j' js -> nth_error b j' = Some x).
    { intros j' H. apply Hjs. right. exact H. }
    destruct (j <? blo) eqn:E1; [apply IH; assumption|].
    destruct (bhi <=? j) eqn:E2; [split; assumption|].
    apply Nat.ltb_ge in E1. apply Nat.leb_gt in E2.
    assert (Hb : nth_error b j = Some x) by (apply Hjs; left; reflexivity).
    assert (Hrun : run_ok alo blo bhi (S i) j (S (j2len_get j2len j))).
    { assert (Hone : run_ok alo blo bhi (S i) j 1).
      { unfold run_ok. refine (conj _ (conj _ (conj _ _))); try lia.
        replace (S i - 1) with i by lia. replace (S j - 1) with j by lia.
        apply (same_cons i j 0 x Ha Hb). apply same_nil.
        - apply (proj1 (nth_error_Some a i)). congruence.
        - apply (proj1 (nth_error_Some b j)). congruence. }
      destruct j as [|j']; [exact Hone|]. cbn [j2len_get].
      destruct (j2len j') as [|k'] eqn:Ek; [exact Hone|].
      destruct (Hold j') as [H1 [H2 [H3 H4]]]; [lia|]. rewrite Ek in *.
      unfold run_ok. refine (conj _ (conj _ (conj _ _))); try lia.
      replace (S i - S (S k')) with (i - S k') by lia.
      replace (S (S j') - S (S k')) with (S j' - S k') by lia.
      apply (same_snoc _ _ _ x H4).
      - replace (i - S k' + S k') with i by lia. exact Ha.
      - replace (S j' - S k' + S k') with (S j') by lia. exact Hb. }
    destruct best as [[bi bj] bk]. apply IH; try assumption.
    + intros j' Hj'. unfold j2len_set in *.
      destruct (j' =? j) eqn:E3.
      * apply Nat.eqb_eq in E3. subst j'. exact Hrun.
      * apply Hnew. exact Hj'.
    + destruct (bk <? S (j2len_get j2len j)) eqn:E3; [|exact Hbest].
      destruct Hrun as [H1 [H2 [H3 H4]]].
      unfold best_ok. refine (conj _ (conj _ (conj _ (conj _ _)))); try lia. exact H4.
Qed.

Lemma table_ok_empty (alo blo bhi i : nat) :
  table_ok alo blo bhi i (fun _ => 0).
Proof. intros j H. inversion H. Qed.

Lemma scan_rows_ok (alo blo bhi hi : nat) (len i0 : nat)
    (j2len : nat -> nat) (best : match_t) :
  alo <= i0 -> i0 + len <= hi ->
  table_ok alo blo bhi i0 j2len ->
  best_ok alo blo bhi hi best ->
  best_ok alo blo bhi hi
    (scan_rows eqb a b (seq i0 len) blo bhi j2len best).
Proof.
  revert i0 j2len best; induction len as [|len IH];
    intros i0 j2len best Hlo Hhi Ht Hb; [exact Hb|].
  cbn [seq scan_rows].
  destruct (nth_error a i0) as [x|] eqn:Ea.
  - pose proof (scan_row_ok alo blo bhi hi i0 x j2len (b2j eqb b x)
                  (fun _ => 0) best Hlo ltac:(lia) Ea (b2j_nth x) Ht
                  (table_ok_empty _ _ _ _) Hb) as [H1 H2].
    destruct (scan_row i0 blo bhi j2len (b2j eqb b x) (fun _ => 0) best)
      as [m best'].
    apply IH; [lia | lia | exact H1 | exact H2].
  - cbn [scan_row]. apply IH; [lia | lia | apply table_ok_empty | exact Hb].
Qed.

Lemma extend_left_ok (alo blo bhi hi bi bj bk : nat) :
  best_ok alo blo bhi hi (bi, bj, bk) ->
  best_ok alo blo bhi hi (extend_left eqb a b alo blo bi bj bk).
Proof.
  revert bj bk; induction bi as [|i' IH]; intros bj bk H; [exact H|].
  cbn [extend_left]. destruct bj as [|j']; [exact H|].
  destruct ((alo <? S i') && (blo <? S j') && same_at eqb a b i' j') eqn:E;
    [|exact H].
  apply andb_true_iff in E. destruct E as [E E3].
  apply andb_true_iff in E. destruct E as [E1 E2].
  apply Nat.ltb_lt in E1. apply Nat.ltb_lt in E2.
  apply same_at_true in E3. destruct E3 as [x [Ha Hb]].
  destruct H as [H1 [H2 [H3 [H4 H5]]]].
  apply IH. unfold best_ok. refine (conj _ (conj _ (conj _ (conj _ _)))); try lia.
  apply (same_cons i' j' bk x Ha Hb H5).
Qed.

Lemma extend_right_ok (alo blo bhi hi room bi bj bk : nat) :
  bi + bk + room <= hi ->
  best_ok alo blo bhi hi (bi, bj, bk) ->
  best_ok alo blo bhi hi
    (bi, bj, extend_right eqb a b room bhi bi bj bk).
Proof.
  revert bk; induction room as [|room IH]; intros bk Hr H; [exact H|].
  cbn [extend_right].
  destruct ((bj + bk <? bhi) && same_at eqb a b (bi + bk) (bj + bk)) eqn:E;
    [|exact H].
  apply andb_true_iff in E. destruct E as [E1 E2].
  apply Nat.ltb_lt in E1.
  apply same_at_true in E2. destruct E2 as [x [Ha Hb]].
  destruct H as [H1 [H2 [H3 [H4 H5]]]].
  apply IH; [lia|]. unfold best_ok. refine (conj _ (conj _ (conj _ (conj _ _)))); try lia.
  apply (same_snoc bi bj bk x H5 Ha Hb).
Qed.

Lemma find_longest_match_ok (alo ahi blo bhi : nat) :
  alo <= ahi -> ahi <= length a -> blo <= bhi -> bhi <= length b ->
  best_ok alo blo bhi ahi (find_longest_match eqb a b alo ahi blo bhi).
Proof.
  intros H1 H2 H3 H4. unfold find_longest_match.
  pose proof (scan_rows_ok alo blo bhi ahi (ahi - alo) alo (fun _ => 0)
                (alo, blo, 0) (le_n _) ltac:(lia) (table_ok_empty _ _ _ _))
    as Hs.
  destruct (scan_rows eqb a b (seq alo (ahi - alo)) blo bhi (fun _ => 0)
              (alo, blo, 0)) as [[bi bj] bk].
  assert (Hb : best_ok alo blo bhi ahi (bi, bj, bk)).
  { apply Hs. unfold best_ok. refine (conj _ (conj _ (conj _ (conj _ _)))); try lia.
    apply same_nil; lia. }
  apply extend_left_ok in Hb.
  destruct (extend_left eqb a b alo blo bi bj bk) as [[bi' bj'] bk'].
  apply extend_right_ok; [|exact Hb].
  destruct Hb as [Hb1 [Hb2 _]]. lia.
Qed.

(** *** Matching blocks *)

Local Abbreviation blocks_ok := (blocks_ok a b).

Lemma blocks_ok_weaken (i0 j0 ihi jhi i0' j0' ihi' jhi' : nat)
    (bl : list match_t) :
  blocks_ok i0 j0 ihi jhi bl ->
  i0' <= i0 -> j0' <= j0 -> ihi <= ihi' -> jhi <= jhi' ->
  blocks_ok i0' j0' ihi' jhi' bl.
Proof.
  revert i0 j0 i0' j0'; induction bl as [|[[i j] k] bl IH];
    intros i0 j0 i0' j0' H H1 H2 H3 H4; [exact I|].
  destruct H as [Ha [Hb [Hc [Hd [He Hf]]]]].
  cbn [DiffSpec.blocks_ok].
  refine (conj _ (conj _ (conj _ (conj _ (conj He _))))); try lia.
  apply (IH (i + k) (j + k)); try assumption; lia.
Qed.

Lemma blocks_ok_app (i0 j0 im jm ihi jhi : nat) (L R : list match_t) :
  blocks_ok i0 j0 im jm L -> blocks_ok im jm ihi jhi R ->
  i0 <= im -> j0 <= jm -> im <= ihi -> jm <= jhi ->
  blocks_ok i0 j0 ihi jhi (L ++ R).
Proof.
  revert i0 j0; induction L as [|[[i j] k] L IH];
    intros i0 j0 HL HR H1 H2 H3 H4.
  - apply (blocks_ok_weaken im jm ihi jhi); try assumption; lia.
  - destruct HL as [Ha [Hb [Hc [Hd [He Hf]]]]].
    cbn [app DiffSpec.blocks_ok].
    refine (conj _ (conj _ (conj _ (conj _ (conj He _))))); try lia.
    apply IH; try assumption; lia.
Qed.

Lemma matching_blocks_rec_ok (depth alo ahi blo bhi : nat) :
  alo <= ahi -> ahi <= length a -> blo <= bhi -> bhi <= length b ->
  blocks_ok alo blo ahi bhi
    (matching_blocks_rec eqb a b depth alo ahi blo bhi).
Proof.
  revert alo ahi blo bhi; induction depth as [|depth IH];
    intros alo ahi blo bhi H1 H2 H3 H4; [exact I|].
  cbn [matching_blocks_rec].
  pose proof (find_longest_match_ok alo ahi blo bhi H1 H2 H3 H4) as Hm.
  destruct (find_longest_match eqb a b alo ahi blo bhi) as [[i j] k].
  destruct Hm as [Ha [Hb [Hc [Hd He]]]].
  destruct (k =? 0); [exact I|].
  apply (blocks_ok_app alo blo i j ahi bhi); try lia.
  - destruct ((alo <? i) && (blo <? j)); [|exact I].
    apply IH; lia.
  - cbn [DiffSpec.blocks_ok].
    refine (conj _ (conj _ (conj _ (conj _ (conj He _))))); try lia.
    destruct ((i + k <? ahi) && (j + k <? bhi)); [|exact I].
    apply IH; lia.
Qed.

Lemma collapse_ok (i0 j0 ihi jhi i1 j1 k1 : nat) (rest : list match_t) :
  same i1 j1 k1 ->
  blocks_ok (i1 + k1) (j1 + k1) ihi jhi rest ->
  i1 + k1 <= ihi -> j1 + k1 <= jhi -> i0 <= i1 -> j0 <= j1 ->
  blocks_ok i0 j0 ihi jhi (collapse i1 j1 k1 rest).
Proof.
  revert i0 j0 i1 j1 k1; induction rest as [|[[i2 j2] k2] rest IH];
    intros i0 j0 i1 j1 k1 Hs Hr H1 H2 H3 H4.
  - cbn [collapse]. destruct (k1 =? 0); [exact I|].
    cbn [DiffSpec.blocks_ok]. tauto.
  - cbn [collapse]. destruct Hr as [Ha [Hb [Hc [Hd [He Hf]]]]].
    destruct ((i1 + k1 =? i2) && (j1 + k1 =? j2)) eqn:E.
    + apply andb_true_iff in E. destruct E as [E1 E2].
      apply Nat.eqb_eq in E1. apply Nat.eqb_eq in E2. subst i2 j2.
      apply IH; try lia.
      * apply same_app; assumption.
      * rewrite !Nat.add_assoc. exact Hf.
    + assert (Hc' : blocks_ok (i1 + k1) (j1 + k1) ihi jhi
                      (collapse i2 j2 k2 rest)).
      { apply IH; try assumption; lia. }
      destruct (k1 =? 0).
      * cbn [app].
        apply (blocks_ok_weaken (i1 + k1) (j1 + k1) ihi jhi);
          try assumption; lia.
      * cbn [app DiffSpec.blocks_ok].
        refine (conj _ (conj _ (conj _ (conj _ (conj Hs Hc'))))); lia.
Qed.

Lemma get_matching_blocks_ok :
  exists blocks,
    get_matching_blocks eqb a b = blocks ++ [(length a, length b, 0)]
    /\ blocks_ok 0 0 (length a) (length b) blocks.
Proof.
  eexists. split; [reflexivity|].
  apply collapse_ok; try lia.
  - apply same_nil; lia.
  - apply matching_blocks_rec_ok; lia.
Qed.

(** *** Opcodes *)

Local Abbreviation op_ok := (op_ok a b).
Local Abbreviation chain := (chain a b).

Lemma chain_app (i j im jm i' j' : nat) (L R : list opcode) :
  chain i j L im jm -> chain im jm R i' j' -> chain i j (L ++ R) i' j'.
Proof.
  revert i j; induction L as [|[[[[t i1] i2] j1] j2] L IH];
    intros i j HL HR.
  - destruct HL as [-> ->]. exact HR.
  - destruct HL as [H1 [H2 [H3 H4]]]. cbn [app DiffSpec.chain].
    refine (conj H1 (conj H2 (conj H3 _))). apply IH; assumption.
Qed.

Lemma chain_le (i j i' j' : nat) (ops : list opcode) :
  chain i j ops i' j' -> i <= i' /\ j <= j'.
Proof.
  revert i j; induction ops as [|[[[[t i1] i2] j1] j2] ops IH];
    intros i j H.
  - destruct H as [-> ->]. split; lia.
  - destruct H as [-> [-> [[H1 [H2 [H3 [H4 _]]]] H]]].
    apply IH in H. lia.
Qed.

Lemma chain_end_bound (i j i' j' : nat) (ops : list opcode) :
  i <= length a -> j <= length b ->
  chain i j ops i' j' -> i' <= length a /\ j' <= length b.
Proof.
  revert i j; induction ops as [|[[[[t i1] i2] j1] j2] ops IH];
    intros i j Hi Hj H.
  - destruct H as [-> ->]. split; assumption.
  - destruct H as [-> [-> [[H1 [H2 [H3 [H4 _]]]] H]]].
    apply IH in H; assumption.
Qed.

Lemma opcodes_from_chain (blocks : list match_t) (i j : nat) :
  blocks_ok i j (length a) (length b) blocks ->
  i <= length a -> j <= length b ->
  chain i j (opcodes_from i j (blocks ++ [(length a, length b, 0)]))
    (length a) (length b).
Proof.
  assert (Hgap : forall i j ai bj rest i' j',
             i <= ai -> ai <= length a -> j <= bj -> bj <= length b ->
             chain ai bj rest i' j' ->
             chain i j
               ((if (i <? ai) && (j <? bj) then [(replace, i, ai, j, bj)]
                 else if i <? ai then [(delete, i, ai, j, bj)]
                 else if j <? bj then [(insert, i, ai, j, bj)]
                 else []) ++ rest) i' j').
  { intros i0 j0 ai bj rest i' j' H1 H2 H3 H4 Hc.
    destruct (i0 <? ai) eqn:E1, (j0 <? bj) eqn:E2; cbn [andb app];
      try apply Nat.ltb_lt in E1; try apply Nat.ltb_lt in E2;
      try apply Nat.ltb_ge in E1; try apply Nat.ltb_ge in E2.
    - cbn [DiffSpec.chain DiffSpec.op_ok]. repeat split; try lia. exact Hc.
    - cbn [DiffSpec.chain DiffSpec.op_ok]. repeat split; try lia.
      replace j0 with bj by lia. exact Hc.
    - cbn [DiffSpec.chain DiffSpec.op_ok]. repeat split; try lia.
      replace i0 with ai by lia. exact Hc.
    - replace i0 with ai by lia. replace j0 with bj by lia. exact Hc. }
  revert i j; induction blocks as [|[[ai bj] size] blocks IH];
    intros i j Hb Hi Hj.
  - cbn [app opcodes_from].
    apply Hgap; try lia. rewrite !Nat.add_0_r. split; reflexivity.
  - destruct Hb as [Ha [Hb [Hc [Hd [He Hf]]]]].
    cbn [app opcodes_from].
    apply Hgap; try lia.
    specialize (IH (ai + size) (bj + size) Hf Hc Hd).
    destruct (size =? 0) eqn:E.
    { apply Nat.eqb_eq in E. subst size. rewrite !Nat.add_0_r in IH.
      rewrite !Nat.add_0_r. exact IH. }
    cbn [app DiffSpec.chain DiffSpec.op_ok].
    refine (conj eq_refl (conj eq_refl (conj _ IH))).
    replace (ai + size - ai) with size by lia.
    replace (bj + size - bj) with size by lia.
    refine (conj _ (conj _ (conj _ (conj _ (conj eq_refl He))))); lia.
Qed.

Lemma get_opcodes_chain :
  chain 0 0 (get_opcodes eqb a b) (length a) (length b).
Proof.
  unfold get_opcodes.
  destruct get_matching_blocks_ok as [blocks [-> H]].
  apply opcodes_from_chain; [exact H | lia | lia].
Qed.

(** *** Groups *)

Local Abbreviation groups_ok := (groups_ok a b).

Lemma same_prefix (i j k k' : nat) : same i j k -> k' <= k -> same i j k'.
Proof.
  intros H Hk. pose proof (same_sub i j k 0 k' H Hk) as H'.
  rewrite !Nat.add_0_r in H'. exact H'.
Qed.

Lemma fixup_leading_ok (n : nat) (codes : list opcode) (i' j' : nat) :
  chain 0 0 codes i' j' ->
  exists s, same 0 0 s /\ chain s s (fixup_leading n codes) i' j'.
Proof.
  destruct codes as [|[[[[t i1] i2] j1] j2] codes]; intros H.
  - exists 0. split; [apply same_nil; lia | exact H].
  - cbn [fixup_leading tag_of]. destruct t; cbn [is_equal];
      try (exists 0; split; [apply same_nil; lia | exact H]).
    destruct H as [-> [-> [[H1 [H2 [H3 [H4 [H5 H6]]]]] H]]].
    rewrite !Nat.sub_0_r in *. subst j2.
    exists (i2 - n). split.
    + apply (same_prefix 0 0 i2); [exact H6 | lia].
    + cbn [context_before DiffSpec.chain DiffSpec.op_ok].
      rewrite !Nat.max_0_l.
      refine (conj eq_refl (conj eq_refl (conj _ H))).
      refine (conj _ (conj _ (conj _ (conj _ (conj eq_refl _))))); try lia.
      pose proof (same_sub 0 0 i2 (i2 - n) (i2 - (i2 - n)) H6
                    ltac:(lia)) as H'.
      exact H'.
Qed.

Lemma fixup_trailing_ok (n : nat) (codes : list opcode) (i j : nat) :
  i <= length a -> j <= length b ->
  chain i j codes (length a) (length b) ->
  exists ei ej,
    chain i j (fixup_trailing n codes) ei ej
    /\ ei <= length a /\ ej <= length b /\ skipn ei a = skipn ej b.
Proof.
  revert i j; induction codes as [|[[[[t i1] i2] j1] j2] codes IH];
    intros i j Hi Hj H.
  - destruct H as [-> ->]. exists (length a), (length b).
    cbn [fixup_trailing DiffSpec.chain].
    rewrite !skipn_all. repeat split; lia.
  - destruct codes as [|c codes].
    + destruct H as [-> [-> [Hop [-> ->]]]].
      cbn [fixup_trailing tag_of].
      destruct t; cbn [is_equal];
        try (exists (length a), (length b);
             refine (conj (conj eq_refl (conj eq_refl
                       (conj Hop (conj eq_refl eq_refl)))) _);
             rewrite !skipn_all; repeat split; lia).
      destruct Hop as [H1 [H2 [H3 [H4 [H5 H6]]]]].
      exists (Nat.min (length a) (i + n)), (Nat.min (length b) (j + n)).
      assert (Ht : skipn i a = skipn j b).
      { apply (same_length_tail i j (length a - i)); [exact H6 | lia | lia]. }
      split; [|split; [lia | split; [lia|]]].
      * cbn [context_after DiffSpec.chain DiffSpec.op_ok].
        refine (conj eq_refl (conj eq_refl (conj _ (conj eq_refl eq_refl)))).
        refine (conj _ (conj _ (conj _ (conj _ (conj _ _))))); try lia.
        apply (same_prefix i j (length a - i)); [exact H6 | lia].
      * replace (Nat.min (length a) (i + n))
          with (i + Nat.min (length a - i) n) by lia.
        replace (Nat.min (length b) (j + n))
          with (j + Nat.min (length a - i) n) by lia.
        rewrite <- !skipn_add, Ht. reflexivity.
    + destruct H as [-> [-> [Hop H]]].
      assert (Hop' := Hop). destruct Hop' as [H1 [H2 [H3 [H4 _]]]].
      destruct (IH i2 j2 H2 H4 H) as [ei [ej [Hc [He1 [He2 He3]]]]].
      exists ei, ej. split; [|tauto].
      change (fixup_trailing n ((t, i, i2, j, j2) :: c :: codes))
        with ((t, i, i2, j, j2) :: fixup_trailing n (c :: codes)).
      cbn [DiffSpec.chain].
      refine (conj eq_refl (conj eq_refl (conj Hop Hc))).
Qed.

Lemma group_codes_ok (n : nat) (codes group : list opcode) (strict : bool)
    (pi pj gi gj ci cj ei ej : nat) :
  pi <= gi -> (strict = true -> pi < gi) ->
  gj = pj + (gi - pi) -> same pi pj (gi - pi) ->
  chain gi gj group ci cj ->
  chain ci cj codes ei ej ->
  ei <= length a -> ej <= length b -> skipn ei a = skipn ej b ->
  groups_ok strict pi pj (group_codes n codes group).
Proof.
  revert group strict pi pj gi gj ci cj;
    induction codes as [|[[[[t i1] i2] j1] j2] codes IH];
    intros group strict pi pj gi gj ci cj Hp Hstrict Hgj Hgap Hg Hc
      He1 He2 He3.
  - destruct Hc as [-> ->].
    assert (Hdrop : skipn gi a = skipn gj b ->
                    groups_ok strict pi pj []).
    { intros Ht. destruct Hgap as [G1 [G2 G3]].
      cbn [DiffSpec.groups_ok]. split; [lia | split; [lia|]].
      apply (same_tail pi pj (gi - pi)).
      - refine (conj G1 (conj G2 G3)).
      - replace (pi + (gi - pi)) with gi by lia. rewrite <- Hgj. exact Ht. }
    assert (Hkeep : group <> [] -> groups_ok strict pi pj [group]).
    { intros Hne. cbn [DiffSpec.groups_ok].
      exists gi, ei, gj, ej.
      refine (conj Hne (conj Hp (conj Hstrict (conj Hgj (conj Hgap
                (conj Hg (conj He1 (conj He2 He3)))))))). }
    cbn [group_codes]. destruct group as [|c group].
    + destruct Hg as [-> ->]. apply Hdrop. exact He3.
    + destruct group as [|c' group]; [|apply Hkeep; discriminate].
      destruct c as [[[[t i1] i2] j1] j2]. cbn [tag_of].
      destruct t; cbn [is_equal]; try (apply Hkeep; discriminate).
      destruct Hg as [-> [-> [[H1 [H2 [H3 [H4 [H5 H6]]]]] [-> ->]]]].
      apply Hdrop. apply (same_tail gi gj (ei - gi) H6).
      replace (gi + (ei - gi)) with ei by lia.
      replace (gj + (ei - gi)) with ej by lia. exact He3.
  - destruct Hc as [-> [-> [Hop Hc]]].
    cbn [group_codes].
    destruct (is_equal t && (n + n <? i2 - ci)) eqn:E.
    + apply andb_true_iff in E. destruct E as [E1 E2].
      destruct t; try discriminate. apply Nat.ltb_lt in E2.
      destruct Hop as [H1 [H2 [H3 [H4 [H5 H6]]]]].
      cbn [context_after context_before DiffSpec.groups_ok].
      exists gi, (Nat.min i2 (ci + n)), gj, (Nat.min j2 (cj + n)).
      replace (Nat.min i2 (ci + n)) with (ci + n) by lia.
      replace (Nat.min j2 (cj + n)) with (cj + n) by lia.
      replace (Nat.max ci (i2 - n)) with (i2 - n) by lia.
      replace (Nat.max cj (j2 - n)) with (j2 - n) by lia.
      refine (conj _ (conj Hp (conj Hstrict (conj Hgj (conj Hgap
                (conj _ _)))))).
      * destruct group; discriminate.
      * apply (chain_app gi gj ci cj); [exact Hg|].
        cbn [DiffSpec.chain DiffSpec.op_ok].
        refine (conj eq_refl (conj eq_refl (conj _ (conj eq_refl eq_refl)))).
        refine (conj _ (conj _ (conj _ (conj _ (conj _ _))))); try lia.
        replace (ci + n - ci) with n by lia.
        apply (same_prefix ci cj (i2 - ci)); [exact H6 | lia].
      * apply (IH [(equal, i2 - n, i2, j2 - n, j2)] true
                 (ci + n) (cj + n) (i2 - n) (j2 - n) i2 j2);
          try assumption; try lia.
        -- pose proof (same_sub ci cj (i2 - ci) n (i2 - n - (ci + n)) H6
                         ltac:(lia)) as H'. exact H'.
        -- cbn [DiffSpec.chain DiffSpec.op_ok].
           refine (conj eq_refl (conj eq_refl (conj _ (conj eq_refl eq_refl)))).
           refine (conj _ (conj _ (conj _ (conj _ (conj _ _))))); try lia.
           pose proof (same_sub ci cj (i2 - ci) (i2 - ci - n)
                         (i2 - (i2 - n)) H6 ltac:(lia)) as H'.
           replace (ci + (i2 - ci - n)) with (i2 - n) in H' by lia.
           replace (cj + (i2 - ci - n)) with (j2 - n) in H' by lia.
           exact H'.
    + apply (IH (group ++ [(t, ci, i2, cj, j2)]) strict pi pj gi gj i2 j2);
        try assumption.
      apply (chain_app gi gj ci cj); [exact Hg|].
      cbn [DiffSpec.chain].
      refine (conj eq_refl (conj eq_refl (conj Hop (conj eq_refl eq_refl)))).
Qed.

Lemma chain_nil_lists (i' j' : nat) :
  chain 0 0 [] (length a) (length b) -> a = [] /\ b = [].
Proof.
  intros [Ha Hb]. split; apply length_zero_iff_nil; congruence.
Qed.

Lemma get_grouped_opcodes_ok (n : nat) :
  groups_ok false 0 0 (get_grouped_opcodes eqb a b n).
Proof.
  unfold get_grouped_opcodes.
  pose proof get_opcodes_chain as Hc.
  destruct (get_opcodes eqb a b) as [|c codes] eqn:E.
  - destruct (chain_nil_lists 0 0 Hc) as [Ha Hb].
    assert (Hg : group_codes n
                   (fixup_trailing n (fixup_leading n [(equal, 0, 1, 0, 1)]))
                   [] = []).
    { destruct n as [|[|n]]; reflexivity. }
    rewrite Hg. cbn [DiffSpec.groups_ok]. rewrite Ha, Hb.
    repeat split; simpl; lia.
  - destruct (fixup_leading_ok n (c :: codes) _ _ Hc) as [s [Hs Hl]].
    assert (Hs' := Hs). destruct Hs' as [S1 [S2 _]].
    destruct (fixup_trailing_ok n _ s s ltac:(lia) ltac:(lia) Hl)
      as [ei [ej [Ht [He1 [He2 He3]]]]].
    apply (group_codes_ok n _ [] false 0 0 s s s s ei ej);
      try assumption; try lia; try discriminate.
    + rewrite Nat.sub_0_r. exact Hs.
    + split; reflexivity.
Qed.

End Facts.

(** *** A sequence against itself *)

Section Identical.

Context {A : Type} (eqb : A -> A -> bool).
Hypothesis eqb_eq : forall x y, eqb x y = true <-> x = y.
Variable s : list A.

(** The length of the run of unpopular elements that ends at [m]. *)
Fixpoint diag_run (m : nat) : nat :=
  match nth_error s m with
  | Some x =>
      if popular eqb s x then 0
      else S match m with
             | O => 0
             | S m' => diag_run m'
             end
  | None => 0
  end.

Definition diag_before (i j : nat) : nat :=
  match i with
  | O => 0
  | S i' => diag_run (Nat.min i' j)
  end.

Lemma indices_from_lb (l : list A) (x : A) (j0 j : nat) :
  In j (indices_from eqb j0 l x) -> j0 <= j.
Proof.
  revert j0; induction l as [|y l IH]; intros j0 H; [destruct H|].
  cbn [indices_from] in H. destruct (eqb y x).
  - destruct H as [<- | H]; [lia|]. apply IH in H. lia.
  - apply IH in H. lia.
Qed.

Lemma indices_from_sorted (l : list A) (x : A) (j0 : nat) :
  StronglySorted lt (indices_from eqb j0 l x).
Proof.
  revert j0; induction l as [|y l IH]; intros j0; [constructor|].
  cbn [indices_from]. destruct (eqb y x); [|apply IH].
  constructor; [apply IH|]. apply Forall_forall. intros j H.
  apply indices_from_lb in H. lia.
Qed.

Lemma indices_from_complete (l : list A) (x : A) (j0 k : nat) :
  nth_error l k = Some x -> In (j0 + k) (indices_from eqb j0 l x).
Proof.
  revert j0 k; induction l as [|y l IH]; intros j0 [|k] H; try discriminate.
  - injection H as ->. cbn [indices_from].
    rewrite (proj2 (eqb_eq x x) eq_refl). left. lia.
  - cbn [indices_from]. specialize (IH (S j0) k H).
    replace (j0 + S k) with (S j0 + k) by lia.
    destruct (eqb y x); [right|]; exact IH.
Qed.

Lemma diag_run_unpopular (m : nat) (x : A) :
  nth_error s m = Some x -> popular eqb s x = false ->
  diag_run m = S match m with O => 0 | S m' => diag_run m' end.
Proof.
  intros H1 H2. destruct m; cbn [diag_run]; rewrite H1, H2; reflexivity.
Qed.

(** The state of the inner loop on row [i], with [js] still to do. *)
Definition row_inv (i : nat) (js : list nat) (m : nat -> nat)
    (best : match_t) : Prop :=
  let '(bi, bj, bk) := best in
  bi = bj
  /\ (forall r, r < i -> diag_run r <= bk)
  /\ (In i js \/ diag_run i <= bk)
  /\ (forall j, m j <= diag_run (Nat.min i j))
  /\ (In i js \/ m i = diag_run i).

Lemma scan_row_diag (i : nat) (x : A) (j2len : nat -> nat) (js : list nat)
    (newj2len : nat -> nat) (best : match_t) :
  nth_error s i = Some x -> popular eqb s x = false ->
  StronglySorted lt js ->
  (forall j, In j js -> nth_error s j = Some x) ->
  (forall j, j2len j <= diag_before i j) ->
  (forall i', i = S i' -> j2len i' = diag_run i') ->
  row_inv i js newj2len best ->
  row_inv i []
    (fst (scan_row i 0 (length s) j2len js newj2len best))
    (snd (scan_row i 0 (length s) j2len js newj2len best)).
Proof.
  intros Hx Hp. revert newj2len best.
  induction js as [|j js IH]; intros newj2len best Hsort Hjs Hold Hdiag Hinv;
    [exact Hinv|].
  cbn [scan_row].
  assert (Hj : nth_error s j = Some x) by (apply Hjs; left; reflexivity).
  assert (Hjl : j < length s) by (apply nth_error_Some; congruence).
  replace (j <? 0) with false by (symmetry; apply Nat.ltb_ge; lia).
  replace (length s <=? j) with false by (symmetry; apply Nat.leb_gt; lia).
  inversion Hsort as [|? ? Hsort' Hall]; subst.
  rewrite Forall_forall in Hall.
  destruct best as [[bi bj] bk].
  destruct Hinv as [I1 [I2 [I3 [I4 I5]]]].
  (* the value stored for this cell is bounded by the diagonal *)
  assert (Hk : S (j2len_get j2len j) <= diag_run (Nat.min i j)).
  { assert (Hmin : nth_error s (Nat.min i j) = Some x).
    { destruct (Nat.min_dec i j) as [-> | ->]; assumption. }
    rewrite (diag_run_unpopular _ x Hmin Hp).
    apply le_n_S. destruct j as [|j']; cbn [j2len_get]; [lia|].
    specialize (Hold j'). unfold diag_before in Hold.
    destruct i as [|i']; [rewrite Nat.min_0_l; lia|].
    rewrite <- Nat.succ_min_distr. exact Hold. }
  assert (Hki : j = i -> S (j2len_get j2len j) = diag_run i).
  { intros ->. rewrite (diag_run_unpopular _ x Hx Hp).
    f_equal. destruct i as [|i']; [reflexivity|].
    cbn [j2len_get]. apply Hdiag. reflexivity. }
  apply IH; try assumption.
  - intros j' H. apply Hjs. right. exact H.
  - unfold row_inv.
    destruct (Nat.lt_trichotomy j i) as [Hlt | [Heq | Hgt]].
    + (* before the diagonal: the best match stays *)
      assert (Hle : S (j2len_get j2len j) <= bk).
      { rewrite Nat.min_r in Hk by lia. specialize (I2 j Hlt). lia. }
      replace (bk <? S (j2len_get j2len j)) with false
        by (symmetry; apply Nat.ltb_ge; exact Hle).
      refine (conj I1 (conj I2 (conj _ (conj _ _)))).
      * destruct I3 as [[H|H]|H]; [lia | left; exact H | right; exact H].
      * intros j'. unfold j2len_set. destruct (j' =? j) eqn:E.
        -- apply Nat.eqb_eq in E. subst j'. exact Hk.
        -- apply I4.
      * destruct I5 as [[H|H]|H]; [lia | left; exact H |].
        right. unfold j2len_set.
        replace (i =? j) with false by (symmetry; apply Nat.eqb_neq; lia).
        exact H.
    + (* on the diagonal *)
      subst j. specialize (Hki eq_refl).
      assert (Hrest : forall m', (forall j', m' j' <= diag_run (Nat.min i j'))
                /\ True -> True) by trivial.
      destruct (bk <? S (j2len_get j2len i)) eqn:E.
      * refine (conj _ (conj _ (conj _ (conj _ _)))).
        -- reflexivity.
        -- intros r Hr. specialize (I2 r Hr). apply Nat.ltb_lt in E. lia.
        -- right. lia.
        -- intros j'. unfold j2len_set. destruct (j' =? i) eqn:E'.
           ++ apply Nat.eqb_eq in E'. subst j'. exact Hk.
           ++ apply I4.
        -- right. unfold j2len_set. rewrite Nat.eqb_refl. exact Hki.
      * apply Nat.ltb_ge in E.
        refine (conj I1 (conj I2 (conj _ (conj _ _)))).
        -- right. lia.
        -- intros j'. unfold j2len_set. destruct (j' =? i) eqn:E'.
           ++ apply Nat.eqb_eq in E'. subst j'. exact Hk.
           ++ apply I4.
        -- right. unfold j2len_set. rewrite Nat.eqb_refl. exact Hki.
    + (* after the diagonal: it was seen already *)
      assert (Hnot : ~ In i (j :: js)).
      { intros [H|H]; [lia|]. apply Hall in H. lia. }
      assert (Hbk : diag_run i <= bk) by (destruct I3; tauto).
      assert (Hle : S (j2len_get j2len j) <= bk).
      { rewrite Nat.min_l in Hk by lia. lia. }
      replace (bk <? S (j2len_get j2len j)) with false
        by (symmetry; apply Nat.ltb_ge; exact Hle).
      refine (conj I1 (conj I2 (conj _ (conj _ _)))).
      * right. exact Hbk.
      * intros j'. unfold j2len_set. destruct (j' =? j) eqn:E.
        -- apply Nat.eqb_eq in E. subst j'. exact Hk.
        -- apply I4.
      * right. unfold j2len_set.
        replace (i =? j) with false by (symmetry; apply Nat.eqb_neq; lia).
        destruct I5; tauto.
Qed.

Lemma scan_rows_diag (len i0 : nat) (j2len : nat -> nat) (best : match_t) :
  i0 + len <= length s ->
  (forall j, j2len j <= diag_before i0 j) ->
  (forall i', i0 = S i' -> j2len i' = diag_run i') ->
  (let '(bi, bj, bk) := best in
   bi = bj /\ forall r, r < i0 -> diag_run r <= bk) ->
  let '(bi, bj, _) :=
    scan_rows eqb s s (seq i0 len) 0 (length s) j2len best in
  bi = bj.
Proof.
  revert i0 j2len best; induction len as [|len IH];
    intros i0 j2len best Hlen Hold Hdiag Hbest.
  - cbn [seq scan_rows]. destruct best as [[bi bj] bk]. apply Hbest.
  - cbn [seq scan_rows].
    destruct (nth_error s i0) as [x|] eqn:Ex.
    2:{ apply nth_error_None in Ex. lia. }
    destruct best as [[bi bj] bk]. destruct Hbest as [B1 B2].
    assert (Hrow : row_inv i0 []
              (fst (scan_row i0 0 (length s) j2len (b2j eqb s x)
                      (fun _ => 0) (bi, bj, bk)))
              (snd (scan_row i0 0 (length s) j2len (b2j eqb s x)
                      (fun _ => 0) (bi, bj, bk)))).
    { unfold b2j. destruct (popular eqb s x) eqn:Ep.
      - cbn [scan_row fst snd row_inv].
        assert (E0 : diag_run i0 = 0).
        { destruct i0; cbn [diag_run]; rewrite Ex, Ep; reflexivity. }
        refine (conj B1 (conj B2 (conj _ (conj _ _)))).
        + right. lia.
        + intros j. lia.
        + right. symmetry. exact E0.
      - apply (scan_row_diag i0 x); try assumption.
        + apply indices_from_sorted.
        + intros j H. pose proof (indices_from_nth eqb eqb_eq s x 0 j H)
            as [_ H']. rewrite Nat.sub_0_r in H'. exact H'.
        + refine (conj B1 (conj B2 (conj _ (conj _ _)))).
          * left. apply (indices_from_complete s x 0 i0 Ex).
          * intros j. lia.
          * left. apply (indices_from_complete s x 0 i0 Ex). }
    destruct (scan_row i0 0 (length s) j2len (b2j eqb s x) (fun _ => 0)
                (bi, bj, bk)) as [m [[bi' bj'] bk']].
    cbn [fst snd row_inv] in Hrow.
    destruct Hrow as [R1 [R2 [R3 [R4 R5]]]].
    apply IH.
    + lia.
    + intros j. cbn [diag_before]. apply R4.
    + intros i' E. injection E as <-. destruct R5 as [[]|R5]. exact R5.
    + split; [exact R1|]. intros r Hr.
      destruct (Nat.eq_dec r i0) as [-> | Hne].
      * destruct R3 as [[]|R3]. exact R3.
      * apply R2. lia.
Qed.

Lemma extend_left_diag (bi bk : nat) :
  bi <= length s ->
  extend_left eqb s s 0 0 bi bi bk = (0, 0, bi + bk).
Proof.
  revert bk; induction bi as [|i' IH]; intros bk H; [reflexivity|].
  cbn [extend_left]. cbn [Nat.ltb Nat.leb andb].
  assert (E : same_at eqb s s i' i' = true).
  { apply (same_at_true eqb eqb_eq).
    destruct (nth_error s i') as [x|] eqn:Ex.
    - exists x. split; reflexivity.
    - apply nth_error_None in Ex. lia. }
  rewrite E, IH by lia. f_equal. lia.
Qed.

Lemma extend_right_diag (room bk : nat) :
  bk + room = length s ->
  extend_right eqb s s room (length s) 0 0 bk = length s.
Proof.
  revert bk; induction room as [|room IH]; intros bk H;
    cbn [extend_right]; [lia|].
  replace (0 + bk <? length s) with true
    by (symmetry; apply Nat.ltb_lt; lia).
  assert (E : same_at eqb s s (0 + bk) (0 + bk) = true).
  { apply (same_at_true eqb eqb_eq).
    destruct (nth_error s (0 + bk)) as [x|] eqn:Ex.
    - exists x. split; reflexivity.
    - apply nth_error_None in Ex. lia. }
  rewrite E. cbn [andb]. apply IH. lia.
Qed.

Lemma find_longest_match_identical :
  find_longest_match eqb s s 0 (length s) 0 (length s) = (0, 0, length s).
Proof.
  unfold find_longest_match.
  pose proof (scan_rows_diag (length s - 0) 0 (fun _ => 0) (0, 0, 0)
                ltac:(lia) ltac:(intros; cbn; lia)
                ltac:(intros; discriminate)
                ltac:(split; [reflexivity | intros; lia])) as Hd.
  pose proof (scan_rows_ok eqb eqb_eq s s 0 0 (length s) (length s)
                (length s - 0) 0 (fun _ => 0) (0, 0, 0) (le_n _)
                ltac:(lia)
                (table_ok_empty s s 0 0 (length s) 0)) as Hs.
  destruct (scan_rows eqb s s (seq 0 (length s - 0)) 0 (length s)
              (fun _ => 0) (0, 0, 0)) as [[bi bj] bk].
  subst bj.
  assert (Hb : best_ok s s 0 0 (length s) (length s) (bi, bi, bk)).
  { apply Hs. unfold best_ok.
    refine (conj _ (conj _ (conj _ (conj _ _)))); try lia.
    apply same_nil; lia. }
  destruct Hb as [_ [Hb _]].
  rewrite extend_left_diag by lia.
  rewrite extend_right_diag by lia. reflexivity.
Qed.

Lemma get_opcodes_identical :
  get_opcodes eqb s s =
  match s with
  | [] => []
  | _ => [(equal, 0, length s, 0, length s)]
  end.
Proof.
  unfold get_opcodes, get_matching_blocks.
  cbn [matching_blocks_rec]. rewrite find_longest_match_identical.
  rewrite Nat.ltb_irrefl. cbn [andb app Nat.add].
  rewrite Nat.ltb_irrefl. cbn [andb].
  destruct s as [|x l]; [reflexivity|].
  cbn [length]. generalize (length l) as m. intros m.
  cbn [Nat.eqb app collapse Nat.add andb opcodes_from].
  rewrite !Nat.ltb_irrefl. reflexivity.
Qed.

Lemma get_grouped_opcodes_identical (n : nat) :
  get_grouped_opcodes eqb s s n = [].
Proof.
  unfold get_grouped_opcodes. rewrite get_opcodes_identical.
  assert (H : forall c, c = (equal, 0, 1, 0, 1)
                        \/ c = (equal, 0, length s, 0, length s) ->
              group_codes n (fixup_trailing n (fixup_leading n [c])) [] = []).
  { intros c Hc.
    assert (E : exists L, c = (equal, 0, L, 0, L))
      by (destruct Hc as [-> | ->]; eexists; reflexivity).
    destruct E as [L ->].
    cbn [fixup_leading fixup_trailing tag_of is_equal context_before
         context_after group_codes].
    rewrite !Nat.max_0_l.
    replace (n + n <? Nat.min L (L - n + n) - (L - n)) with false
      by (symmetry; apply Nat.ltb_ge; lia).
    cbn [andb app group_codes tag_of is_equal]. reflexivity. }
  destruct s; apply H; [left | right]; reflexivity.
Qed.

End Identical.

End DiffFacts.

(** ** [unified_diff] *)

Lemma format_groups_started (a b : list bytes) (fromfile tofile : bytes)
    (groups : list (list Difflib.opcode)) :
  format_groups a b fromfile tofile true groups =
  flat_map (format_group a b) groups.
Proof.
  induction groups as [|g groups IH]; [reflexivity|].
  cbn [format_groups flat_map app]. rewrite IH. reflexivity.
Qed.

Lemma unified_diff_groups (a b : list bytes) (fromfile tofile : bytes)
    (n : nat) :
  unified_diff a b fromfile tofile n =
  match Difflib.get_grouped_opcodes bytes_eqb a b n with
  | [] => []
  | groups =>
      (B "--- " ++ fromfile ++ [nl]) :: (B "+++ " ++ tofile ++ [nl])
      :: flat_map (format_group a b) groups
  end.
Proof.
  unfold unified_diff.
  destruct (Difflib.get_grouped_opcodes bytes_eqb a b n) as [|g groups];
    [reflexivity|].
  cbn [format_groups app flat_map]. rewrite format_groups_started.
  reflexivity.
Qed.

(** C4: the diff of a sequence against itself is empty, whatever the
    number of context lines; in general the two header lines are yielded
    once, before the first group, and not at all when there is no
    group. *)
Theorem unified_diff_headers_once (a b : list bytes)
    (fromfile tofile : bytes) (n : nat) :
  Difflib.get_grouped_opcodes bytes_eqb a a n = []
  /\ unified_diff a a fromfile tofile n = []
  /\ unified_diff a b fromfile tofile n =
     match Difflib.get_grouped_opcodes bytes_eqb a b n with
     | [] => []
     | groups =>
         (B "--- " ++ fromfile ++ [nl]) :: (B "+++ " ++ tofile ++ [nl])
         :: flat_map (format_group a b) groups
     end.
Proof.
  pose proof (DiffFacts.get_grouped_opcodes_identical bytes_eqb bytes_eqb_eq
                a n) as H.
  split; [exact H|]. split; [|apply unified_diff_groups].
  rewrite unified_diff_groups, H. reflexivity.
Qed.

(** C3 fails on the code for context lines: with an unchanged last line
    that has no newline, the diff ends in that line as it is, with no
    newline added and no marker line after it; the deleted and the
    inserted line of the same diff, and an unterminated deleted line, do
    get them.  [write_object_diff] reaches this with two blobs that end
    in the same unterminated line. *)
Theorem unified_diff_context_line_unterminated :
  unified_diff [B "x" ++ [nl]; B "y"] [B "z" ++ [nl]; B "y"] [] [] 3
  = [B "--- " ++ [nl]; B "+++ " ++ [nl]; B "@@ -1,2 +1,2 @@" ++ [nl];
     B "-x" ++ [nl]; B "+z" ++ [nl]; B " y"]
  /\ unified_diff [B "x" ++ [nl]; B "y"] [B "x" ++ [nl]] [] [] 3
     = [B "--- " ++ [nl]; B "+++ " ++ [nl]; B "@@ -1,2 +1,1 @@" ++ [nl];
        B " x" ++ [nl];
        B "-y" ++ [nl] ++ B "\ No newline at end of file" ++ [nl]]
  /\ written
       (write_object_diff
          (fun h => if bytes_eqb h (B "1111111") then Some (B "x" ++ [nl] ++ B "y")
                    else Some (B "z" ++ [nl] ++ B "y"))
          (Some (B "f"), Some 33188%N, Some (B "1111111"))
          (Some (B "f"), Some 33188%N, Some (B "2222222")) false)
     = B "diff --git a/f b/f" ++ [nl] ++ B "index 1111111..2222222 100644"
       ++ [nl] ++ B "--- a/f" ++ [nl] ++ B "+++ b/f" ++ [nl]
       ++ B "@@ -1,2 +1,2 @@" ++ [nl] ++ B "-x" ++ [nl] ++ B "+z" ++ [nl]
       ++ B " y".
Proof. repeat split; vm_compute; reflexivity. Qed.

(** ** Applying the lines of a diff *)

Module ApplyFacts.

Import Difflib DiffSpec PatchApply PatchLines.

Lemma fmt_d_digits (n : nat) :
  Forall (fun c => In c (B "0123456789")) (fmt_d n).
Proof.
  unfold fmt_d. induction (Nat.to_uint n) as [|d IH|d IH|d IH|d IH|d IH
                                              |d IH|d IH|d IH|d IH|d IH];
    cbn [NilEmpty.string_of_uint B list_ascii_of_string];
    constructor; try exact IH; simpl; tauto.
Qed.

Lemma fmt_d_no (c : ascii) (n : nat) :
  ~ In c (B "0123456789") -> ~ In c (fmt_d n).
Proof.
  intros Hc H. pose proof (fmt_d_digits n) as Hd.
  rewrite Forall_forall in Hd. apply Hc. apply Hd. exact H.
Qed.

Lemma uint_of_fmt_d (n : nat) :
  option_map Nat.of_uint
    (NilEmpty.uint_of_string (string_of_list_ascii (fmt_d n))) = Some n.
Proof.
  unfold fmt_d, B.
  rewrite string_of_list_ascii_of_string, NilEmpty.usu. cbn [option_map].
  rewrite Unsigned.of_to. reflexivity.
Qed.

Lemma fmt_d_not_empty (n : nat) : fmt_d n <> [].
Proof.
  intros E. pose proof (uint_of_fmt_d n) as H. rewrite E in H.
  cbn in H. injection H as <-. discriminate E.
Qed.

Lemma parse_nat_fmt_d (n : nat) : parse_nat (fmt_d n) = Some n.
Proof.
  unfold parse_nat. pose proof (fmt_d_not_empty n) as Hne.
  destruct (fmt_d n) as [|c d] eqn:E; [contradiction|].
  rewrite <- E. apply uint_of_fmt_d.
Qed.

Lemma split_at_app (c : ascii) (x rest : bytes) :
  ~ In c x -> split_at c (x ++ c :: rest) = Some (x, rest).
Proof.
  induction x as [|d x IH]; intros H; cbn [app split_at].
  - rewrite Ascii.eqb_refl. reflexivity.
  - rewrite ascii_eqb_false by (intros ->; apply H; left; reflexivity).
    rewrite IH by (intros H'; apply H; right; exact H'). reflexivity.
Qed.

Lemma parse_hunk_header_format (i1 c1 i2 c2 : nat) :
  parse_hunk_header
    (B "@@ -" ++ fmt_d i1 ++ B "," ++ fmt_d c1
     ++ B " +" ++ fmt_d i2 ++ B "," ++ fmt_d c2 ++ B " @@" ++ [nl])
  = Some (i1, c1, i2, c2).
Proof.
  unfold parse_hunk_header. rewrite startswith_app.
  change (skipn 4 (B "@@ -" ++ ?x)) with x.
  change (B "," ++ ?x) with (","%char :: x).
  rewrite split_at_app by (apply fmt_d_no; simpl; intuition discriminate).
  change (B " +" ++ ?x) with (" "%char :: "+"%char :: x).
  rewrite split_at_app by (apply fmt_d_no; simpl; intuition discriminate).
  change (B "," ++ ?x) with (","%char :: x).
  rewrite split_at_app by (apply fmt_d_no; simpl; intuition discriminate).
  change (B " @@" ++ [nl]) with (" "%char :: B "@@" ++ [nl]).
  rewrite split_at_app by (apply fmt_d_no; simpl; intuition discriminate).
  rewrite bytes_eqb_refl, !parse_nat_fmt_d. reflexivity.
Qed.

Section Apply.

Variables a b : list bytes.

Lemma apply_context (xs old new rest : list bytes) (pos c1 c2 : nat) :
  apply_hunks (map (fun line => B " " ++ line) xs ++ rest) pos (xs ++ old) new
    (length xs + c1) (length xs + c2)
  = apply_hunks rest (pos + length xs) old (new ++ xs) c1 c2.
Proof.
  revert pos new; induction xs as [|x xs IH]; intros pos new.
  - cbn [map app length]. rewrite Nat.add_0_r, app_nil_r. reflexivity.
  - cbn [map app length Nat.add apply_hunks B list_ascii_of_string Ascii.eqb
         Bool.eqb].
    rewrite bytes_eqb_refl, IH, <- app_assoc.
    cbn [app]. f_equal. lia.
Qed.

Lemma apply_deleted (xs old new rest : list bytes) (pos c1 c2 : nat) :
  apply_hunks (map (fun line => B "-" ++ line) xs ++ rest) pos (xs ++ old) new
    (length xs + c1) c2
  = apply_hunks rest (pos + length xs) old new c1 c2.
Proof.
  revert pos; induction xs as [|x xs IH]; intros pos.
  - cbn [map app length]. rewrite Nat.add_0_r. reflexivity.
  - cbn [map app length Nat.add apply_hunks B list_ascii_of_string Ascii.eqb
         Bool.eqb].
    rewrite bytes_eqb_refl, IH. f_equal. lia.
Qed.

Lemma apply_inserted (ys old new rest : list bytes) (pos c1 c2 : nat) :
  apply_hunks (map (fun line => B "+" ++ line) ys ++ rest) pos old new
    c1 (length ys + c2)
  = apply_hunks rest pos old (new ++ ys) c1 c2.
Proof.
  revert new; induction ys as [|y ys IH]; intros new.
  - cbn [map app]. rewrite app_nil_r. reflexivity.
  - cbn [map app length Nat.add apply_hunks B list_ascii_of_string Ascii.eqb
         Bool.eqb].
    rewrite IH, <- app_assoc. reflexivity.
Qed.

Lemma skipn_slice (l : list bytes) (i1 i2 : nat) :
  i1 <= i2 -> skipn i1 l = slice l i1 i2 ++ skipn i2 l.
Proof.
  intros H. unfold slice.
  replace i2 with (i1 + (i2 - i1)) at 2 by lia.
  rewrite <- skipn_add. symmetry. apply firstn_skipn.
Qed.

Lemma firstn_slice (l : list bytes) (j1 j2 : nat) :
  j1 <= j2 -> firstn j2 l = firstn j1 l ++ slice l j1 j2.
Proof.
  intros H. unfold slice.
  replace j2 with (j1 + (j2 - j1)) at 1 by lia.
  apply DiffFacts.firstn_add.
Qed.

Lemma length_slice (l : list bytes) (i1 i2 : nat) :
  i1 <= i2 -> i2 <= length l -> length (slice l i1 i2) = i2 - i1.
Proof.
  intros H1 H2. unfold slice. rewrite length_firstn, length_skipn. lia.
Qed.

Lemma apply_opcode (t : tag) (i1 i2 j1 j2 : nat) (rest : list bytes)
    (c1 c2 : nat) :
  op_ok a b (t, i1, i2, j1, j2) ->
  apply_hunks (plain_opcode a b (t, i1, i2, j1, j2) ++ rest) i1
    (skipn i1 a) (firstn j1 b) ((i2 - i1) + c1) ((j2 - j1) + c2)
  = apply_hunks rest i2 (skipn i2 a) (firstn j2 b) c1 c2.
Proof.
  intros [H1 [H2 [H3 [H4 H5]]]].
  rewrite (skipn_slice a i1 i2 H1), (firstn_slice b j1 j2 H3).
  assert (La : length (slice a i1 i2) = i2 - i1)
    by (apply length_slice; lia).
  assert (Lb : length (slice b j1 j2) = j2 - j1)
    by (apply length_slice; lia).
  assert (Hl : i1 + length (slice a i1 i2) = i2) by lia.
  rewrite <- La, <- Lb.
  cbn [plain_opcode]. destruct t.
  - destruct H5 as [H5 [_ [_ H6]]].
    assert (E : slice a i1 i2 = slice b j1 j2).
    { unfold slice. rewrite <- H5. exact H6. }
    rewrite <- E at 1. rewrite apply_context, Hl, E. reflexivity.
  - rewrite <- app_assoc, apply_deleted, apply_inserted, Hl. reflexivity.
  - subst j2. rewrite app_nil_r.
    replace (length (slice b j1 j1)) with 0 by (rewrite Lb; lia).
    cbn [Nat.add]. rewrite apply_deleted, Hl.
    unfold slice at 1. rewrite Nat.sub_diag. cbn [firstn].
    rewrite app_nil_r. reflexivity.
  - subst i2. cbn [app].
    replace (length (slice a i1 i1)) with 0 by (rewrite La; lia).
    cbn [Nat.add]. rewrite apply_inserted.
    unfold slice at 1. rewrite Nat.sub_diag. reflexivity.
Qed.

Lemma apply_chain (ops : list opcode) (i j i' j' : nat)
    (rest : list bytes) (c1 c2 : nat) :
  chain a b i j ops i' j' ->
  apply_hunks (flat_map (plain_opcode a b) ops ++ rest) i
    (skipn i a) (firstn j b) ((i' - i) + c1) ((j' - j) + c2)
  = apply_hunks rest i' (skipn i' a) (firstn j' b) c1 c2.
Proof.
  revert i j; induction ops as [|[[[[t i1] i2] j1] j2] ops IH];
    intros i j H.
  - destruct H as [-> ->]. rewrite !Nat.sub_diag. reflexivity.
  - destruct H as [-> [-> [Hop H]]].
    destruct (DiffFacts.chain_le _ _ _ _ _ _ _ H) as [L1 L2].
    assert (Hop' := Hop). destruct Hop' as [B1 [_ [B3 _]]].
    cbn [flat_map]. rewrite <- app_assoc.
    replace (i' - i + c1) with ((i2 - i) + ((i' - i2) + c1)) by lia.
    replace (j' - j + c2) with ((j2 - j) + ((j' - j2) + c2)) by lia.
    rewrite (apply_opcode _ _ _ _ _ _ _ _ Hop).
    apply IH. exact H.
Qed.

Lemma group_range_chain (g : list opcode) (i1 j1 i2 j2 : nat) :
  g <> [] -> chain a b i1 j1 g i2 j2 -> group_range g = (i1, i2, j1, j2).
Proof.
  intros Hne H. unfold group_range. cbv zeta.
  destruct g as [|[[[[t x1] x2] y1] y2] g]; [congruence|].
  assert (Hhd : x1 = i1 /\ y1 = j1) by (destruct H as [? [? _]]; tauto).
  destruct Hhd as [-> ->]. cbn [hd].
  assert (Hlast : forall (d : opcode) i j,
            chain a b i j ((t, i1, x2, j1, y2) :: g) i2 j2
            -> exists t' u v,
                 @last opcode ((t, i1, x2, j1, y2) :: g) d
                 = (t', u, i2, v, j2)).
  { clear. generalize ((t, i1, x2, j1, y2) : opcode) as c. clear.
    induction g as [|c' g IH]; intros c d i j H.
    - destruct c as [[[[t u] u2] v] v2].
      destruct H as [_ [_ [_ [-> ->]]]]. cbn [last]. eauto.
    - destruct c as [[[[t u] u2] v] v2]. destruct H as [_ [_ [_ H]]].
      change (last (?x :: c' :: g) d) with (last (c' :: g) d).
      apply (IH c' d u2 v2 H). }
  destruct (Hlast (equal, 0, 0, 0, 0) i1 j1 H) as [t' [u [v E]]].
  change (@last opcode ((t, i1, x2, j1, y2) :: g) (equal, 0, 0, 0, 0))
    with (@last opcode ((t, i1, x2, j1, y2) :: g) (equal, 0, 0, 0, 0)) in E.
  match goal with
  | |- context [last ?l ?d] =>
      change (last l d)
        with (@last opcode ((t, i1, x2, j1, y2) :: g) (equal, 0, 0, 0, 0))
  end.
  rewrite E. reflexivity.
Qed.

Lemma apply_groups (groups : list (list opcode)) (strict : bool)
    (pi pj : nat) :
  pi <= length a -> pj <= length b ->
  groups_ok a b strict pi pj groups ->
  Forall (fun g => let '(i1, i2, j1, j2) := group_range g in
                   i1 < i2 /\ j1 < j2) groups ->
  apply_hunks (flat_map (plain_group a b) groups) pi
    (skipn pi a) (firstn pj b) 0 0
  = Some b.
Proof.
  revert strict pi pj; induction groups as [|g groups IH];
    intros strict pi pj Hpi Hpj H Hr.
  - destruct H as [_ [_ H]]. cbn [flat_map apply_hunks Nat.eqb andb].
    rewrite H. f_equal. apply firstn_skipn.
  - destruct H as [i1 [i2 [j1 [j2 [Hne [H1 [_ [H2 [H3 [H4 H5]]]]]]]]]].
    inversion Hr as [|g0 gs Hg Hgs]; subst g0 gs.
    rewrite (group_range_chain g i1 j1 i2 j2 Hne H4) in Hg.
    destruct Hg as [R1 R2].
    cbn [flat_map plain_group app].
    unfold hunk_header. rewrite (group_range_chain g i1 j1 i2 j2 Hne H4).
    change (B "@@ -" ++ ?x) with ("@"%char :: "@"%char :: " "%char
                                  :: "-"%char :: x) at 1.
    cbn [apply_hunks Ascii.eqb Bool.eqb Nat.eqb andb].
    change ("@"%char :: "@"%char :: " "%char :: "-"%char :: ?x)
      with (B "@@ -" ++ x).
    rewrite parse_hunk_header_format.
    destruct H3 as [G1 [G2 G3]].
    assert (Ra : range_start (i1 + 1) (i2 - i1) = Some i1).
    { destruct (i2 - i1) eqn:E; [lia|]. rewrite Nat.add_1_r. reflexivity. }
    assert (Rb : range_start (j1 + 1) (j2 - j1) = Some j1).
    { destruct (j2 - j1) eqn:E; [lia|]. rewrite Nat.add_1_r. reflexivity. }
    rewrite Ra, Rb.
    replace (pi <=? i1) with true by (symmetry; apply Nat.leb_le; lia).
    replace (i1 - pi <=? length (skipn pi a)) with true
      by (symmetry; apply Nat.leb_le; rewrite length_skipn; lia).
    replace (length (firstn pj b) + (i1 - pi) =? j1) with true
      by (symmetry; apply Nat.eqb_eq; rewrite length_firstn; lia).
    cbn [andb]. rewrite skipn_add.
    replace (pi + (i1 - pi)) with i1 by lia.
    rewrite G3, <- DiffFacts.firstn_add, <- H2.
    replace (i2 - i1) with ((i2 - i1) + 0) at 1 by lia.
    replace (j2 - j1) with ((j2 - j1) + 0) at 1 by lia.
    rewrite (apply_chain g i1 j1 i2 j2 _ 0 0 H4).
    destruct (DiffFacts.chain_end_bound a b i1 j1 i2 j2 g
                ltac:(lia) ltac:(lia) H4) as [Hi2 Hj2].
    apply (IH true i2 j2 Hi2 Hj2 H5 Hgs).
Qed.

End Apply.

End ApplyFacts.

(** ** Reading the text of a diff *)

Module RenderFacts.

Import Difflib DiffSpec PatchApply PatchLines.

Lemma readlines_line (s X : bytes) :
  nl_free s -> readlines (s ++ nl :: X) = (s ++ [nl]) :: readlines X.
Proof.
  unfold nl_free. induction s as [|c s IH]; intros H; cbn [app readlines].
  - rewrite Ascii.eqb_refl. reflexivity.
  - rewrite ascii_eqb_false by (intros ->; apply H; left; reflexivity).
    rewrite IH by (intros H'; apply H; right; exact H'). reflexivity.
Qed.

Lemma readlines_open (s : bytes) :
  nl_free s -> s <> [] -> readlines s = [s].
Proof.
  unfold nl_free. induction s as [|c s IH]; intros H Hne; [congruence|].
  cbn [readlines].
  rewrite ascii_eqb_false by (intros ->; apply H; left; reflexivity).
  destruct s as [|d s]; [reflexivity|].
  rewrite IH; [reflexivity | | discriminate].
  intros H'. apply H. right. exact H'.
Qed.

Lemma readlines_hd (c : ascii) (X : bytes) :
  exists m rest, readlines (c :: X) = (c :: m) :: rest.
Proof.
  cbn [readlines]. destruct (Ascii.eqb c nl); [eauto|].
  destruct (readlines X); eauto.
Qed.

Lemma ends_with_newline_snoc (s : bytes) : ends_with_newline (s ++ [nl]) = true.
Proof.
  induction s as [|c s IH]; [reflexivity|].
  cbn [app ends_with_newline]. destruct (s ++ [nl]) eqn:E; [|exact IH].
  destruct s; discriminate.
Qed.

Lemma chomp_snoc (s : bytes) : chomp (s ++ [nl]) = s.
Proof.
  unfold chomp. rewrite ends_with_newline_snoc. apply removelast_last.
Qed.

Lemma join_complete (c e X : bytes) :
  complete c e -> X = [] \/ first_ok X ->
  join_markers (readlines (c ++ X)) = e :: join_markers (readlines X).
Proof.
  intros Hc HX. destruct Hc as [s Hs Hf | s Hs Hf].
  - rewrite <- app_assoc. cbn [app]. rewrite (readlines_line s X Hs).
    destruct HX as [-> | HX]; [reflexivity|].
    destruct X as [|ch X]; [destruct HX|].
    destruct (readlines_hd ch X) as [m [rest E]]. rewrite E.
    cbn [join_markers is_marker startswith B list_ascii_of_string].
    rewrite ascii_eqb_false by (intros H; apply HX; symmetry; exact H).
    reflexivity.
  - unfold no_newline_marker. rewrite <- app_assoc. cbn [app].
    rewrite (readlines_line s _ Hs). rewrite <- app_assoc. cbn [app].
    rewrite (readlines_line (B "\ No newline at end of file") X)
      by (unfold nl_free; simpl; intuition discriminate).
    cbn [join_markers]. rewrite chomp_snoc. reflexivity.
Qed.

Lemma first_ok_app (s X : bytes) : first_ok s -> first_ok (s ++ X).
Proof. destruct s; [intros [] | intros H; exact H]. Qed.

Lemma complete_first (c e : bytes) : complete c e -> first_ok c.
Proof. intros [s _ H | s _ H]; apply first_ok_app; exact H. Qed.

Lemma ends_with_newline_app (x y : bytes) :
  y <> [] -> ends_with_newline (x ++ y) = ends_with_newline y.
Proof.
  intros Hy. induction x as [|c x IH]; [reflexivity|].
  cbn [app]. cbn [ends_with_newline].
  destruct (x ++ y) eqn:E; [|exact IH].
  apply app_eq_nil in E. tauto.
Qed.

Lemma complete_ends (c e : bytes) :
  complete c e -> ends_with_newline c = true.
Proof.
  intros [s _ _ | s _ _]; [apply ends_with_newline_snoc|].
  unfold no_newline_marker.
  change (nl :: ?x ++ [nl]) with ((nl :: x) ++ [nl]).
  rewrite app_assoc. apply ends_with_newline_snoc.
Qed.

Lemma completes_first (cs es : list bytes) :
  Forall2 complete cs es -> cs = [] \/ first_ok (concat cs).
Proof.
  intros [|c e cs' es' Hc _]; [left; reflexivity|].
  right. cbn [concat]. apply first_ok_app. apply (complete_first c e Hc).
Qed.

Lemma completes_join (cs es : list bytes) :
  Forall2 complete cs es -> join_markers (readlines (concat cs)) = es.
Proof.
  induction 1 as [|c e cs es Hc Hr IH]; [reflexivity|].
  cbn [concat]. rewrite (join_complete c e _ Hc), IH; [reflexivity|].
  destruct (completes_first cs es Hr) as [-> | H];
    [left; reflexivity | right; exact H].
Qed.

Lemma ends_with_newline_cons (c : ascii) (s : bytes) :
  s <> [] -> ends_with_newline (c :: s) = ends_with_newline s.
Proof. destruct s; [congruence | reflexivity]. Qed.

Lemma readlines_terminated (s : bytes) :
  s = [] \/ ends_with_newline s = true ->
  forallb ends_with_newline (readlines s) = true.
Proof.
  intros [-> | H]; [reflexivity|].
  induction s as [|c s IH]; [discriminate|].
  destruct s as [|d s].
  - cbn in H. apply Ascii.eqb_eq in H. subst c. reflexivity.
  - rewrite ends_with_newline_cons in H by discriminate.
    specialize (IH H).
    change (readlines (c :: d :: s))
      with (if Ascii.eqb c nl then [c] :: readlines (d :: s)
            else match readlines (d :: s) with
                 | [] => [[c]]
                 | l :: ls => (c :: l) :: ls
                 end).
    destruct (Ascii.eqb c nl) eqn:E.
    + apply Ascii.eqb_eq in E. subst c. cbn [forallb].
      rewrite IH. reflexivity.
    + destruct (readlines_hd d s) as [m [rest E']]. rewrite E' in *.
      cbn [forallb] in *. rewrite ends_with_newline_cons by discriminate.
      exact IH.
Qed.

Lemma completes_ends (cs es : list bytes) :
  Forall2 complete cs es ->
  concat cs = [] \/ ends_with_newline (concat cs) = true.
Proof.
  induction 1 as [|c e cs es Hc Hr IH]; [left; reflexivity|].
  right. cbn [concat]. destruct IH as [-> | IH].
  - rewrite app_nil_r. apply (complete_ends c e Hc).
  - rewrite ends_with_newline_app; [exact IH|].
    intros E. rewrite E in IH. discriminate.
Qed.

Lemma completes_text (cs es : list bytes) :
  Forall2 complete cs es ->
  text_lines (concat cs) = Some (readlines (concat cs)).
Proof.
  intros H. unfold text_lines.
  rewrite (readlines_terminated _ (completes_ends cs es H)). reflexivity.
Qed.

(** *** Lines *)

Lemma no_newline_free (s : bytes) : no_newline s = true <-> nl_free s.
Proof.
  unfold no_newline, nl_free. rewrite forallb_forall. split.
  - intros H Hin. specialize (H nl Hin). rewrite Ascii.eqb_refl in H.
    discriminate.
  - intros H c Hc. destruct (Ascii.eqb c nl) eqn:E; [|reflexivity].
    apply Ascii.eqb_eq in E. subst c. contradiction.
Qed.

Lemma ends_with_newline_last (x : bytes) :
  ends_with_newline x = true -> x = removelast x ++ [nl].
Proof.
  induction x as [|c x IH]; [discriminate|].
  destruct x as [|d x].
  - cbn. intros H. apply Ascii.eqb_eq in H. subst c. reflexivity.
  - intros H. change (ends_with_newline (c :: d :: x))
      with (ends_with_newline (d :: x)) in H.
    change (removelast (c :: d :: x)) with (c :: removelast (d :: x)).
    cbn [app]. f_equal. apply IH. exact H.
Qed.

Lemma full_line_split (x : bytes) :
  full_line x = true -> exists s, x = s ++ [nl] /\ nl_free s.
Proof.
  unfold full_line. intros H. apply andb_true_iff in H.
  destruct H as [H1 H2]. exists (removelast x). split.
  - apply ends_with_newline_last. exact H1.
  - apply no_newline_free. exact H2.
Qed.

Lemma open_line_free (x : bytes) :
  no_newline (removelast x) = true -> ends_with_newline x = false ->
  nl_free x.
Proof.
  intros H1 H2. apply no_newline_free in H1. unfold nl_free in *.
  induction x as [|c x IH]; [intros []|].
  destruct x as [|d x].
  - intros [Hc | []]. subst c. cbn in H2. discriminate.
  - change (ends_with_newline (c :: d :: x))
      with (ends_with_newline (d :: x)) in H2.
    change (removelast (c :: d :: x)) with (c :: removelast (d :: x)) in H1.
    intros [Hc | H].
    + apply H1. left. exact Hc.
    + apply IH; [|exact H2 | exact H].
      intros H'. apply H1. right. exact H'.
Qed.

Lemma tagged_complete (t : ascii) (x : bytes) :
  t <> "\"%char -> t <> nl ->
  no_newline (removelast x) = true ->
  complete (t :: terminate x) (t :: x).
Proof.
  intros Ht1 Ht2 Hx. unfold terminate.
  destruct (ends_with_newline x) eqn:E.
  - rewrite (ends_with_newline_last x E).
    apply (complete_line (t :: removelast x)); [|exact Ht1].
    apply no_newline_free in Hx. intros [H|H]; [congruence | contradiction].
  - apply (complete_marked (t :: x)); [|exact Ht1].
    pose proof (open_line_free x Hx E) as Hf.
    intros [H|H]; [congruence | contradiction].
Qed.

Lemma context_complete (x : bytes) :
  full_line x = true -> complete (" "%char :: x) (" "%char :: x).
Proof.
  intros H. destruct (full_line_split x H) as [s [-> Hs]].
  apply (complete_line (" "%char :: s)); [|discriminate].
  intros [H'|H']; [discriminate | contradiction].
Qed.

Lemma line_sequence_nth (ls : list bytes) (i : nat) (x : bytes) :
  line_sequence ls = true -> nth_error ls i = Some x ->
  no_newline (removelast x) = true
  /\ (S i < length ls -> full_line x = true).
Proof.
  revert i; induction ls as [|l ls IH]; intros i H Hn;
    [destruct i; discriminate|].
  destruct ls as [|l' ls].
  - destruct i as [|i]; [|destruct i; discriminate].
    injection Hn as ->. cbn in H. split; [exact H | cbn; lia].
  - change (line_sequence (l :: l' :: ls))
      with (full_line l && line_sequence (l' :: ls)) in H.
    apply andb_true_iff in H. destruct H as [H1 H2].
    destruct i as [|i].
    + injection Hn as ->. split; [|intros _; exact H1].
      unfold full_line in H1. apply andb_true_iff in H1. apply H1.
    + destruct (IH i H2 Hn) as [H3 H4]. split; [exact H3|].
      intros H. apply H4. cbn [length] in *. lia.
Qed.

Lemma In_slice (l : list bytes) (i1 i2 : nat) (x : bytes) :
  In x (slice l i1 i2) ->
  exists k, i1 <= k /\ k < i2 /\ nth_error l k = Some x.
Proof.
  unfold slice. intros H. apply In_nth_error in H. destruct H as [m H].
  rewrite nth_error_firstn in H. destruct (m <? i2 - i1) eqn:E;
    [|discriminate].
  apply Nat.ltb_lt in E. rewrite nth_error_skipn in H.
  exists (i1 + m). repeat split; [lia | lia | exact H].
Qed.

Lemma slice_split (l : list bytes) (i1 i2 i3 : nat) :
  i1 <= i2 -> i2 <= i3 -> slice l i1 i3 = slice l i1 i2 ++ slice l i2 i3.
Proof.
  intros H1 H2. unfold slice.
  replace (i3 - i1) with ((i2 - i1) + (i3 - i2)) by lia.
  rewrite DiffFacts.firstn_add, skipn_add.
  replace (i1 + (i2 - i1)) with i2 by lia. reflexivity.
Qed.

Lemma slice_one (l : list bytes) (i : nat) (x : bytes) :
  nth_error l i = Some x -> slice l i (S i) = [x].
Proof.
  intros H. unfold slice. replace (S i - i) with 1 by lia.
  rewrite (DiffFacts.skipn_nth_cons l i x H). reflexivity.
Qed.

Lemma slice_empty (l : list bytes) (i : nat) : slice l i i = [].
Proof. unfold slice. rewrite Nat.sub_diag. reflexivity. Qed.

Lemma Forall2_map_complete (P : bytes -> Prop) (f g : bytes -> bytes)
    (xs : list bytes) :
  (forall x, P x -> complete (f x) (g x)) -> Forall P xs ->
  Forall2 complete (map f xs) (map g xs).
Proof.
  intros Hfg. induction 1 as [|x xs Hx _ IH]; cbn [map]; constructor;
    [apply Hfg; exact Hx | exact IH].
Qed.

Lemma nth_error_last (l : list bytes) (x : bytes) :
  nth_error l (length l - 1) = Some x -> last l [] = x.
Proof.
  induction l as [|y l IH]; [discriminate|].
  destruct l as [|z l].
  - cbn. intros H. injection H as ->. reflexivity.
  - replace (length (y :: z :: l) - 1) with (S (length (z :: l) - 1))
      by (cbn [length]; lia).
    change (last (y :: z :: l) []) with (last (z :: l) []).
    cbn [nth_error]. exact IH.
Qed.

Lemma unterminated_last (l : list bytes) (k : nat) (x : bytes) :
  line_sequence l = true -> nth_error l k = Some x ->
  ends_with_newline x = false -> last l [] = x.
Proof.
  intros Hl Hk E. destruct (line_sequence_nth l k x Hl Hk) as [_ Hf].
  assert (Hlt : k < length l) by (apply nth_error_Some; congruence).
  destruct (Nat.lt_ge_cases (S k) (length l)) as [H | H].
  - specialize (Hf H). unfold full_line in Hf. rewrite E in Hf.
    discriminate.
  - apply nth_error_last. replace (length l - 1) with k by lia. exact Hk.
Qed.

Lemma in_app3 (c : ascii) (x y : bytes) :
  ~ In c x -> ~ In c y -> ~ In c (x ++ y).
Proof. intros H1 H2 H. apply in_app_or in H. tauto. Qed.

Section Render.

Variables a b : list bytes.
Hypothesis Ha : line_sequence a = true.
Hypothesis Hb : line_sequence b = true.
Hypothesis Hlast :
  ends_with_newline (last a []) = true \/ last a [] <> last b [].

Lemma slice_lines (l : list bytes) (i1 i2 : nat) :
  line_sequence l = true ->
  Forall (fun x => no_newline (removelast x) = true) (slice l i1 i2).
Proof.
  intros Hl. apply Forall_forall. intros x H.
  destruct (In_slice l i1 i2 x H) as [k [_ [_ Hk]]].
  apply (line_sequence_nth l k x Hl Hk).
Qed.

Lemma tagged_render (t : ascii) (l : list bytes) (i1 i2 : nat) :
  t <> "\"%char -> t <> nl -> line_sequence l = true ->
  Forall2 complete
    (map (fun line => t :: terminate line) (slice l i1 i2))
    (map (fun line => t :: line) (slice l i1 i2)).
Proof.
  intros H1 H2 Hl.
  apply (Forall2_map_complete
           (fun x => no_newline (removelast x) = true)).
  - intros x Hx. apply tagged_complete; assumption.
  - apply slice_lines. exact Hl.
Qed.

(** A line common to both files has its newline. *)
Lemma context_full (i1 i2 j1 j2 : nat) :
  op_ok a b (equal, i1, i2, j1, j2) ->
  Forall (fun x => full_line x = true) (slice a i1 i2).
Proof.
  intros [H1 [H2 [H3 [H4 [H5 [_ [_ H6]]]]]]].
  apply Forall_forall. intros x Hx.
  destruct (In_slice a i1 i2 x Hx) as [k [K1 [K2 Hk]]].
  destruct (line_sequence_nth a k x Ha Hk) as [Hn _].
  unfold full_line. rewrite Hn, andb_true_r.
  destruct (ends_with_newline x) eqn:E; [reflexivity | exfalso].
  assert (La : last a [] = x) by (apply (unterminated_last a k x Ha Hk E)).
  assert (Eb : nth_error b (j1 + (k - i1)) = Some x).
  { assert (Ea : nth_error (firstn (i2 - i1) (skipn i1 a)) (k - i1)
                 = Some x).
    { rewrite nth_error_firstn.
      replace (k - i1 <? i2 - i1) with true
        by (symmetry; apply Nat.ltb_lt; lia).
      rewrite nth_error_skipn.
      replace (i1 + (k - i1)) with k by lia. exact Hk. }
    rewrite H6, nth_error_firstn in Ea.
    replace (k - i1 <? i2 - i1) with true in Ea
      by (symmetry; apply Nat.ltb_lt; lia).
    rewrite nth_error_skipn in Ea. exact Ea. }
  assert (Lb : last b [] = x) by (apply (unterminated_last b _ x Hb Eb E)).
  destruct Hlast as [H | H].
  - rewrite La, E in H. discriminate.
  - apply H. congruence.
Qed.

Lemma opcode_render (t : tag) (i1 i2 j1 j2 : nat) :
  op_ok a b (t, i1, i2, j1, j2) ->
  Forall2 complete (format_opcode a b (t, i1, i2, j1, j2))
    (plain_opcode a b (t, i1, i2, j1, j2)).
Proof.
  intros Hop. cbn [format_opcode plain_opcode].
  change (fun line : bytes => B " " ++ line)
    with (fun line : bytes => " "%char :: line).
  change (fun line : bytes => B "-" ++ terminate line)
    with (fun line : bytes => "-"%char :: terminate line).
  change (fun line : bytes => B "+" ++ terminate line)
    with (fun line : bytes => "+"%char :: terminate line).
  change (fun line : bytes => B "-" ++ line)
    with (fun line : bytes => "-"%char :: line).
  change (fun line : bytes => B "+" ++ line)
    with (fun line : bytes => "+"%char :: line).
  destruct t.
  - apply (Forall2_map_complete (fun x => full_line x = true));
      [apply context_complete | apply (context_full i1 i2 j1 j2 Hop)].
  - apply Forall2_app; apply tagged_render;
      try discriminate; assumption.
  - rewrite !app_nil_r. apply tagged_render;
      try discriminate; assumption.
  - cbn [app]. apply tagged_render; try discriminate; assumption.
Qed.

Lemma chain_render (ops : list opcode) (i j i' j' : nat) :
  chain a b i j ops i' j' ->
  Forall2 complete (flat_map (format_opcode a b) ops)
    (flat_map (plain_opcode a b) ops).
Proof.
  revert i j; induction ops as [|[[[[t i1] i2] j1] j2] ops IH];
    intros i j H; [constructor|].
  destruct H as [-> [-> [Hop H]]]. cbn [flat_map].
  apply Forall2_app; [apply opcode_render; exact Hop | apply (IH i2 j2 H)].
Qed.

Lemma hunk_header_complete (g : list opcode) :
  complete (hunk_header g) (hunk_header g).
Proof.
  unfold hunk_header. destruct (group_range g) as [[[i1 i2] j1] j2].
  rewrite !app_assoc.
  apply complete_line.
  - unfold nl_free. rewrite <- !app_assoc.
    repeat (apply in_app3;
            [first [apply ApplyFacts.fmt_d_no; simpl; intuition discriminate
                   | simpl; intuition discriminate]|]).
    simpl; intuition discriminate.
  - rewrite <- !app_assoc. cbn. discriminate.
Qed.

Lemma groups_render (groups : list (list opcode)) (strict : bool)
    (pi pj : nat) :
  groups_ok a b strict pi pj groups ->
  Forall2 complete (flat_map (format_group a b) groups)
    (flat_map (plain_group a b) groups).
Proof.
  revert strict pi pj; induction groups as [|g groups IH];
    intros strict pi pj H; [constructor|].
  destruct H as [i1 [i2 [j1 [j2 [Hne [H1 [_ [H2 [H3 [H4 H5]]]]]]]]]].
  cbn [flat_map format_group plain_group app].
  constructor; [apply hunk_header_complete|].
  apply Forall2_app; [apply (chain_render g i1 j1 i2 j2 H4)|].
  apply (IH true i2 j2 H5).
Qed.

End Render.

End RenderFacts.

(** C2: the round trip fails when the two files end with the same line
    and that line has no newline.  Below, the last line of both files
    comes out as the context line [ b], with no newline and no marker
    after it: what [unified_diff] yields is no text of lines, and the
    reference refuses it.  With the marker that the deleted and inserted
    lines get, the same text gives [b] back. *)
Theorem unified_diff_round_trip_fails :
  let a := [B "a" ++ [nl]; B "b"] in
  let b := [B "b"] in
  let text := concat (unified_diff a b (B "a/f") (B "b/f") 3) in
  line_sequence a = true /\ line_sequence b = true
  /\ text = B "--- a/f" ++ [nl] ++ B "+++ b/f" ++ [nl]
            ++ B "@@ -1,2 +1,1 @@" ++ [nl] ++ B "-a" ++ [nl] ++ B " b"
  /\ PatchApply.apply_patch a text = None
  /\ PatchApply.apply_patch a (text ++ no_newline_marker) = Some b.
Proof. cbv zeta. repeat split; vm_compute; reflexivity. Qed.

(** ** Writing a patch mail and reading it back *)

Module MailFacts.

Lemma universal_newlines_app (x y : bytes) :
  ~ In cr x ->
  Email.universal_newlines (x ++ y) = x ++ Email.universal_newlines y.
Proof.
  induction x as [|c x IH]; intros H; [reflexivity|].
  cbn [app Email.universal_newlines].
  rewrite ascii_eqb_false by (intros ->; apply H; left; reflexivity).
  rewrite IH by (intros H'; apply H; right; exact H'). reflexivity.
Qed.

Lemma concat_readlines (s : bytes) : concat (readlines s) = s.
Proof.
  induction s as [|c s IH]; [reflexivity|]. cbn [readlines].
  destruct (Ascii.eqb c nl).
  - cbn [concat app]. rewrite IH. reflexivity.
  - destruct (readlines s) as [|l ls]; cbn [concat app] in *.
    + rewrite <- IH. reflexivity.
    + rewrite <- IH. reflexivity.
Qed.

Lemma readlines_cons (c : ascii) (s : bytes) :
  readlines (c :: s) =
  if Ascii.eqb c nl then [c] :: readlines s
  else match readlines s with
       | [] => [[c]]
       | l :: ls => (c :: l) :: ls
       end.
Proof. reflexivity. Qed.

Lemma readlines_app (x y : bytes) :
  x = [] \/ ends_with_newline x = true ->
  readlines (x ++ y) = readlines x ++ readlines y.
Proof.
  intros [-> | H]; [reflexivity|].
  induction x as [|c x IH]; [discriminate|].
  destruct x as [|d x].
  - cbn in H. apply Ascii.eqb_eq in H. subst c.
    cbn [app readlines]. rewrite Ascii.eqb_refl. reflexivity.
  - change (ends_with_newline (c :: d :: x))
      with (ends_with_newline (d :: x)) in H.
    specialize (IH H).
    change ((c :: d :: x) ++ y) with (c :: (d :: x) ++ y).
    rewrite (readlines_cons c ((d :: x) ++ y)), (readlines_cons c (d :: x)).
    rewrite IH.
    destruct (Ascii.eqb c nl); [reflexivity|].
    destruct (RenderFacts.readlines_hd d x) as [m [rest E']].
    rewrite E'. reflexivity.
Qed.

Lemma rstrip_by_app (p : ascii -> bool) (x y : bytes) :
  rstrip_by p y <> [] -> rstrip_by p (x ++ y) = x ++ rstrip_by p y.
Proof.
  intros H. induction x as [|c x IH]; [reflexivity|].
  cbn [app rstrip_by]. rewrite IH.
  destruct (x ++ rstrip_by p y) eqn:E; [|reflexivity].
  destruct x; cbn [app] in E; [contradiction | discriminate].
Qed.

Lemma find_from_skip (c : ascii) (sub x y : bytes) (pos : nat) :
  ~ In c x -> y <> [] ->
  find_from (c :: sub) (x ++ y) pos
  = find_from (c :: sub) y (pos + length x).
Proof.
  revert pos; induction x as [|d x IH]; intros pos H Hy.
  - cbn [app length]. rewrite Nat.add_0_r. reflexivity.
  - cbn [app find_from startswith length].
    rewrite ascii_eqb_false
      by (intros E; apply H; left; symmetry; exact E).
    cbn [andb]. rewrite IH; [f_equal; lia | | exact Hy].
    intros H'. apply H. right. exact H'.
Qed.

Lemma skipn_app_length {A : Type} (x y : list A) (k : nat) :
  skipn (length x + k) (x ++ y) = skipn k y.
Proof.
  induction x as [|c x IH]; [reflexivity|]. exact IH.
Qed.

Lemma header_text_forall (s : bytes) :
  header_text s = true ->
  forallb is_ascii s = true /\ ~ In nl s /\ ~ In cr s.
Proof.
  unfold header_text. induction s as [|c s IH]; intros H.
  - repeat split; auto.
  - cbn [forallb] in H. apply andb_true_iff in H. destruct H as [H1 H2].
    apply andb_true_iff in H1. destruct H1 as [H1 H3].
    apply andb_true_iff in H1. destruct H1 as [H1 H4].
    destruct (IH H2) as [I1 [I2 I3]].
    split; [|split].
    + cbn [forallb]. rewrite H1, I1. reflexivity.
    + intros [E|E]; [|contradiction]. subst c.
      rewrite Ascii.eqb_refl in H4. discriminate.
    + intros [E|E]; [|contradiction]. subst c.
      rewrite Ascii.eqb_refl in H3. discriminate.
Qed.

Lemma fmt_d_header_text (n : nat) : header_text (fmt_d n) = true.
Proof.
  unfold header_text. apply forallb_forall. intros c Hc.
  pose proof (ApplyFacts.fmt_d_digits n) as H.
  rewrite Forall_forall in H. specialize (H c Hc).
  simpl in H. repeat (destruct H as [<- | H]; [reflexivity|]).
  destruct H.
Qed.

Lemma header_text_app (x y : bytes) :
  header_text (x ++ y) = header_text x && header_text y.
Proof. unfold header_text. apply forallb_app. Qed.

Lemma parse_patch_mail (X now P BT : bytes) :
  header_text X = true -> header_text now = true -> header_text P = true ->
  exists dv,
    Email.parse
      ((B "From " ++ X ++ [nl]) ++ (B "From: A <a@example.com>" ++ [nl])
       ++ (B "Date: " ++ now ++ [nl])
       ++ (B "Subject: [PATCH " ++ P ++ B "] Subject line" ++ [nl])
       ++ [nl] ++ BT)
    = Some (mkMessage
              [(B "From", B "A <a@example.com>"); (B "Date", dv);
               (B "Subject", B "[PATCH " ++ P ++ B "] Subject line")]
              (Email.universal_newlines BT)).
Proof.
  intros HX Hnow HP.
  destruct (header_text_forall X HX) as [X1 [X2 X3]].
  destruct (header_text_forall now Hnow) as [N1 [N2 N3]].
  destruct (header_text_forall P HP) as [P1 [P2 P3]].
  unfold Email.parse.
  set (R1 := B "From " ++ X ++ [nl]).
  set (R2 := B "From: A <a@example.com>" ++ [nl]).
  set (R3 := B "Date: " ++ now ++ [nl]).
  set (R4 := B "Subject: [PATCH " ++ P ++ B "] Subject line" ++ [nl]).
  assert (E : readlines (Email.universal_newlines
                (R1 ++ R2 ++ R3 ++ R4 ++ [nl] ++ BT))
              = R1 :: R2 :: R3 :: R4 :: [nl]
                :: readlines (Email.universal_newlines BT)).
  { assert (Q : forall s rest, ~ In nl s -> ~ In cr s ->
                  readlines (Email.universal_newlines ((s ++ [nl]) ++ rest))
                  = (s ++ [nl])
                    :: readlines (Email.universal_newlines rest)).
    { intros s rest H1 H2. rewrite universal_newlines_app.
      - rewrite <- app_assoc. cbn [app].
        apply RenderFacts.readlines_line. exact H1.
      - intros H. apply in_app_or in H. destruct H as [H|[H|[]]];
          [contradiction | discriminate]. }
    pose proof RenderFacts.in_app3 as I.
    replace R1 with ((B "From " ++ X) ++ [nl])
      by (unfold R1; rewrite <- app_assoc; reflexivity).
    replace R3 with ((B "Date: " ++ now) ++ [nl])
      by (unfold R3; rewrite <- app_assoc; reflexivity).
    replace R4 with ((B "Subject: [PATCH " ++ P ++ B "] Subject line") ++ [nl])
      by (unfold R4; rewrite <- !app_assoc; reflexivity).
    rewrite Q; [|apply I; [simpl; intuition discriminate | assumption]
                |apply I; [simpl; intuition discriminate | assumption]].
    unfold R2 at 1. rewrite Q by (simpl; intuition discriminate).
    rewrite Q; [|apply I; [simpl; intuition discriminate | assumption]
                |apply I; [simpl; intuition discriminate | assumption]].
    rewrite Q;
      [|apply I; [simpl; intuition discriminate
                 |apply I; [assumption | simpl; intuition discriminate]]
       |apply I; [simpl; intuition discriminate
                 |apply I; [assumption | simpl; intuition discriminate]]].
    change ([nl] ++ BT) with (([] ++ [nl]) ++ BT).
    rewrite (Q [] BT) by (intros []). reflexivity. }
  rewrite E.
  assert (S1 : Email.is_header_line R1 = true) by reflexivity.
  assert (S2 : Email.is_header_line R2 = true) by reflexivity.
  assert (S3 : Email.is_header_line R3 = true) by reflexivity.
  assert (S4 : Email.is_header_line R4 = true) by reflexivity.
  cbn [Email.span_headers]. rewrite S1, S2, S3, S4.
  change (Email.is_header_line [nl]) with false.
  change (bytes_eqb [nl] [nl]) with true. cbv iota.
  assert (B1 : Email.starts_blank R1 = false) by reflexivity.
  assert (B2 : Email.starts_blank R2 = false) by reflexivity.
  assert (B3 : Email.starts_blank R3 = false) by reflexivity.
  assert (B4 : Email.starts_blank R4 = false) by reflexivity.
  assert (T1 : startswith (B "From ") R1 = true) by reflexivity.
  assert (T2 : startswith (B "From ") R2 = false) by reflexivity.
  assert (T3 : startswith (B "From ") R3 = false) by reflexivity.
  assert (T4 : startswith (B "From ") R4 = false) by reflexivity.
  assert (C2 : startswith (B ":") R2 = false) by reflexivity.
  assert (C3 : startswith (B ":") R3 = false) by reflexivity.
  assert (C4 : startswith (B ":") R4 = false) by reflexivity.
  assert (V2 : Email.header_source_parse (@cons bytes R2 nil)
               = (B "From", B "A <a@example.com>")) by reflexivity.
  assert (V3 : exists dv, Email.header_source_parse (@cons bytes R3 nil) = (B "Date", dv)).
  { eexists. reflexivity. }
  destruct V3 as [dv V3].
  assert (V4 : Email.header_source_parse (@cons bytes R4 nil)
               = (B "Subject", B "[PATCH " ++ P ++ B "] Subject line")).
  { unfold Email.header_source_parse.
    change (Email.split_colon R4)
      with (B "Subject",
            " "%char :: B "[PATCH " ++ P ++ B "] Subject line" ++ [nl]).
    cbv iota. f_equal.
    change (Email.lstrip_blank (" "%char :: B "[PATCH " ++ ?x))
      with (B "[PATCH " ++ x).
    cbn [concat]. rewrite app_nil_r.
    rewrite (app_assoc (B "[PATCH ") P).
    rewrite rstrip_by_app by (vm_compute; discriminate).
    rewrite <- app_assoc. reflexivity. }
  exists dv.
  cbn [Email.parse_headers Nat.eqb].
  rewrite B1, B2, B3, B4, T1, T2, T3, T4, C2, C3, C4.
  unfold Email.flush. rewrite V2, V3, V4. cbn [app].
  assert (A : forallb is_ascii
                (concat (@cons bytes R1 (@cons bytes R2
                           (@cons bytes R3 (@cons bytes R4 nil))))) = true).
  { cbn [concat]. unfold R1, R2, R3, R4.
    rewrite !forallb_app, X1, N1, P1. reflexivity. }
  rewrite A.
  change (existsb Email.mime_header _) with false.
  cbn [andb negb]. rewrite concat_readlines. reflexivity.
Qed.

Lemma subject_message_patch (P : bytes) :
  ~ In "]"%char P ->
  subject_message (B "[PATCH " ++ P ++ B "] Subject line")
  = inr (B "Subject line" ++ [nl]).
Proof.
  intros HP. unfold subject_message, strip_patch_tag.
  change (index (B "[PATCH") (B "[PATCH " ++ P ++ B "] Subject line") 0)
    with (Some 0).
  unfold index. cbn [Nat.leb skipn].
  rewrite (app_assoc (B "[PATCH ") P).
  change (B "] ") with ("]"%char :: B " ").
  rewrite (find_from_skip "]"%char (B " ") (B "[PATCH " ++ P)
             (B "] Subject line") 0);
    [| apply RenderFacts.in_app3; [simpl; intuition discriminate | exact HP]
     | discriminate].
  change (find_from ("]"%char :: B " ") (B "] Subject line") ?p)
    with (Some p).
  cbn [bind_exn Nat.add].
  rewrite skipn_app_length. reflexivity.
Qed.

End MailFacts.

(** C1, as the code has it: a diff made of whole lines, none of them
    [-- ] and none with a carriage return, comes back byte for byte from
    the mail that [write_commit_patch] writes without a diffstat, with
    the author and with the message followed by two empty lines. *)
Theorem write_commit_patch_round_trip (commit_id ctime : Commit -> bytes)
    (strftime_now : bytes) (dulwich_version : nat * nat * nat)
    (committer0 D : bytes) (num total : nat) (version : option bytes) :
  let commit :=
    mkCommit (B "A <a@example.com>") committer0
      (B "Subject line" ++ [nl; nl] ++ B "Body line" ++ [nl]) in
  header_text (commit_id commit) = true ->
  header_text (ctime commit) = true ->
  header_text strftime_now = true ->
  D = [] \/ ends_with_newline D = true ->
  ~ In cr D ->
  ~ In (B "-- " ++ [nl]) (readlines D) ->
  exists (c : Commit) (v : option bytes),
    git_am_patch_split
      (written (write_commit_patch commit_id ctime strftime_now None
                  dulwich_version commit D (num, total) version))
    = Some (inr (c, D, v))
    /\ author c = B "A <a@example.com>"
    /\ message c
       = (B "Subject line" ++ [nl; nl] ++ B "Body line" ++ [nl]) ++ [nl; nl].
Proof.
  intros commit Hid Hct Hnow HD Hcr Hmark.
  set (P := fmt_d num ++ B "/" ++ fmt_d total).
  set (X := commit_id commit ++ B " " ++ ctime commit).
  assert (HX : header_text X = true).
  { unfold X. rewrite !MailFacts.header_text_app, Hid, Hct. reflexivity. }
  assert (HP : header_text P = true).
  { unfold P. rewrite !MailFacts.header_text_app,
      !MailFacts.fmt_d_header_text. reflexivity. }
  assert (HP' : ~ In "]"%char P).
  { unfold P. apply RenderFacts.in_app3;
      [apply ApplyFacts.fmt_d_no; simpl; intuition discriminate|].
    apply RenderFacts.in_app3; [simpl; intuition discriminate|].
    apply ApplyFacts.fmt_d_no; simpl; intuition discriminate. }
  assert (Hw : exists vt,
    written (write_commit_patch commit_id ctime strftime_now None
               dulwich_version commit D (num, total) version)
    = (B "From " ++ X ++ [nl]) ++ (B "From: A <a@example.com>" ++ [nl])
      ++ (B "Date: " ++ strftime_now ++ [nl])
      ++ (B "Subject: [PATCH " ++ P ++ B "] Subject line" ++ [nl])
      ++ [nl]
      ++ (B "Body line" ++ [nl; nl; nl] ++ B "---" ++ [nl]) ++ D
      ++ (B "-- " ++ [nl]) ++ vt).
  { exists (match version with
            | None =>
                let '(major, minor, micro) := dulwich_version in
                B "Dulwich " ++ fmt_d major ++ B "." ++ fmt_d minor ++ B "."
                ++ fmt_d micro ++ [nl]
            | Some v => v ++ [nl]
            end).
    unfold written, write_commit_patch, X, P.
    destruct version as [v|]; [|destruct dulwich_version as [[x y] z]];
      cbn [bind write ret fst concat app commit author message];
      repeat rewrite <- app_assoc; reflexivity. }
  destruct Hw as [vt ->].
  unfold git_am_patch_split.
  destruct (MailFacts.parse_patch_mail X strftime_now P
              ((B "Body line" ++ [nl; nl; nl] ++ B "---" ++ [nl]) ++ D
               ++ (B "-- " ++ [nl]) ++ vt) HX Hnow HP) as [dv ->].
  cbv beta iota. unfold split_message.
  match goal with
  | |- context [get_field ?m (B "from")] =>
      rewrite (get_field_str m (B "from") (B "A <a@example.com>")
                 eq_refl eq_refl)
  end.
  assert (HS : forallb is_ascii (B "[PATCH " ++ P ++ B "] Subject line")
               = true).
  { rewrite !forallb_app.
    destruct (MailFacts.header_text_forall P HP) as [-> _]. reflexivity. }
  match goal with
  | |- context [get_field ?m (B "subject")] =>
      rewrite (get_field_str m (B "subject") _ eq_refl HS)
  end.
  cbv beta iota zeta. cbn [snd].
  rewrite (MailFacts.subject_message_patch P HP'). cbn [payload].
  rewrite MailFacts.universal_newlines_app by (simpl; intuition discriminate).
  rewrite MailFacts.universal_newlines_app by exact Hcr.
  rewrite MailFacts.universal_newlines_app by (simpl; intuition discriminate).
  assert (El : readlines
                 ((B "Body line" ++ [nl; nl; nl] ++ B "---" ++ [nl]) ++ D
                  ++ (B "-- " ++ [nl]) ++ Email.universal_newlines vt)
               = [B "Body line" ++ [nl]; [nl]; [nl]]
                 ++ (B "---" ++ [nl])
                 :: readlines D
                 ++ (B "-- " ++ [nl])
                 :: readlines (Email.universal_newlines vt)).
  { rewrite (MailFacts.readlines_app
               (B "Body line" ++ [nl; nl; nl] ++ B "---" ++ [nl]))
      by (right; reflexivity).
    rewrite (MailFacts.readlines_app D) by exact HD.
    rewrite (MailFacts.readlines_app (B "-- " ++ [nl]))
      by (right; reflexivity).
    reflexivity. }
  rewrite El.
  rewrite (scan_message_first [B "Body line" ++ [nl]; [nl]; [nl]]
             ((B "---" ++ [nl]) :: _)
             (mkCommit (B "A <a@example.com>") (B "A <a@example.com>")
                (B "Subject line" ++ [nl])));
    [| simpl; intros [H|[H|[H|[]]]]; discriminate | reflexivity].
  cbn [tl].
  rewrite (scan_diff_rest (readlines D) ((B "-- " ++ [nl]) :: _) []
             Hmark eq_refl).
  rewrite MailFacts.concat_readlines. cbn [app tl].
  eexists. eexists. split; [reflexivity|]. split; reflexivity.
Qed.

Lemma write_commit_patch_round_trip_witness :
  exists (c : Commit) (v : option bytes),
    git_am_patch_split
      (written
         (write_commit_patch
            (fun _ => B "ff643aae102d8870cac88e8f007e70f58f3a7363")
            (fun _ => B "Thu Apr 15 15:40:28 2010")
            (B "Thu, 15 Apr 2010 15:40:28 +0200") None (0, 9, 5)
            (mkCommit (B "A <a@example.com>") (B "C <c@example.com>")
               (B "Subject line" ++ [nl; nl] ++ B "Body line" ++ [nl]))
            (B "--- a/f" ++ [nl] ++ B "+++ b/f" ++ [nl] ++ B "+x" ++ [nl])
            (1, 2) None))
    = Some (inr (c, B "--- a/f" ++ [nl] ++ B "+++ b/f" ++ [nl] ++ B "+x"
                    ++ [nl], v))
    /\ author c = B "A <a@example.com>"
    /\ message c
       = (B "Subject line" ++ [nl; nl] ++ B "Body line" ++ [nl]) ++ [nl; nl].
Proof.
  apply (write_commit_patch_round_trip
           (fun _ => B "ff643aae102d8870cac88e8f007e70f58f3a7363")
           (fun _ => B "Thu Apr 15 15:40:28 2010")
           (B "Thu, 15 Apr 2010 15:40:28 +0200") (0, 9, 5)
           (B "C <c@example.com>")
           (B "--- a/f" ++ [nl] ++ B "+++ b/f" ++ [nl] ++ B "+x" ++ [nl])
           1 2 None).
  - reflexivity.
  - reflexivity.
  - reflexivity.
  - right. reflexivity.
  - simpl. intuition discriminate.
  - simpl. intuition discriminate.
Defined.

(** C1 as stated fails: a diff whose last line has no newline does not
    come back; the reader never finds the [-- ] line and takes the
    trailer for a part of the diff. *)
Lemma write_commit_patch_diff_not_recovered :
  let commit :=
    mkCommit (B "A <a@example.com>") (B "A <a@example.com>")
      (B "Subject line" ++ [nl; nl] ++ B "Body line" ++ [nl]) in
  git_am_patch_split
    (written
       (write_commit_patch
          (fun _ => B "ff643aae102d8870cac88e8f007e70f58f3a7363")
          (fun _ => B "Thu Apr 15 15:40:28 2010")
          (B "Thu, 15 Apr 2010 15:40:28 +0200") None (0, 9, 5)
          commit (B "+x") (1, 1) (Some (B "1.7.0.4"))))
  = Some (inr (mkCommit (B "A <a@example.com>") (B "A <a@example.com>")
                 (B "Subject line" ++ [nl; nl] ++ B "Body line"
                  ++ [nl; nl; nl]),
               B "+x-- " ++ [nl] ++ B "1.7.0.4" ++ [nl], None))
  /\ B "+x-- " ++ [nl] ++ B "1.7.0.4" ++ [nl] <> B "+x".
Proof. split; [vm_compute; reflexivity | discriminate]. Qed.
(** * Further properties *)

(** ** [is_binary] *)



(** ** [get_summary] *)

Lemma splitlines_tail (n : nat) :
  forall (s l : bytes), length s <= n ->
    In l (splitlines false s) -> ~ In nl l /\ ~ In cr l.
Proof.
  induction n as [|n IH]; intros s l Hlen Hin.
  - destruct s; [contradiction | simpl in Hlen; lia].
  - destruct s as [|c s]; [contradiction|].
    cbn [length] in Hlen. cbn [splitlines] in Hin.
    destruct (Ascii.eqb c nl) eqn:E1.
    + destruct Hin as [<- | Hin]; [split; intros []|].
      apply (IH s); [lia | exact Hin].
    + destruct (Ascii.eqb c cr) eqn:E2.
      * destruct s as [|d s]; [destruct Hin as [<- | []]; split; intros []|].
        cbn [length] in Hlen.
        destruct (Ascii.eqb d nl);
          (destruct Hin as [<- | Hin]; [split; intros []|]).
        -- apply (IH s); [lia | exact Hin].
        -- apply (IH (d :: s)); [cbn [length]; lia | exact Hin].
      * apply Ascii.eqb_neq in E1, E2.
        assert (H : forall l', In l' (splitlines false s) ->
                      ~ In nl l' /\ ~ In cr l')
          by (intros l' Hl'; apply (IH s); [lia | exact Hl']).
        destruct (splitlines false s) as [|l0 ls].
        -- destruct Hin as [<- | []].
           split; intros [H0 | []]; congruence.
        -- destruct Hin as [<- | Hin]; [|apply H; right; exact Hin].
           destruct (H l0 (or_introl eq_refl)) as [H1 H2].
           split; intros [H0 | H0]; congruence || tauto.
Qed.

Lemma In_replace1 (old : ascii) (new s : bytes) (c : ascii) :
  In c (replace1 old new s) -> In c new \/ (In c s /\ c <> old).
Proof.
  unfold replace1. rewrite in_flat_map. intros [d [Hd Hc]].
  destruct (Ascii.eqb d old) eqn:E; [left; exact Hc|].
  apply Ascii.eqb_neq in E. destruct Hc as [<- | []]. right. tauto.
Qed.

Lemma splitlines_nil (k : bool) (s : bytes) :
  splitlines k s = [] <-> s = [].
Proof.
  split; [|intros ->; reflexivity].
  destruct s as [|c s]; [reflexivity|]. cbn [splitlines].
  destruct (Ascii.eqb c nl); [discriminate|].
  destruct (Ascii.eqb c cr).
  - destruct s as [|d s]; [discriminate|].
    destruct (Ascii.eqb d nl); discriminate.
  - destruct (splitlines k s); discriminate.
Qed.



(** ** The byte strings of a diff *)

Lemma ends_with_newline_terminate (x : bytes) :
  ends_with_newline (terminate x) = true.
Proof.
  unfold terminate. destruct (ends_with_newline x) eqn:E; [exact E|].
  rewrite RenderFacts.ends_with_newline_app by discriminate. reflexivity.
Qed.

Lemma In_slice_In {A : Type} (l : list A) (i1 i2 : nat) (x : A) :
  In x (slice l i1 i2) -> In x l.
Proof.
  unfold slice. intros H.
  rewrite <- (firstn_skipn i1 l). apply in_or_app. right.
  rewrite <- (firstn_skipn (i2 - i1) (skipn i1 l)). apply in_or_app.
  left. exact H.
Qed.

Lemma unified_diff_chunk_ends (a b : list bytes) (fromfile tofile : bytes)
    (n : nat) (c : bytes) :
  In c (unified_diff a b fromfile tofile n) ->
  ends_with_newline c = true
  \/ exists x, In x a /\ ends_with_newline x = false /\ c = B " " ++ x.
Proof.
  rewrite unified_diff_groups.
  destruct (Difflib.get_grouped_opcodes bytes_eqb a b n) as [|g0 gs];
    [contradiction|].
  generalize (g0 :: gs) as groups. intros groups.
  intros [<- | [<- | H]].
  - left. rewrite !app_assoc. apply RenderFacts.ends_with_newline_snoc.
  - left. rewrite !app_assoc. apply RenderFacts.ends_with_newline_snoc.
  - apply in_flat_map in H. destruct H as [g [_ H]].
    destruct H as [<- | H].
    + left. unfold hunk_header. destruct (group_range g) as [[[i1 i2] j1] j2].
      rewrite !app_assoc. apply RenderFacts.ends_with_newline_snoc.
    + apply in_flat_map in H.
      destruct H as [[[[[t i1] i2] j1] j2] [_ H]].
      assert (Hm : forall l s, In c (map (fun line => s :: terminate line) l)
                          -> ends_with_newline c = true).
      { intros l s Hc. apply in_map_iff in Hc. destruct Hc as [x [<- _]].
        change (s :: terminate x) with ([s] ++ terminate x).
        rewrite RenderFacts.ends_with_newline_app; [apply ends_with_newline_terminate|].
        unfold terminate. destruct (ends_with_newline x) eqn:E.
        - destruct x; discriminate.
        - destruct x; discriminate. }
      assert (He : In c (map (fun line => B " " ++ line) (slice a i1 i2)) ->
                   ends_with_newline c = true
                   \/ exists x, In x a /\ ends_with_newline x = false
                                /\ c = B " " ++ x).
      { intros Hc. apply in_map_iff in Hc. destruct Hc as [x [<- Hx]].
        apply In_slice_In in Hx.
        destruct (ends_with_newline x) eqn:E.
        - left. rewrite RenderFacts.ends_with_newline_app; [exact E|].
          destruct x; discriminate.
        - right. exists x. auto. }
      cbn [format_opcode] in H.
      destruct t; [apply He; exact H | | |];
        rewrite ?app_nil_r in H; cbn [app] in H;
        try apply in_app_or in H; try destruct H as [H | H];
        left; eapply Hm; exact H.
Qed.



(** ** Hunk headers *)

Lemma count_map (p : bytes -> bool) (f : bytes -> bytes) (v : bool)
    (xs : list bytes) :
  (forall x, p (f x) = v) ->
  length (filter p (map f xs)) = if v then length xs else 0.
Proof.
  intros H. induction xs as [|x xs IH]; [destruct v; reflexivity|].
  cbn [map filter]. rewrite H. destruct v; cbn [length]; rewrite IH;
    reflexivity.
Qed.

Lemma count_opcode (a b : list bytes) (t : Difflib.tag) (i1 i2 j1 j2 : nat) :
  DiffSpec.op_ok a b (t, i1, i2, j1, j2) ->
  length (filter old_side (format_opcode a b (t, i1, i2, j1, j2))) = i2 - i1
  /\ length (filter new_side (format_opcode a b (t, i1, i2, j1, j2)))
     = j2 - j1.
Proof.
  intros [H1 [H2 [H3 [H4 H5]]]].
  pose proof (ApplyFacts.length_slice a i1 i2 H1 H2) as La.
  pose proof (ApplyFacts.length_slice b j1 j2 H3 H4) as Lb.
  cbn [format_opcode].
  destruct t; rewrite ?filter_app, ?length_app; cbn [filter length];
    rewrite ?(count_map old_side (fun line => B " " ++ line) true),
            ?(count_map new_side (fun line => B " " ++ line) true),
            ?(count_map old_side (fun line => B "-" ++ terminate line) true),
            ?(count_map new_side (fun line => B "-" ++ terminate line) false),
            ?(count_map old_side (fun line => B "+" ++ terminate line) false),
            ?(count_map new_side (fun line => B "+" ++ terminate line) true)
      by reflexivity;
    rewrite ?La, ?Lb; lia.
Qed.

Lemma count_chain (a b : list bytes) (ops : list Difflib.opcode) :
  forall i j i' j',
  DiffSpec.chain a b i j ops i' j' ->
  length (filter old_side (flat_map (format_opcode a b) ops)) = i' - i
  /\ length (filter new_side (flat_map (format_opcode a b) ops)) = j' - j.
Proof.
  induction ops as [|[[[[t i1] i2] j1] j2] ops IH]; intros i j i' j' H.
  - destruct H as [-> ->]. cbn. lia.
  - destruct H as [-> [-> [Hop Hc]]].
    destruct (DiffFacts.chain_le _ _ _ _ _ _ _ Hc) as [L1 L2].
    destruct (IH _ _ _ _ Hc) as [E1 E2].
    destruct (count_opcode a b t i i2 j j2 Hop) as [O1 O2].
    assert (Hop' := Hop). destruct Hop' as [B1 [_ [B3 _]]].
    cbn [flat_map]. rewrite !filter_app, !length_app, E1, E2, O1, O2. lia.
Qed.

Lemma groups_ok_chain (a b : list bytes) (groups : list (list Difflib.opcode))
    (g : list Difflib.opcode) :
  forall strict i j,
  DiffSpec.groups_ok a b strict i j groups -> In g groups ->
  exists i1 i2 j1 j2, g <> [] /\ DiffSpec.chain a b i1 j1 g i2 j2.
Proof.
  induction groups as [|g0 gs IH]; intros strict i j H Hin; [contradiction|].
  destruct H as [i1 [i2 [j1 [j2 [Hne [_ [_ [_ [_ [Hc Hgs]]]]]]]]]].
  destruct Hin as [<- | Hin].
  - exists i1, i2, j1, j2. split; assumption.
  - apply (IH true i2 j2 Hgs Hin).
Qed.



(** ** The round trip of the diff *)

Module RangeFacts.

Import Difflib DiffSpec.

Lemma opcodes_from_pos (blocks : list match_t) (i j : nat) :
  Forall equal_pos (opcodes_from i j blocks).
Proof.
  revert i j; induction blocks as [|[[ai bj] size] blocks IH]; intros i j;
    [constructor|].
  cbn [opcodes_from]. apply Forall_app. split; [|apply Forall_app; split].
  - destruct ((i <? ai) && (j <? bj)); [|destruct (i <? ai);
                                         [|destruct (j <? bj)]];
      repeat constructor; intros H; discriminate H.
  - destruct (size =? 0) eqn:E; [constructor|].
    apply Nat.eqb_neq in E. repeat constructor. intros _. lia.
  - apply IH.
Qed.

Lemma fixup_leading_pos (n : nat) (codes : list opcode) :
  1 <= n -> Forall equal_pos codes -> Forall equal_pos (fixup_leading n codes).
Proof.
  intros Hn H. destruct codes as [|[[[[t i1] i2] j1] j2] rest];
    [constructor|].
  cbn [fixup_leading tag_of]. destruct (is_equal t) eqn:E; [|exact H].
  inversion H as [|c l Hc Hl]; subst. constructor; [|exact Hl].
  cbn [context_before equal_pos] in *. intros Ht. specialize (Hc Ht). lia.
Qed.

Lemma fixup_trailing_pos (n : nat) (codes : list opcode) :
  1 <= n -> Forall equal_pos codes ->
  Forall equal_pos (fixup_trailing n codes).
Proof.
  intros Hn. induction codes as [|[[[[t i1] i2] j1] j2] rest IH]; intros H;
    [constructor|].
  inversion H as [|c l Hc Hl]; subst.
  destruct rest as [|c' rest].
  - cbn [fixup_trailing tag_of]. destruct (is_equal t); [|exact H].
    constructor; [|constructor].
    cbn [context_after equal_pos] in *. intros Ht. specialize (Hc Ht). lia.
  - change (fixup_trailing n ((t, i1, i2, j1, j2) :: c' :: rest))
      with ((t, i1, i2, j1, j2) :: fixup_trailing n (c' :: rest)).
    constructor; [exact Hc | apply IH; exact Hl].
Qed.

Lemma is_equal_true (t : tag) : is_equal t = true <-> t = equal.
Proof. destruct t; split; intros H; try reflexivity; discriminate. Qed.

(** A group has a context line, or it is all there is and has none. *)
Lemma group_codes_context (n : nat) (codes : list opcode) :
  1 <= n -> Forall equal_pos codes ->
  forall (group g : list opcode),
    In g (group_codes n codes group) ->
    Exists context_op g
    \/ (g = group ++ codes
        /\ Forall (fun op => is_equal (tag_of op) = false) codes).
Proof.
  intros Hn. induction codes as [|[[[[t i1] i2] j1] j2] rest IH];
    intros Hpos group g Hin.
  - right. cbn [group_codes] in Hin. rewrite app_nil_r.
    destruct group as [|c [|c' group]].
    + contradiction.
    + destruct (is_equal (tag_of c)); [contradiction|].
      destruct Hin as [<- | []]. split; [reflexivity | constructor].
    + destruct Hin as [<- | []]. split; [reflexivity | constructor].
  - inversion Hpos as [|c l Hc Hl]; subst. cbn [group_codes] in Hin.
    destruct (is_equal t) eqn:Et.
    + apply is_equal_true in Et. subst t.
      cbn [equal_pos] in Hc. specialize (Hc eq_refl).
      destruct (n + n <? i2 - i1) eqn:El; cbn [andb] in Hin.
      * destruct Hin as [<- | Hin].
        -- left. apply Exists_app. right. constructor.
           cbn [context_after context_op]. split; [reflexivity | lia].
        -- destruct (IH Hl _ g Hin) as [H | [-> _]]; [left; exact H|].
           left. constructor. cbn [context_before context_op].
           split; [reflexivity | lia].
      * destruct (IH Hl _ g Hin) as [H | [-> _]]; [left; exact H|].
        left. apply Exists_app. left. apply Exists_app. right.
        constructor. split; [reflexivity | exact Hc].
    + cbn [andb] in Hin.
      destruct (IH Hl _ g Hin) as [H | [-> Hall]]; [left; exact H|].
      right. rewrite <- app_assoc. split; [reflexivity|].
      constructor; [exact Et | exact Hall].
Qed.

Lemma fixup_leading_tags (n : nat) (codes : list opcode) :
  Forall (fun op => is_equal (tag_of op) = false) (fixup_leading n codes) ->
  fixup_leading n codes = codes.
Proof.
  destruct codes as [|[[[[t i1] i2] j1] j2] rest]; [reflexivity|].
  cbn [fixup_leading tag_of]. destruct (is_equal t) eqn:E; [|reflexivity].
  intros H. inversion H as [|c l Hc _]; subst.
  cbn [context_before tag_of] in Hc. congruence.
Qed.

Lemma fixup_trailing_tags (n : nat) (codes : list opcode) :
  Forall (fun op => is_equal (tag_of op) = false) (fixup_trailing n codes) ->
  fixup_trailing n codes = codes.
Proof.
  induction codes as [|[[[[t i1] i2] j1] j2] rest IH]; [reflexivity|].
  destruct rest as [|c' rest].
  - cbn [fixup_trailing tag_of]. destruct (is_equal t) eqn:E; [|reflexivity].
    intros H. inversion H as [|c l Hc _]; subst.
    cbn [context_after tag_of] in Hc. congruence.
  - change (fixup_trailing n ((t, i1, i2, j1, j2) :: c' :: rest))
      with ((t, i1, i2, j1, j2) :: fixup_trailing n (c' :: rest)).
    intros H. inversion H as [|c l _ Hl]; subst.
    rewrite (IH Hl). reflexivity.
Qed.

Section Ranges.

Variables a b : list bytes.

Lemma chain_context (g : list opcode) :
  forall i j i' j',
    chain a b i j g i' j' -> Exists context_op g -> i < i' /\ j < j'.
Proof.
  induction g as [|[[[[t i1] i2] j1] j2] g IH]; intros i j i' j' H He;
    [inversion He|].
  destruct H as [-> [-> [Hop H]]].
  destruct (DiffFacts.chain_le _ _ _ _ _ _ _ H) as [L1 L2].
  assert (Hop' := Hop). destruct Hop' as [B1 [_ [B3 [_ B5]]]].
  inversion He as [c l Hc | c l Hl]; subst.
  - destruct Hc as [-> Hc]. destruct B5 as [B5 _]. lia.
  - destruct (IH _ _ _ _ H Hl). lia.
Qed.

Lemma ranges_nonempty (n : nat) :
  1 <= n -> a <> [] -> b <> [] ->
  Forall nonempty_range (get_grouped_opcodes bytes_eqb a b n).
Proof.
  intros Hn Hane Hbne. apply Forall_forall. intros g Hin.
  destruct (groups_ok_chain a b _ g false 0 0
              (DiffFacts.get_grouped_opcodes_ok bytes_eqb bytes_eqb_eq a b n)
              Hin) as [i1 [i2 [j1 [j2 [Hne Hc]]]]].
  unfold nonempty_range.
  rewrite (ApplyFacts.group_range_chain a b g i1 j1 i2 j2 Hne Hc).
  unfold get_grouped_opcodes in Hin.
  pose proof (DiffFacts.get_opcodes_chain bytes_eqb bytes_eqb_eq a b) as Hch.
  assert (La : 0 < length a) by (destruct a; [congruence | cbn; lia]).
  assert (Lb : 0 < length b) by (destruct b; [congruence | cbn; lia]).
  assert (Hpos : Forall equal_pos (get_opcodes bytes_eqb a b))
    by apply opcodes_from_pos.
  destruct (get_opcodes bytes_eqb a b) as [|c codes] eqn:E.
  { destruct Hch as [Hch _]. lia. }
  destruct (group_codes_context n _ Hn
              (fixup_trailing_pos n _ Hn (fixup_leading_pos n _ Hn Hpos))
              [] g Hin) as [He | [Eg Hall]].
  - apply (chain_context g _ _ _ _ Hc He).
  - cbn [app] in Eg.
    pose proof (fixup_trailing_tags n _ Hall) as E1.
    rewrite E1 in Eg. rewrite E1 in Hall.
    pose proof (fixup_leading_tags n _ Hall) as E2.
    rewrite E2 in Eg. subst g.
    pose proof (ApplyFacts.group_range_chain a b _ 0 0 _ _ Hne Hch) as R.
    rewrite (ApplyFacts.group_range_chain a b _ i1 j1 i2 j2 Hne Hc) in R.
    injection R as -> -> -> ->. lia.
Qed.

End Ranges.

End RangeFacts.

Lemma unified_diff_applies (a b : list bytes) (fromfile tofile : bytes)
    (n : nat) :
  line_sequence a = true -> line_sequence b = true ->
  no_newline fromfile = true -> no_newline tofile = true ->
  1 <= n -> (a = [] <-> b = []) ->
  a = [] \/ ends_with_newline (last a []) = true \/ last a [] <> last b [] ->
  PatchApply.apply_patch a (concat (unified_diff a b fromfile tofile n))
  = Some b.
Proof.
  intros Ha Hb Hf Ht Hn Hab Hl.
  pose proof (DiffFacts.get_grouped_opcodes_ok bytes_eqb bytes_eqb_eq a b n)
    as Hg.
  rewrite unified_diff_groups.
  destruct (Difflib.get_grouped_opcodes bytes_eqb a b n) as [|g groups] eqn:E.
  - destruct Hg as [_ [_ Hg]]. cbn in Hg. cbn. congruence.
  - assert (Hne : a <> [] /\ b <> []).
    { destruct a as [|x a'].
      - rewrite (proj1 Hab eq_refl) in E.
        rewrite (DiffFacts.get_grouped_opcodes_identical bytes_eqb
                   bytes_eqb_eq) in E. discriminate.
      - split; [discriminate|]. intros Eb.
        apply (proj2 Hab) in Eb. discriminate. }
    destruct Hne as [Hane Hbne].
    assert (Hl' : ends_with_newline (last a []) = true
                  \/ last a [] <> last b []) by tauto.
    pose proof (RangeFacts.ranges_nonempty a b n Hn Hane Hbne) as Hr.
    rewrite E in Hr.
    unfold PatchApply.apply_patch.
    assert (Hc : Forall2 PatchLines.complete
              ((B "--- " ++ fromfile ++ [nl]) :: (B "+++ " ++ tofile ++ [nl])
               :: flat_map (format_group a b) (g :: groups))
              ((B "--- " ++ fromfile ++ [nl]) :: (B "+++ " ++ tofile ++ [nl])
               :: flat_map (PatchLines.plain_group a b) (g :: groups))).
    { constructor.
      { rewrite app_assoc. apply PatchLines.complete_line; [|discriminate].
        apply RenderFacts.in_app3; [simpl; intuition discriminate|].
        apply RenderFacts.no_newline_free. exact Hf. }
      constructor.
      { rewrite app_assoc. apply PatchLines.complete_line; [|discriminate].
        apply RenderFacts.in_app3; [simpl; intuition discriminate|].
        apply RenderFacts.no_newline_free. exact Ht. }
      apply (RenderFacts.groups_render a b Ha Hb Hl' _ false 0 0 Hg). }
    rewrite (RenderFacts.completes_text _ _ Hc).
    rewrite (RenderFacts.completes_join _ _ Hc).
    rewrite !startswith_app. cbn [andb].
    apply (ApplyFacts.apply_groups a b (g :: groups) false 0 0);
      [lia | lia | exact Hg | exact Hr].
Qed.



(** ** Files with no line in common *)

Module DisjointFacts.

Import Difflib.

Section Disjoint.

Context {A : Type} (eqb : A -> A -> bool).
Hypothesis eqb_eq : forall x y, eqb x y = true <-> x = y.
Variables a b : list A.
Hypothesis disjoint : forall x, In x a -> ~ In x b.

Lemma indices_from_absent (l : list A) (x : A) (j : nat) :
  ~ In x l -> indices_from eqb j l x = [].
Proof.
  revert j; induction l as [|y l IH]; intros j H; [reflexivity|].
  cbn [indices_from]. destruct (eqb y x) eqn:E.
  - apply eqb_eq in E. subst y. exfalso. apply H. left. reflexivity.
  - apply IH. intros Hin. apply H. right. exact Hin.
Qed.

Lemma scan_rows_disjoint (rows : list nat) (blo bhi : nat)
    (j2len : nat -> nat) (best : match_t) :
  scan_rows eqb a b rows blo bhi j2len best = best.
Proof.
  revert j2len; induction rows as [|i rows IH]; intros j2len;
    [reflexivity|].
  cbn [scan_rows].
  assert (E : match nth_error a i with
              | Some x => b2j eqb b x
              | None => []
              end = []).
  { destruct (nth_error a i) as [x|] eqn:Hx; [|reflexivity].
    unfold b2j. destruct (popular eqb b x); [reflexivity|].
    apply indices_from_absent. apply disjoint.
    apply (nth_error_In _ _ Hx). }
  rewrite E. cbn [scan_row]. apply IH.
Qed.

Lemma same_at_disjoint (i j : nat) : same_at eqb a b i j = false.
Proof.
  unfold same_at.
  destruct (nth_error a i) as [x|] eqn:Hx; [|reflexivity].
  destruct (nth_error b j) as [y|] eqn:Hy; [|reflexivity].
  destruct (eqb x y) eqn:E; [|reflexivity].
  apply eqb_eq in E. subst y. exfalso.
  apply (disjoint x); eapply nth_error_In; eassumption.
Qed.

Lemma find_longest_match_disjoint :
  find_longest_match eqb a b 0 (length a) 0 (length b) = (0, 0, 0).
Proof.
  unfold find_longest_match. rewrite scan_rows_disjoint.
  cbn [extend_left Nat.add Nat.sub].
  destruct (length a) as [|m]; [reflexivity|].
  cbn [Nat.sub extend_right Nat.add]. rewrite same_at_disjoint.
  rewrite andb_false_r. reflexivity.
Qed.

Lemma get_opcodes_disjoint :
  get_opcodes eqb a b =
  match a, b with
  | [], [] => []
  | _ :: _, [] => [(delete, 0, length a, 0, 0)]
  | [], _ :: _ => [(insert, 0, 0, 0, length b)]
  | _ :: _, _ :: _ => [(replace, 0, length a, 0, length b)]
  end.
Proof.
  unfold get_opcodes, get_matching_blocks.
  cbn [matching_blocks_rec]. rewrite find_longest_match_disjoint.
  cbn [Nat.eqb collapse app opcodes_from].
  destruct a, b; reflexivity.
Qed.

Lemma get_grouped_opcodes_disjoint (n : nat) :
  get_grouped_opcodes eqb a b n =
  match a, b with
  | [], [] => []
  | _ :: _, [] => [[(delete, 0, length a, 0, 0)]]
  | [], _ :: _ => [[(insert, 0, 0, 0, length b)]]
  | _ :: _, _ :: _ => [[(replace, 0, length a, 0, length b)]]
  end.
Proof.
  unfold get_grouped_opcodes. rewrite get_opcodes_disjoint.
  destruct a, b; try reflexivity.
  destruct n as [|[|n]]; reflexivity.
Qed.

End Disjoint.

End DisjointFacts.

Lemma slice_all {A : Type} (l : list A) : slice l 0 (length l) = l.
Proof.
  unfold slice. rewrite Nat.sub_0_r. cbn [skipn]. apply firstn_all.
Qed.

Lemma unified_diff_no_common_line (a b : list bytes) (fromfile tofile : bytes)
    (n : nat) :
  (forall x, In x a -> ~ In x b) -> a ++ b <> [] ->
  unified_diff a b fromfile tofile n =
  (B "--- " ++ fromfile ++ [nl]) :: (B "+++ " ++ tofile ++ [nl])
  :: (B "@@ -1," ++ fmt_d (length a) ++ B " +1," ++ fmt_d (length b)
      ++ B " @@" ++ [nl])
  :: map (fun line => B "-" ++ terminate line) a
  ++ map (fun line => B "+" ++ terminate line) b.
Proof.
  intros Hd Hne. rewrite unified_diff_groups.
  rewrite (DisjointFacts.get_grouped_opcodes_disjoint bytes_eqb bytes_eqb_eq
             a b Hd n).
  destruct a as [|x a'] eqn:Ea, b as [|y b'] eqn:Eb;
    [exfalso; apply Hne; reflexivity | | |];
    rewrite <- ?Ea, <- ?Eb;
    cbn [flat_map format_group format_opcode app];
    rewrite ?app_nil_r, ?slice_all;
    unfold hunk_header, group_range; cbn [hd last Nat.sub Nat.add];
    rewrite ?Nat.sub_0_r; subst;
    change (map (fun line => B "+" ++ terminate line) (@nil bytes))
      with (@nil bytes);
    change (map (fun line => B "-" ++ terminate line) (@nil bytes))
      with (@nil bytes);
    rewrite ?app_nil_r; reflexivity.
Qed.

Lemma ends_with_newline_rev (x : bytes) :
  ends_with_newline x =
  match rev x with
  | c :: _ => Ascii.eqb c nl
  | [] => false
  end.
Proof.
  destruct x as [|c x] using rev_ind; [reflexivity|].
  rewrite RenderFacts.ends_with_newline_app by discriminate.
  rewrite rev_app_distr. reflexivity.
Qed.

Lemma terminate_shown (x : bytes) : terminate x = shown x.
Proof.
  unfold terminate, shown, no_newline_marker. rewrite ends_with_newline_rev.
  destruct (rev x) as [|c r]; [reflexivity|].
  destruct (Ascii.eqb c nl); reflexivity.
Qed.



(** ** The body of an object diff *)

Lemma write_object_diff_body (store : bytes -> option bytes)
    (old_path : option bytes) (old_mode : option N) (old_id : option bytes)
    (new_path : option bytes) (new_mode : option N) (new_id : option bytes)
    (diff_binary : bool) :
  write_object_diff store (old_path, old_mode, old_id)
    (new_path, new_mode, new_id) diff_binary =
  (diff_header old_path new_path old_mode new_mode old_id new_id
   ++ fst (write_body store (display_path (B "a/") old_path)
             (display_path (B "b/") new_path) old_mode new_mode
             old_id new_id diff_binary),
   snd (write_body store (display_path (B "a/") old_path)
          (display_path (B "b/") new_path) old_mode new_mode
          old_id new_id diff_binary)).
Proof.
  rewrite (surjective_pairing (write_object_diff _ _ _ _)).
  rewrite write_object_diff_parts. unfold diff_header.
  cbn [app]. rewrite <- app_assoc. f_equal.
  unfold write_object_diff.
  rewrite snd_bind. cbn [write snd].
  rewrite snd_bind, write_mode_lines_returns.
  rewrite snd_bind, write_index_line_returns. reflexivity.
Qed.

Lemma write_body_resolved (store : bytes -> option bytes)
    (old_path new_path : bytes) (old_mode new_mode : option N)
    (old_id new_id : option bytes) (diff_binary : bool)
    (old_content new_content : bytes) :
  content store old_mode old_id = inr old_content ->
  content store new_mode new_id = inr new_content ->
  write_body store old_path new_path old_mode new_mode old_id new_id
    diff_binary =
  if negb diff_binary && (is_binary old_content || is_binary new_content)
  then ([B "Binary files " ++ old_path ++ B " and " ++ new_path
         ++ B " differ" ++ [nl]], inr tt)
  else (unified_diff (lines old_content) (lines new_content)
          old_path new_path 3, inr tt).
Proof.
  intros Ho Hn. unfold write_body. rewrite Ho, Hn. unfold lift.
  cbn [bind app].
  destruct (negb diff_binary && (is_binary old_content || is_binary new_content));
    reflexivity.
Qed.

Lemma resolves_content (store : bytes -> option bytes) (mode : option N)
    (hexsha : option bytes) (data : bytes) :
  resolves store mode hexsha data -> content store mode hexsha = inr data.
Proof.
  intros [mode' | m h Hm | m h d Hm Hs]; unfold content.
  - reflexivity.
  - rewrite Hm. reflexivity.
  - rewrite Hm, Hs. reflexivity.
Qed.

Lemma is_binary_in (data : bytes) :
  is_binary data = true <-> In zero (firstn 8000 data).
Proof.
  unfold is_binary. change 8000 with FIRST_FEW_BYTES.
  rewrite existsb_exists. split.
  - intros [x [Hin Hx]]. apply Ascii.eqb_eq in Hx. subst x. exact Hin.
  - intros H. exists zero. split; [exact H | reflexivity].
Qed.





Lemma plain_text_forall (s : bytes) (c : ascii) :
  plain_text s = true -> In c s -> c <> nl /\ c <> cr /\ c <> zero.
Proof.
  unfold plain_text. rewrite forallb_forall. intros H Hc.
  specialize (H c Hc). apply andb_prop in H. destruct H as [H H3].
  apply andb_prop in H. destruct H as [H1 H2].
  apply negb_true_iff in H1, H2, H3. apply Ascii.eqb_neq in H1, H2, H3.
  tauto.
Qed.

Lemma plain_text_app (x y : bytes) :
  plain_text (x ++ y) = plain_text x && plain_text y.
Proof. apply forallb_app. Qed.

Lemma splitlines_one_line (s : bytes) :
  (forall c, In c s -> c <> nl /\ c <> cr) ->
  splitlines true (s ++ [nl]) = [s ++ [nl]].
Proof.
  induction s as [|c s IH]; intros H; [reflexivity|].
  cbn [app splitlines].
  destruct (H c (or_introl eq_refl)) as [H1 H2].
  apply Ascii.eqb_neq in H1, H2. rewrite H1, H2.
  rewrite IH by (intros d Hd; apply H; right; exact Hd). reflexivity.
Qed.

Lemma is_binary_absent (s : bytes) : ~ In zero s -> is_binary s = false.
Proof.
  intros H. destruct (is_binary s) eqn:E; [|reflexivity].
  exfalso. apply H. unfold is_binary in E. apply existsb_exists in E.
  destruct E as [x [Hin Hx]]. apply Ascii.eqb_eq in Hx. subst x.
  rewrite <- (firstn_skipn FIRST_FEW_BYTES s). apply in_or_app. left.
  exact Hin.
Qed.

Lemma submodule_content (store : bytes -> option bytes) (m : N) (h : bytes) :
  S_ISGITLINK m = true -> plain_text h = true ->
  let text := B "Submodule commit " ++ h ++ [nl] in
  content store (Some m) (Some h) = inr text
  /\ is_binary text = false /\ lines text = [text].
Proof.
  intros Hm Hh. cbv zeta. unfold content. rewrite Hm.
  assert (Hp : plain_text (B "Submodule commit " ++ h) = true)
    by (rewrite plain_text_app, Hh; reflexivity).
  split; [reflexivity|]. split.
  - apply is_binary_absent. rewrite app_assoc. intros Hin.
    apply in_app_or in Hin. destruct Hin as [Hin | [Hin | []]];
      [|discriminate].
    apply (plain_text_forall _ _ Hp) in Hin. tauto.
  - rewrite app_assoc.
    destruct (B "Submodule commit " ++ h) as [|c0 s0] eqn:E;
      [discriminate E|].
    unfold lines. cbn [app]. apply (splitlines_one_line (c0 :: s0)).
    intros c Hc. apply (plain_text_forall _ _ Hp) in Hc. tauto.
Qed.



Lemma splitlines_readlines (s : bytes) :
  ~ In cr s -> splitlines true s = readlines s.
Proof.
  induction s as [|c s IH]; intros H; [reflexivity|].
  cbn [splitlines readlines].
  rewrite IH by (intros H'; apply H; right; exact H').
  destruct (Ascii.eqb c nl); [reflexivity|].
  rewrite ascii_eqb_false by (intros ->; apply H; left; reflexivity).
  reflexivity.
Qed.

Lemma lines_readlines (s : bytes) : ~ In cr s -> lines s = readlines s.
Proof.
  intros H. unfold lines. destruct s; [reflexivity|].
  apply splitlines_readlines. exact H.
Qed.

Lemma readlines_line_sequence (s : bytes) :
  line_sequence (readlines s) = true
  /\ match readlines s with
     | l :: _ => l <> [] /\ (no_newline (removelast l) = true)
     | [] => True
     end.
Proof.
  induction s as [|c s [IH1 IH2]]; [split; [reflexivity | exact I]|].
  rewrite MailFacts.readlines_cons. destruct (Ascii.eqb c nl) eqn:E.
  - apply Ascii.eqb_eq in E. subst c. split.
    + cbn [line_sequence]. destruct (readlines s); [reflexivity|].
      rewrite IH1. reflexivity.
    + split; [discriminate | reflexivity].
  - destruct (readlines s) as [|l ls]; [split; [reflexivity|];
                                         split; [discriminate | reflexivity]|].
    destruct IH2 as [Hne Hl].
    assert (Hr : removelast (c :: l) = c :: removelast l)
      by (destruct l; [contradiction | reflexivity]).
    assert (Hn : no_newline (removelast (c :: l)) = true).
    { rewrite Hr. cbn [no_newline forallb]. rewrite E. exact Hl. }
    split; [|split; [discriminate | exact Hn]].
    cbn [line_sequence] in *. destruct ls as [|l' ls]; [exact Hn|].
    apply andb_prop in IH1. destruct IH1 as [F1 F2]. rewrite F2.
    unfold full_line in *. apply andb_prop in F1. destruct F1 as [F1 F3].
    rewrite Hn.
    assert (He : ends_with_newline (c :: l) = ends_with_newline l)
      by (destruct l; [contradiction | reflexivity]).
    rewrite He, F1. reflexivity.
Qed.

Lemma path_ok_display (prefix : bytes) (path : option bytes) :
  no_newline prefix = true -> path_ok path = true ->
  no_newline (display_path prefix path) = true.
Proof.
  intros Hp H. destruct path as [p|]; [|reflexivity].
  unfold display_path, no_newline in *. rewrite forallb_app.
  cbn [path_ok] in H. unfold no_newline in H. rewrite Hp, H. reflexivity.
Qed.

Lemma readlines_nil (s : bytes) : readlines s = [] -> s = [].
Proof.
  intros H. rewrite <- (MailFacts.concat_readlines s), H. reflexivity.
Qed.

Lemma last_readlines (s : bytes) :
  s <> [] ->
  ends_with_newline (last (readlines s) []) = ends_with_newline s.
Proof.
  induction s as [|c s IH]; [congruence|]. intros _.
  rewrite MailFacts.readlines_cons.
  destruct s as [|d s].
  - cbn [readlines]. destruct (Ascii.eqb c nl) eqn:E; [|reflexivity].
    apply Ascii.eqb_eq in E. subst c. reflexivity.
  - specialize (IH ltac:(discriminate)).
    rewrite RenderFacts.ends_with_newline_cons by discriminate.
    destruct (RenderFacts.readlines_hd d s) as [m [rest E']].
    rewrite E' in *. destruct (Ascii.eqb c nl).
    + exact IH.
    + destruct rest as [|l' rest].
      * cbn [last] in *.
        rewrite RenderFacts.ends_with_newline_cons by discriminate.
        exact IH.
      * exact IH.
Qed.



(** ** [write_blob_diff] and [write_tree_diff] *)

Lemma blob_content (store : bytes -> option bytes) (mode : option N)
    (blob : option Blob.t) :
  blob_in store mode blob ->
  exists data,
    content store mode (option_map Blob.id blob) = inr data
    /\ lines data = blob_lines blob.
Proof.
  destruct blob as [blob|]; cbn [blob_in option_map blob_lines].
  - intros [Hs [m [-> Hm]]]. exists (Blob.data blob).
    unfold content. rewrite Hm, Hs. split; [reflexivity|].
    unfold lines. destruct (Blob.data blob); reflexivity.
  - intros _. exists []. split; reflexivity.
Qed.



Lemma write_changes_cons (store : bytes -> option bytes)
    (change : tree_change) (rest : list tree_change) (diff_binary : bool) :
  write_changes store (change :: rest) diff_binary =
  bind (change_diff store diff_binary change)
    (fun _ => write_changes store rest diff_binary).
Proof. destruct change as [[[? ?] [? ?]] [? ?]]. reflexivity. Qed.

Lemma write_changes_app (store : bytes -> option bytes) (diff_binary : bool)
    (pre post : list tree_change) :
  (forall c, In c pre -> snd (change_diff store diff_binary c) = inr tt) ->
  write_changes store (pre ++ post) diff_binary =
  (flat_map (fun c => fst (change_diff store diff_binary c)) pre
   ++ fst (write_changes store post diff_binary),
   snd (write_changes store post diff_binary)).
Proof.
  induction pre as [|c pre IH]; intros H.
  - cbn [app flat_map]. apply surjective_pairing.
  - cbn [app flat_map]. rewrite write_changes_cons.
    rewrite (surjective_pairing (bind _ _)).
    rewrite fst_bind, snd_bind, (H c (or_introl eq_refl)).
    rewrite IH by (intros c' Hc'; apply H; right; exact Hc').
    cbn [fst snd]. rewrite app_assoc. reflexivity.
Qed.



(** ** The normal path of the reader *)

Lemma rstrip_by_stripped (p : ascii -> bool) (l : bytes) :
  stripped p l (rstrip_by p l).
Proof.
  unfold stripped. induction l as [|c s IH].
  - exists []. repeat split.
  - destruct IH as [t [E [Ht Hv]]]. cbn [rstrip_by].
    destruct (rstrip_by p s) as [|x r] eqn:Er.
    + cbn [app] in E. subst t. destruct (p c) eqn:Ec.
      * exists (c :: s). cbn. rewrite Ec, Ht. repeat split.
      * exists s. cbn. repeat split; assumption.
    + exists t. split; [cbn [app]; rewrite E at 1; reflexivity|].
      split; [exact Ht|].
      change (rev (c :: x :: r)) with (rev (x :: r) ++ [c]).
      destruct (rev (x :: r)) as [|d r'] eqn:Erev; [|exact Hv].
      apply (f_equal (@length ascii)) in Erev.
      rewrite length_rev in Erev. discriminate Erev.
Qed.



(** ** Any subject, author and body *)

Module RoundTripFacts.

Lemma readlines_header_line (s rest : bytes) :
  ~ In nl s -> ~ In cr s ->
  readlines (Email.universal_newlines ((s ++ [nl]) ++ rest))
  = (s ++ [nl]) :: readlines (Email.universal_newlines rest).
Proof.
  intros H1 H2. rewrite MailFacts.universal_newlines_app.
  - rewrite <- app_assoc. cbn [app].
    apply RenderFacts.readlines_line. exact H1.
  - intros H. apply in_app_or in H. destruct H as [H|[H|[]]];
      [contradiction | discriminate].
Qed.

Lemma rstrip_by_free (p : ascii -> bool) (s : bytes) (d : ascii) :
  (forall c, In c s -> p c = false) -> p d = true ->
  rstrip_by p (s ++ [d]) = s.
Proof.
  intros H Hd. induction s as [|c s IH].
  - cbn. rewrite Hd. reflexivity.
  - cbn [app rstrip_by].
    rewrite IH by (intros c' Hc'; apply H; right; exact Hc').
    destruct s; [|reflexivity].
    rewrite (H c (or_introl eq_refl)). reflexivity.
Qed.

Lemma lstrip_blank_id (s : bytes) :
  Email.starts_blank s = false -> Email.lstrip_blank s = s.
Proof.
  destruct s as [|c s]; [reflexivity|]. cbn. intros ->. reflexivity.
Qed.

Lemma starts_blank_line (s : bytes) :
  Email.starts_blank s = false -> Email.starts_blank (s ++ [nl]) = false.
Proof. destruct s; intros H; [reflexivity | exact H]. Qed.

Lemma header_value (name s : bytes) :
  header_text s = true -> Email.starts_blank s = false ->
  Email.split_colon name = (name, []) ->
  rstrip_by (fun c => Ascii.eqb c cr || Ascii.eqb c nl)
    (Email.lstrip_blank (" "%char :: s ++ [nl]) ++ concat []) = s.
Proof.
  intros Hs Hb _.
  destruct (MailFacts.header_text_forall s Hs) as [_ [H1 H2]].
  change (Email.lstrip_blank (" "%char :: s ++ [nl]))
    with (Email.lstrip_blank (s ++ [nl])).
  rewrite lstrip_blank_id by (apply starts_blank_line; exact Hb).
  cbn [concat]. rewrite app_nil_r. apply rstrip_by_free; [|reflexivity].
  intros c Hc.
  rewrite !ascii_eqb_false; [reflexivity | |]; intros ->; contradiction.
Qed.

Lemma parse_mail (X A now Sub BT : bytes) :
  header_text X = true -> header_text A = true ->
  header_text now = true -> header_text Sub = true ->
  Email.starts_blank A = false -> Email.starts_blank Sub = false ->
  exists dv,
    Email.parse
      ((B "From " ++ X ++ [nl]) ++ (B "From: " ++ A ++ [nl])
       ++ (B "Date: " ++ now ++ [nl]) ++ (B "Subject: " ++ Sub ++ [nl])
       ++ [nl] ++ BT)
    = Some (mkMessage [(B "From", A); (B "Date", dv); (B "Subject", Sub)]
              (Email.universal_newlines BT)).
Proof.
  intros HX HA Hnow HS BA BS.
  destruct (MailFacts.header_text_forall X HX) as [X1 [X2 X3]].
  destruct (MailFacts.header_text_forall A HA) as [A1 [A2 A3]].
  destruct (MailFacts.header_text_forall now Hnow) as [N1 [N2 N3]].
  destruct (MailFacts.header_text_forall Sub HS) as [S1 [S2 S3]].
  unfold Email.parse.
  set (R1 := B "From " ++ X ++ [nl]).
  set (R2 := B "From: " ++ A ++ [nl]).
  set (R3 := B "Date: " ++ now ++ [nl]).
  set (R4 := B "Subject: " ++ Sub ++ [nl]).
  assert (E : readlines (Email.universal_newlines
                (R1 ++ R2 ++ R3 ++ R4 ++ [nl] ++ BT))
              = R1 :: R2 :: R3 :: R4 :: [nl]
                :: readlines (Email.universal_newlines BT)).
  { pose proof RenderFacts.in_app3 as I.
    replace R1 with ((B "From " ++ X) ++ [nl])
      by (unfold R1; rewrite <- app_assoc; reflexivity).
    replace R2 with ((B "From: " ++ A) ++ [nl])
      by (unfold R2; rewrite <- app_assoc; reflexivity).
    replace R3 with ((B "Date: " ++ now) ++ [nl])
      by (unfold R3; rewrite <- app_assoc; reflexivity).
    replace R4 with ((B "Subject: " ++ Sub) ++ [nl])
      by (unfold R4; rewrite <- !app_assoc; reflexivity).
    rewrite !readlines_header_line;
      try (apply I; [simpl; intuition discriminate | assumption]).
    change ([nl] ++ BT) with (([] ++ [nl]) ++ BT).
    rewrite (readlines_header_line [] BT) by (intros []). reflexivity. }
  rewrite E.
  assert (L1 : Email.is_header_line R1 = true) by reflexivity.
  assert (L2 : Email.is_header_line R2 = true) by reflexivity.
  assert (L3 : Email.is_header_line R3 = true) by reflexivity.
  assert (L4 : Email.is_header_line R4 = true) by reflexivity.
  cbn [Email.span_headers]. rewrite L1, L2, L3, L4.
  change (Email.is_header_line [nl]) with false.
  change (bytes_eqb [nl] [nl]) with true. cbv iota.
  assert (B1 : Email.starts_blank R1 = false) by reflexivity.
  assert (B2 : Email.starts_blank R2 = false) by reflexivity.
  assert (B3 : Email.starts_blank R3 = false) by reflexivity.
  assert (B4 : Email.starts_blank R4 = false) by reflexivity.
  assert (T1 : startswith (B "From ") R1 = true) by reflexivity.
  assert (T2 : startswith (B "From ") R2 = false) by reflexivity.
  assert (T3 : startswith (B "From ") R3 = false) by reflexivity.
  assert (T4 : startswith (B "From ") R4 = false) by reflexivity.
  assert (C2 : startswith (B ":") R2 = false) by reflexivity.
  assert (C3 : startswith (B ":") R3 = false) by reflexivity.
  assert (C4 : startswith (B ":") R4 = false) by reflexivity.
  assert (V2 : Email.header_source_parse (@cons bytes R2 nil)
               = (B "From", A)).
  { unfold Email.header_source_parse.
    change (Email.split_colon R2) with (B "From", " "%char :: A ++ [nl]).
    cbv iota. f_equal. apply (header_value (B "From") A HA BA).
    reflexivity. }
  assert (V3 : exists dv,
             Email.header_source_parse (@cons bytes R3 nil) = (B "Date", dv)).
  { eexists. reflexivity. }
  destruct V3 as [dv V3].
  assert (V4 : Email.header_source_parse (@cons bytes R4 nil)
               = (B "Subject", Sub)).
  { unfold Email.header_source_parse.
    change (Email.split_colon R4) with (B "Subject", " "%char :: Sub ++ [nl]).
    cbv iota. f_equal. apply (header_value (B "Subject") Sub HS BS).
    reflexivity. }
  exists dv.
  cbn [Email.parse_headers Nat.eqb].
  rewrite B1, B2, B3, B4, T1, T2, T3, T4, C2, C3, C4.
  unfold Email.flush. rewrite V2, V3, V4. cbn [app].
  assert (HA' : forallb is_ascii
                (concat (@cons bytes R1 (@cons bytes R2
                           (@cons bytes R3 (@cons bytes R4 nil))))) = true).
  { cbn [concat]. unfold R1, R2, R3, R4.
    rewrite !forallb_app, X1, A1, N1, S1. reflexivity. }
  rewrite HA'.
  change (existsb Email.mime_header _) with false.
  cbn [andb negb]. rewrite MailFacts.concat_readlines. reflexivity.
Qed.

Lemma replace1_absent (old : ascii) (new s : bytes) :
  ~ In old s -> replace1 old new s = s.
Proof.
  unfold replace1. induction s as [|c s IH]; intros H; [reflexivity|].
  cbn [flat_map].
  rewrite ascii_eqb_false by (intros ->; apply H; left; reflexivity).
  rewrite IH by (intros H'; apply H; right; exact H'). reflexivity.
Qed.

Lemma subject_message_tagged (P S : bytes) :
  ~ In "]"%char P -> header_text S = true ->
  subject_message (B "[PATCH " ++ P ++ B "] " ++ S) = inr (S ++ [nl]).
Proof.
  intros HP HS.
  destruct (MailFacts.header_text_forall S HS) as [S1 [S2 S3]].
  unfold subject_message, strip_patch_tag.
  change (index (B "[PATCH") (B "[PATCH " ++ P ++ B "] " ++ S) 0)
    with (Some 0).
  unfold index. cbn [Nat.leb skipn].
  rewrite (app_assoc (B "[PATCH ") P).
  change (B "] " ++ S) with ("]"%char :: " "%char :: S).
  change (B "] ") with ("]"%char :: B " ").
  rewrite (MailFacts.find_from_skip "]"%char (B " ") (B "[PATCH " ++ P)
             ("]"%char :: " "%char :: S) 0);
    [| apply RenderFacts.in_app3; [simpl; intuition discriminate | exact HP]
     | discriminate].
  change (find_from ("]"%char :: B " ") ("]"%char :: " "%char :: S) ?p)
    with (Some p).
  cbn [bind_exn Nat.add].
  rewrite MailFacts.skipn_app_length. cbn [skipn].
  unfold encode_ascii. rewrite S1. cbn [bind_exn].
  rewrite replace1_absent by exact S2. reflexivity.
Qed.

Lemma startswith_first_line (p s l : bytes) (ls : list bytes) :
  ~ In nl p -> readlines s = l :: ls -> startswith p l = startswith p s.
Proof.
  revert s l ls; induction p as [|c p IH]; intros s l ls Hp Hs;
    [reflexivity|].
  destruct s as [|d s]; [discriminate|].
  rewrite MailFacts.readlines_cons in Hs.
  assert (Hc : c <> nl) by (intros ->; apply Hp; left; reflexivity).
  assert (Hp' : ~ In nl p) by (intros H; apply Hp; right; exact H).
  destruct (Ascii.eqb d nl) eqn:E.
  - apply Ascii.eqb_eq in E. subst d. injection Hs as <- _.
    cbn [startswith]. rewrite (ascii_eqb_false c nl Hc). reflexivity.
  - destruct (readlines s) as [|l' ls'] eqn:E'.
    + injection Hs as <- _. destruct s as [|e s]; [reflexivity|].
      destruct (RenderFacts.readlines_hd e s) as [m [rest E'']].
      congruence.
    + injection Hs as <- _. cbn [startswith]. f_equal.
      apply (IH s l' ls' Hp' E').
Qed.

Lemma startswith_snoc (p s : bytes) :
  ~ In nl p -> startswith p (s ++ [nl]) = startswith p s.
Proof.
  revert s; induction p as [|c p IH]; intros s Hp; [reflexivity|].
  assert (Hc : c <> nl) by (intros ->; apply Hp; left; reflexivity).
  destruct s as [|d s]; cbn [app startswith].
  - rewrite (ascii_eqb_false c nl Hc). reflexivity.
  - rewrite IH by (intros H; apply Hp; right; exact H). reflexivity.
Qed.

End RoundTripFacts.

Lemma rest_line_end (x y rest : bytes) :
  x ++ [nl] = y ++ rest -> rest = [] \/ ends_with_newline rest = true.
Proof.
  intros H. destruct rest as [|c rest]; [left; reflexivity|]. right.
  rewrite <- (RenderFacts.ends_with_newline_app y) by discriminate.
  rewrite <- H. apply RenderFacts.ends_with_newline_snoc.
Qed.

(** The mail read back, with the version line as [version_text] gives
    it. *)
Lemma commit_patch_read_back (commit_id ctime : Commit -> bytes)
    (strftime_now : bytes) (dulwich_version : nat * nat * nat)
    (commit : Commit) (subject rest D : bytes) (num total : nat)
    (version : option bytes) :
  message commit ++ [nl] = subject ++ [nl; nl] ++ rest ->
  header_text (commit_id commit) = true ->
  header_text (ctime commit) = true ->
  header_text strftime_now = true ->
  header_text (author commit) = true ->
  Email.starts_blank (author commit) = false ->
  header_text subject = true ->
  ~ In cr rest ->
  startswith (B "From: ") rest = false ->
  ~ In (B "---" ++ [nl]) (readlines rest) ->
  D = [] \/ ends_with_newline D = true ->
  ~ In cr D ->
  ~ In (B "-- " ++ [nl]) (readlines D) ->
  (forall v, version = Some v -> ~ In nl v /\ ~ In cr v) ->
  git_am_patch_split
    (written (write_commit_patch commit_id ctime strftime_now None
                dulwich_version commit D (num, total) version))
  = Some (inr (mkCommit (author commit) (author commit)
                 (message commit ++ [nl; nl]),
               D, Some (version_text dulwich_version version))).
Proof.
  intros Hmsg Hid Hct Hnow HA BA HS Hbcr Hfrom Hdash HD Hcr Hmark Hv.
  set (P := fmt_d num ++ B "/" ++ fmt_d total).
  set (X := commit_id commit ++ B " " ++ ctime commit).
  set (V := version_text dulwich_version version).
  assert (HX : header_text X = true).
  { unfold X. rewrite !MailFacts.header_text_app, Hid, Hct. reflexivity. }
  assert (HP : header_text P = true).
  { unfold P. rewrite !MailFacts.header_text_app,
      !MailFacts.fmt_d_header_text. reflexivity. }
  assert (HP' : ~ In "]"%char P).
  { unfold P. apply RenderFacts.in_app3;
      [apply ApplyFacts.fmt_d_no; simpl; intuition discriminate|].
    apply RenderFacts.in_app3; [simpl; intuition discriminate|].
    apply ApplyFacts.fmt_d_no; simpl; intuition discriminate. }
  assert (HV : ~ In nl V /\ ~ In cr V).
  { unfold V, version_text. destruct version as [v|]; [apply Hv; reflexivity|].
    destruct dulwich_version as [[x y] z].
    assert (H : header_text (B "Dulwich " ++ fmt_d x ++ B "." ++ fmt_d y
                             ++ B "." ++ fmt_d z) = true).
    { rewrite !MailFacts.header_text_app, !MailFacts.fmt_d_header_text.
      reflexivity. }
    apply MailFacts.header_text_forall in H. tauto. }
  assert (Hrest : rest = [] \/ ends_with_newline rest = true).
  { apply (rest_line_end (message commit) (subject ++ [nl; nl])).
    rewrite <- app_assoc. exact Hmsg. }
  set (Sub := B "[PATCH " ++ P ++ B "] " ++ subject).
  assert (HSub : header_text Sub = true).
  { unfold Sub. rewrite !MailFacts.header_text_app, HP, HS. reflexivity. }
  assert (Hw :
    written (write_commit_patch commit_id ctime strftime_now None
               dulwich_version commit D (num, total) version)
    = (B "From " ++ X ++ [nl]) ++ (B "From: " ++ author commit ++ [nl])
      ++ (B "Date: " ++ strftime_now ++ [nl])
      ++ (B "Subject: " ++ Sub ++ [nl])
      ++ [nl]
      ++ rest ++ ([nl] ++ B "---" ++ [nl]) ++ D
      ++ (B "-- " ++ [nl]) ++ (V ++ [nl])).
  { unfold written, write_commit_patch.
    cbn [bind write ret fst concat app].
    replace (B "Subject: [PATCH " ++ fmt_d num ++ B "/" ++ fmt_d total
             ++ B "] " ++ message commit ++ [nl])
      with (B "Subject: [PATCH " ++ fmt_d num ++ B "/" ++ fmt_d total
            ++ B "] " ++ subject ++ [nl; nl] ++ rest)
      by (rewrite Hmsg; reflexivity).
    unfold Sub, X, P, V, version_text.
    destruct version as [v|]; [|destruct dulwich_version as [[x y] z]];
      cbn [bind write ret fst concat app];
      repeat rewrite <- app_assoc; reflexivity. }
  rewrite Hw. unfold git_am_patch_split.
  destruct (RoundTripFacts.parse_mail X (author commit) strftime_now Sub
              (rest ++ ([nl] ++ B "---" ++ [nl]) ++ D
               ++ (B "-- " ++ [nl]) ++ (V ++ [nl]))
              HX HA Hnow HSub BA eq_refl) as [dv ->].
  cbv beta iota. unfold split_message.
  match goal with
  | |- context [get_field ?m (B "from")] =>
      rewrite (get_field_str m (B "from") (author commit) eq_refl
                 (proj1 (MailFacts.header_text_forall _ HA)))
  end.
  match goal with
  | |- context [get_field ?m (B "subject")] =>
      rewrite (get_field_str m (B "subject") Sub eq_refl
                 (proj1 (MailFacts.header_text_forall _ HSub)))
  end.
  cbv beta iota zeta. unfold Sub.
  rewrite (RoundTripFacts.subject_message_tagged P subject HP' HS).
  cbn [payload].
  rewrite MailFacts.universal_newlines_app by exact Hbcr.
  rewrite MailFacts.universal_newlines_app by (simpl; intuition discriminate).
  rewrite MailFacts.universal_newlines_app by exact Hcr.
  rewrite MailFacts.universal_newlines_app by (simpl; intuition discriminate).
  rewrite (MailFacts.universal_newlines_app V [nl]) by tauto.
  change (Email.universal_newlines [nl]) with [nl].
  assert (El : readlines
                 (rest ++ ([nl] ++ B "---" ++ [nl]) ++ D
                  ++ (B "-- " ++ [nl]) ++ V ++ [nl])
               = (readlines rest ++ [[nl]])
                 ++ (B "---" ++ [nl])
                 :: readlines D
                 ++ (B "-- " ++ [nl]) :: [V ++ [nl]]).
  { rewrite (MailFacts.readlines_app rest) by exact Hrest.
    rewrite (MailFacts.readlines_app ([nl] ++ B "---" ++ [nl]))
      by (right; reflexivity).
    rewrite (MailFacts.readlines_app D) by exact HD.
    rewrite (MailFacts.readlines_app (B "-- " ++ [nl]))
      by (right; reflexivity).
    rewrite (RenderFacts.readlines_line V []) by tauto.
    rewrite <- app_assoc. reflexivity. }
  rewrite El.
  rewrite (scan_message_first (readlines rest ++ [[nl]])
             ((B "---" ++ [nl]) :: _)
             (mkCommit (author commit) (author commit) (subject ++ [nl])));
    [| intros H; apply in_app_or in H; destruct H as [H | [H | []]];
       [contradiction | discriminate]
     | reflexivity].
  cbn [tl].
  rewrite (scan_diff_rest (readlines D) ((B "-- " ++ [nl]) :: _) []
             Hmark eq_refl).
  rewrite MailFacts.concat_readlines. cbn [app tl].
  assert (Ev : rstrip_nl (V ++ [nl]) = V).
  { apply RoundTripFacts.rstrip_by_free; [|reflexivity].
    intros c Hc. apply ascii_eqb_false. intros <-. tauto. }
  rewrite Ev.
  assert (Em : message commit ++ [nl; nl]
               = subject ++ [nl; nl] ++ rest ++ [nl]).
  { change [nl; nl] with ([nl] ++ [nl]) at 1.
    rewrite (app_assoc (message commit)), Hmsg, <- !app_assoc. reflexivity. }
  rewrite Em.
  pose proof (MailFacts.concat_readlines rest) as Hc.
  destruct (readlines rest) as [|l ls] eqn:El0.
  - cbn [concat] in Hc. subst rest.
    change (startswith (B "From: ") [nl]) with false.
    cbn [app concat author committer message].
    rewrite <- !app_assoc. reflexivity.
  - cbn [app].
    rewrite (RoundTripFacts.startswith_first_line (B "From: ") rest l ls)
      by (simpl; intuition discriminate || exact El0).
    rewrite Hfrom. cbn [author committer message].
    assert (Eb : l ++ concat (ls ++ [[nl]]) = rest ++ [nl]).
    { cbn [concat] in Hc.
      rewrite concat_app, app_assoc, Hc. reflexivity. }
    rewrite Eb, <- !app_assoc. reflexivity.
Qed.


